(** * goverseer: a shallow embedding of the supervisor control loop

    The development follows the Go sources file by file:
    - [backoff.go]    : the four backoff policies, with float64 arithmetic
                        taken from the IEEE-754 specification of the
                        Standard Library ([SpecFloat], binary64);
    - [child.go]      : child records, kept in an explicit store because the
                        supervisor holds them by pointer in both a slice and
                        a map;
    - the options, the event bus, [supervisor.go] and the strategy engine:
      the state of one supervisor and the functions the control loop runs
      on it.

    Conventions.
    - Go [int], [int64] and [time.Duration] are [Z]; where the source adds or
      multiplies, the 64-bit wrap-around is written out with [wrap64].
    - [time.Time] is a [Z] (a reading of the monotonic clock, which is what
      [Time.After] compares for values produced by [time.Now]); every
      function that calls [time.Now] receives the reading as [now].
    - A [*child] is an index into the store [heap]; [newChild] allocates at
      the end of the store, so a fresh pointer is never equal to an old one.
    - Calling a nil [context.CancelFunc] panics. A function that can reach
      such a call returns [option]; [None] is the panic of the goroutine.
    - Event handlers run synchronously; their calls are recorded in the
      order of emission in the log [events]. *)

From Stdlib Require Import ZArith QArith Qminmax Qround Qpower Lia Lqa Bool.
From Stdlib Require Import Floats.SpecFloat.
From stdpp Require Import gmap strings list fin_maps sorting.

Open Scope Z_scope.

(* ===================================================================== *)
(** * Machine integers and float64                                        *)
(* ===================================================================== *)

Definition min_int64 : Z := - 2 ^ 63.
Definition max_int64 : Z := 2 ^ 63 - 1.

(** Two's complement wrap-around of a 64-bit signed result. *)
Definition wrap64 (z : Z) : Z := (z + 2 ^ 63) mod 2 ^ 64 - 2 ^ 63.

(** [time.Duration] in nanoseconds; [time.Time] as a clock reading. *)
Abbreviation Duration := Z (only parsing).
Abbreviation Time := Z (only parsing).

Definition Nanosecond : Duration := 1.
Definition Millisecond : Duration := 1000000.
Definition Second : Duration := 1000000000.
Definition Minute : Duration := 60 * Second.

(** binary64: 53 bits of precision, exponent of the infinities 1024. *)
Abbreviation float64 := spec_float (only parsing).

Definition f64mul : float64 -> float64 -> float64 := SFmul 53 1024.
Definition f64sub : float64 -> float64 -> float64 := SFsub 53 1024.

(** [float64(z)] for an integer [z]: round to nearest, ties to even. *)
Definition float64_of_int (z : Z) : float64 := binary_normalize 53 1024 z 0 false.

Definition f64_zero : float64 := S754_zero false.
Definition f64_one : float64 := float64_of_int 1.
Definition f64_two : float64 := float64_of_int 2.

(** [math.Pow(2, float64(r))] for an integer [r]: the exact power of two,
    +Inf from 2^1024 on, and a subnormal or zero below 2^-1022. *)
Definition math_Pow2 (r : Z) : float64 := binary_normalize 53 1024 1 r false.

(** The integer part of a finite float (truncation toward zero). *)
Definition f64_trunc (f : float64) : option Z :=
  match f with
  | S754_zero _ => Some 0
  | S754_finite s m e =>
      Some (cond_Zopp s (if 0 <=? e then Z.pos m * 2 ^ e else Z.pos m / 2 ^ (- e)))
  | S754_infinity _ | S754_nan => None
  end.

(** The Go specification leaves the conversion of a float that the integer
    type cannot represent implementation-dependent. The two instances are
    what the gc compiler's code does on the two common 64-bit targets:
    CVTTSD2SQ on amd64 returns the "integer indefinite" value 2^63 as a bit
    pattern, that is [min_int64], for every out-of-range input and for NaN;
    FCVTZS on arm64 saturates and maps NaN to 0. *)
Class Platform := { float_to_int64_overflow : float64 -> Z }.

Definition amd64 : Platform :=
  {| float_to_int64_overflow := fun _ => min_int64 |}.

Definition arm64 : Platform :=
  {| float_to_int64_overflow := fun f =>
       match f with
       | S754_nan => 0
       | S754_infinity s | S754_finite s _ _ | S754_zero s =>
           if s then min_int64 else max_int64
       end |}.

Section Conversions.
Context {P : Platform}.

(** [int64(f)] and [time.Duration(f)] for a float64 [f]. *)
Definition int64_of_float (f : float64) : Z :=
  match f64_trunc f with
  | Some z => if (min_int64 <=? z) && (z <=? max_int64) then z
              else float_to_int64_overflow f
  | None => float_to_int64_overflow f
  end.
End Conversions.

(* ===================================================================== *)
(** * backoff.go                                                          *)
(* ===================================================================== *)

(** The implementations of the interface [BackoffPolicy] as one variant;
    each constructor carries the fields of the Go struct of that name. *)
Inductive BackoffPolicy :=
| exponentialBackoff (initial max : Duration)
| constantBackoff (delay : Duration)
| linearBackoff (initial increment max : Duration)
| jitterBackoff (base : BackoffPolicy) (factor : float64).

Definition ExponentialBackoff (initial max : Duration) : BackoffPolicy :=
  exponentialBackoff initial max.

Definition ConstantBackoff (delay : Duration) : BackoffPolicy :=
  constantBackoff delay.

Definition LinearBackoff (initial increment max : Duration) : BackoffPolicy :=
  linearBackoff initial increment max.




Section ComputeDelay.
Context {P : Platform}.

(** [rnd] lists the values the coming calls of [rand.Float64] return, each
    in [0, 1); a call consumes the head (0 once the list is used up). The
    function returns the delay and the unused samples. *)
Fixpoint ComputeDelay (p : BackoffPolicy) (restarts : Z) (rnd : list float64)
  : Duration * list float64 :=
  match p with
  | exponentialBackoff initial max =>
      let delay := int64_of_float (f64mul (float64_of_int initial) (math_Pow2 restarts)) in
      (if max <? delay then max else delay, rnd)
  | constantBackoff delay => (delay, rnd)
  | linearBackoff initial increment max =>
      let delay := wrap64 (initial + wrap64 (restarts * increment)) in
      (if max <? delay then max else delay, rnd)
  | jitterBackoff base factor =>
      let '(baseDelay, rnd) := ComputeDelay base restarts rnd in
      let u := hd f64_zero rnd in
      let jitter :=
        int64_of_float
          (f64mul (f64mul (float64_of_int baseDelay) factor)
                  (f64sub (f64mul u f64_two) f64_one)) in
      let delay := wrap64 (baseDelay + jitter) in
      (if delay <? 0 then 0 else delay, tl rnd)
  end.
End ComputeDelay.

(* ===================================================================== *)
(** * Strategy, RestartType, ChildSpec, errors                            *)
(* ===================================================================== *)

(** [type Strategy int] with its four constants. *)
Abbreviation Strategy := Z (only parsing).
Definition OneForOne : Strategy := 0.
Definition OneForAll : Strategy := 1.
Definition RestForOne : Strategy := 2.
Definition SimpleOneForOne : Strategy := 3.

(** [type RestartType int] with its three constants. *)
Abbreviation RestartType := Z (only parsing).
Definition Permanent : RestartType := 0.
Definition Transient : RestartType := 1.
Definition Temporary : RestartType := 2.

(** A [ChildFunc] is opaque to the supervisor; it is named by a number. *)
Abbreviation ChildFunc := nat (only parsing).

Record ChildSpec := mkChildSpec {
  Name : string;
  Start_ : ChildFunc;   (* the field [Start]; [Start] below is the method *)
  Restart : RestartType
}.

Inductive error :=
| ErrSupervisorStopped
| ErrIntensityExceeded
| ErrChildNotFound
| ErrChildAlreadyExists
| ErrInvalidShutdownTimeout
| ErrUnknownStrategy (s : Strategy)
| ErrChildBody (msg : string).

(* ===================================================================== *)
(** * child.go                                                            *)
(* ===================================================================== *)

(** [cancel] and [exits] record whether the field is non-nil: [newChild]
    sets both, the literal [&child{spec: spec}] of [WithChildren] sets
    neither. The context itself is seen by the body only. *)
Record child := mkChild {
  spec : ChildSpec;
  cancel : bool;
  exits : bool;
  restartCount : Z;
  stopped : bool
}.

(** A [*child]: an index into the store. *)
Abbreviation ptr := nat (only parsing).

Record childExit := mkChildExit {
  exit_child : ptr;
  err : option error;
  panic : bool;
  stackTrace : string
}.

Definition nil_child : child :=
  {| spec := {| Name := ""; Start_ := 0%nat; Restart := 0 |};
     cancel := false; exits := false; restartCount := 0; stopped := false |}.

(** Reading through a pointer. Go pointers do not dangle; the default is
    never reached from a store in which the pointer was allocated. *)
Definition deref (h : list child) (p : ptr) : child := default nil_child (h !! p).

Definition set_stopped (c : child) : child :=
  {| spec := spec c; cancel := cancel c; exits := exits c;
     restartCount := restartCount c; stopped := true |}.

Definition set_restartCount (n : Z) (c : child) : child :=
  {| spec := spec c; cancel := cancel c; exits := exits c;
     restartCount := n; stopped := stopped c |}.

(* ===================================================================== *)
(** * The event bus                                                       *)
(* ===================================================================== *)

Inductive EventType :=
| ChildStarted
| ChildExited
| ChildRestarted
| SupervisorStopping
| SupervisorFailedIntensity
| ChildPanicked.

Record Event := mkEvent {
  ETime : Time;
  ChildName : string;
  EType : EventType;
  Err : option error;
  StackTrace : string
}.

(* ===================================================================== *)
(** * supervisor.go: the state                                            *)
(* ===================================================================== *)

(** The fields of [Supervisor], followed by what the embedding adds:
    [heap], the store of the child records the pointers refer to;
    [events], the log of the calls made to the event handlers;
    [cancelled], whether the supervisor's context has been cancelled;
    [done], whether the channel [done] is closed (the loop has returned). *)
Record Supervisor := mkSupervisor {
  name : string;
  strategy : Strategy;
  maxRestarts : Z;
  restartWindow : Duration;
  backoff : BackoffPolicy;
  shutdownTimeout : Duration;
  children : list ptr;
  childMap : gmap string ptr;
  restartHistory : list Time;
  s_stopped : bool;
  finalErr : option error;
  heap : list child;
  events : list Event;
  cancelled : bool;
  done : bool
}.

Definition with_config (n : string) (mr : Z) (rw : Duration) (b : BackoffPolicy)
    (st : Duration) (s : Supervisor) : Supervisor :=
  {| name := n; strategy := strategy s; maxRestarts := mr; restartWindow := rw;
     backoff := b; shutdownTimeout := st;
     children := children s; childMap := childMap s;
     restartHistory := restartHistory s; s_stopped := s_stopped s;
     finalErr := finalErr s; heap := heap s; events := events s;
     cancelled := cancelled s; done := done s |}.

Definition with_children (cs : list ptr) (m : gmap string ptr) (s : Supervisor)
    : Supervisor :=
  {| name := name s; strategy := strategy s; maxRestarts := maxRestarts s;
     restartWindow := restartWindow s; backoff := backoff s;
     shutdownTimeout := shutdownTimeout s;
     children := cs; childMap := m;
     restartHistory := restartHistory s; s_stopped := s_stopped s;
     finalErr := finalErr s; heap := heap s; events := events s;
     cancelled := cancelled s; done := done s |}.

Definition with_restartHistory (h : list Time) (s : Supervisor) : Supervisor :=
  {| name := name s; strategy := strategy s; maxRestarts := maxRestarts s;
     restartWindow := restartWindow s; backoff := backoff s;
     shutdownTimeout := shutdownTimeout s;
     children := children s; childMap := childMap s;
     restartHistory := h; s_stopped := s_stopped s;
     finalErr := finalErr s; heap := heap s; events := events s;
     cancelled := cancelled s; done := done s |}.

Definition with_heap (h : list child) (s : Supervisor) : Supervisor :=
  {| name := name s; strategy := strategy s; maxRestarts := maxRestarts s;
     restartWindow := restartWindow s; backoff := backoff s;
     shutdownTimeout := shutdownTimeout s;
     children := children s; childMap := childMap s;
     restartHistory := restartHistory s; s_stopped := s_stopped s;
     finalErr := finalErr s; heap := h; events := events s;
     cancelled := cancelled s; done := done s |}.

Definition with_events (es : list Event) (s : Supervisor) : Supervisor :=
  {| name := name s; strategy := strategy s; maxRestarts := maxRestarts s;
     restartWindow := restartWindow s; backoff := backoff s;
     shutdownTimeout := shutdownTimeout s;
     children := children s; childMap := childMap s;
     restartHistory := restartHistory s; s_stopped := s_stopped s;
     finalErr := finalErr s; heap := heap s; events := es;
     cancelled := cancelled s; done := done s |}.

(** The three assignments of the fatal branch of [run]. *)
Definition with_fatal (e : error) (s : Supervisor) : Supervisor :=
  {| name := name s; strategy := strategy s; maxRestarts := maxRestarts s;
     restartWindow := restartWindow s; backoff := backoff s;
     shutdownTimeout := shutdownTimeout s;
     children := children s; childMap := childMap s;
     restartHistory := restartHistory s; s_stopped := true;
     finalErr := Some e; heap := heap s; events := events s;
     cancelled := true; done := done s |}.

Definition with_cancelled (s : Supervisor) : Supervisor :=
  {| name := name s; strategy := strategy s; maxRestarts := maxRestarts s;
     restartWindow := restartWindow s; backoff := backoff s;
     shutdownTimeout := shutdownTimeout s;
     children := children s; childMap := childMap s;
     restartHistory := restartHistory s; s_stopped := s_stopped s;
     finalErr := finalErr s; heap := heap s; events := events s;
     cancelled := true; done := done s |}.

Definition with_done (s : Supervisor) : Supervisor :=
  {| name := name s; strategy := strategy s; maxRestarts := maxRestarts s;
     restartWindow := restartWindow s; backoff := backoff s;
     shutdownTimeout := shutdownTimeout s;
     children := children s; childMap := childMap s;
     restartHistory := restartHistory s; s_stopped := s_stopped s;
     finalErr := finalErr s; heap := heap s; events := events s;
     cancelled := cancelled s; done := true |}.

(** The name a pointer's record carries: [ch.spec.Name]. *)
Definition name_of (s : Supervisor) (p : ptr) : string := Name (spec (deref (heap s) p)).

(* ===================================================================== *)
(** * The event bus and the child operations on the store                 *)
(* ===================================================================== *)

(** [emitEvent]: every caller passes [Time: time.Now()], so the default for
    a zero time is not taken; each handler is called with the event. *)
Definition emitEvent (e : Event) (s : Supervisor) : Supervisor :=
  with_events (events s ++ [e]) s.

(** [newChild]: a fresh record with a context derived from the parent's,
    its cancel function and the exit channel; count 0, not stopped. *)
Definition newChild (sp : ChildSpec) (s : Supervisor) : ptr * Supervisor :=
  (length (heap s),
   with_heap (heap s ++ [ {| spec := sp; cancel := true; exits := true;
                              restartCount := 0; stopped := false |} ]) s).

(** [child.stop]: set the flag, then call [c.cancel]. *)
Definition stop (p : ptr) (s : Supervisor) : option Supervisor :=
  let c := deref (heap s) p in
  if cancel c then Some (with_heap (<[p := set_stopped c]> (heap s)) s)
  else None.

(** [child.start] launches the body in a goroutine of its own; the state of
    the supervisor does not change. *)
Definition startChild (now : Time) (p : ptr) (s : Supervisor)
    : Supervisor * option error :=
  (emitEvent {| ETime := now; ChildName := name_of s p; EType := ChildStarted;
                Err := None; StackTrace := "" |} s,
   None).

(* ===================================================================== *)
(** * The options and [New]                                               *)
(* ===================================================================== *)

Definition Option := Supervisor -> Supervisor.

Definition WithName (n : string) : Option := fun s =>
  with_config n (maxRestarts s) (restartWindow s) (backoff s) (shutdownTimeout s) s.

Definition WithIntensity (maxRestarts' : Z) (window : Duration) : Option := fun s =>
  with_config (name s) maxRestarts' window (backoff s) (shutdownTimeout s) s.

Definition WithBackoff (policy : BackoffPolicy) : Option := fun s =>
  with_config (name s) (maxRestarts s) (restartWindow s) policy (shutdownTimeout s) s.

Definition WithShutdownTimeout (timeout : Duration) : Option := fun s =>
  let timeout := if timeout <=? 0 then 30 * Second else timeout in
  with_config (name s) (maxRestarts s) (restartWindow s) (backoff s) timeout s.

(** [WithChildren]: the records are built by a struct literal, not by
    [newChild]: no context, no cancel function, no exit channel. *)
Definition WithChildren (specs : list ChildSpec) : Option := fun s =>
  fold_left
    (fun s sp =>
       let ch := length (heap s) in
       let s := with_heap (heap s ++ [ {| spec := sp; cancel := false; exits := false;
                                           restartCount := 0; stopped := false |} ]) s in
       with_children (children s ++ [ch]) (<[Name sp := ch]> (childMap s)) s)
    specs s.

Definition New (strat : Strategy) (opts : list Option) : Supervisor :=
  fold_left (fun s opt => opt s) opts
    {| name := "supervisor"; strategy := strat; maxRestarts := 10;
       restartWindow := Minute;
       backoff := ExponentialBackoff (100 * Millisecond) (5 * Second);
       shutdownTimeout := 30 * Second;
       children := []; childMap := ∅; restartHistory := [];
       s_stopped := false; finalErr := None;
       heap := []; events := []; cancelled := false; done := false |}.

(* ===================================================================== *)
(** * supervisor.go: commands                                             *)
(* ===================================================================== *)

Record command := mkCommand {
  action : string;
  cmd_spec : option ChildSpec;
  cmd_name : string
}.

(** [Start]: the stopped check, then [startChild] on every child. *)
Definition Start (now : Time) (s : Supervisor) : Supervisor * option error :=
  if s_stopped s then (s, Some ErrSupervisorStopped)
  else (fold_left (fun s ch => fst (startChild now ch s)) (children s) s, None).

Definition doAddChild (now : Time) (sp : ChildSpec) (s : Supervisor)
    : Supervisor * option error :=
  if s_stopped s then (s, Some ErrSupervisorStopped)
  else if decide (is_Some (childMap s !! Name sp)) then (s, Some ErrChildAlreadyExists)
  else
    let '(ch, s) := newChild sp s in
    let s := with_children (children s ++ [ch]) (<[Name sp := ch]> (childMap s)) s in
    startChild now ch s.

(** The loop [for i, c := range s.children { if c == ch { ...; break } }]:
    the first occurrence of the pointer is cut out. *)
Fixpoint remove_first (ch : ptr) (l : list ptr) : list ptr :=
  match l with
  | [] => []
  | c :: l' => if decide (c = ch) then l' else c :: remove_first ch l'
  end.

Definition doRemoveChild (nm : string) (s : Supervisor)
    : option (Supervisor * option error) :=
  match childMap s !! nm with
  | None => Some (s, Some ErrChildNotFound)
  | Some ch =>
      s ← stop ch s;
      Some (with_children (remove_first ch (children s)) (delete nm (childMap s)) s, None)
  end.

(** The loop [for i, c := range s.children { if c.spec.Name == name {
    s.children[i] = ch; break } }]: the first slot whose record carries the
    name receives the new pointer; without such a slot nothing changes. *)
Fixpoint replace_by_name (h : list child) (nm : string) (new : ptr) (l : list ptr)
    : list ptr :=
  match l with
  | [] => []
  | c :: l' =>
      if decide (Name (spec (deref h c)) = nm) then new :: l'
      else c :: replace_by_name h nm new l'
  end.

Definition doRestartChild (now : Time) (nm : string) (s : Supervisor)
    : option (Supervisor * option error) :=
  match childMap s !! nm with
  | None => Some (s, Some ErrChildNotFound)
  | Some ch =>
      s ← stop ch s;
      let '(ch', s) := newChild (spec (deref (heap s) ch)) s in
      let s := with_children (replace_by_name (heap s) nm ch' (children s))
                             (<[nm := ch']> (childMap s)) s in
      Some (startChild now ch' s)
  end.

(** [handleCommand]; an "add" whose [spec] is nil dereferences nil. *)
Definition handleCommand (now : Time) (cmd : command) (s : Supervisor)
    : option (Supervisor * option error) :=
  if decide (action cmd = "add") then
    sp ← cmd_spec cmd; Some (doAddChild now sp s)
  else if decide (action cmd = "remove") then doRemoveChild (cmd_name cmd) s
  else if decide (action cmd = "restart") then doRestartChild now (cmd_name cmd) s
  else Some (s, None).

(** [for _, ch := range children { ch.stop() }]. *)
Fixpoint stop_each (chs : list ptr) (s : Supervisor) : option Supervisor :=
  match chs with
  | [] => Some s
  | ch :: chs' => s ← stop ch s; stop_each chs' s
  end.

(** [shutdownChildren]: every child of the copied slice is stopped; after
    that every flag is set and the polling loop returns at once. *)
Definition shutdownChildren (s : Supervisor) : option Supervisor :=
  stop_each (children s) s.

(* ===================================================================== *)
(** * supervisor.go: exit processing                                      *)
(* ===================================================================== *)

Definition shouldRestart (s : Supervisor) (exit : childExit) : bool :=
  let rt := Restart (spec (deref (heap s) (exit_child exit))) in
  if decide (rt = Permanent) then true
  else if decide (rt = Transient) then bool_decide (err exit ≠ None) || panic exit
  else if decide (rt = Temporary) then false
  else false.

(** The loop of [checkRestartIntensity]: the index of the first entry after
    the cutoff; [start] keeps its initial 0 when the loop ends without a
    [break]. *)
Fixpoint find_start (cutoff : Time) (h : list Time) (i : nat) : nat :=
  match h with
  | [] => 0%nat
  | t :: h' => if cutoff <? t then i else find_start cutoff h' (S i)
  end.

Definition checkRestartIntensity (now : Time) (s : Supervisor) : Supervisor * bool :=
  let h := restartHistory s ++ [now] in
  let cutoff := now - restartWindow s in
  let start := find_start cutoff h 0 in
  let h := drop start h in
  (with_restartHistory h s, Z.of_nat (length h) <=? maxRestarts s).

(* ===================================================================== *)
(** * The strategy engine                                                 *)
(* ===================================================================== *)

Definition restarted_event (now : Time) (nm : string) : Event :=
  {| ETime := now; ChildName := nm; EType := ChildRestarted;
     Err := None; StackTrace := "" |}.

(** [newChild(old.spec, ...)] followed by
    [newChild.restartCount = old.restartCount + 1]. *)
Definition newChild_bumped (old : child) (s : Supervisor) : ptr * Supervisor :=
  let '(new, s) := newChild (spec old) s in
  (new, with_heap (<[new := set_restartCount (wrap64 (restartCount old + 1))
                                               (deref (heap s) new)]> (heap s)) s).

Definition restartOne (now : Time) (exit : childExit) (s : Supervisor)
    : Supervisor * option error :=
  let old := deref (heap s) (exit_child exit) in
  let '(new, s) := newChild_bumped old s in
  let s := with_children (replace_by_name (heap s) (Name (spec old)) new (children s))
                         (<[Name (spec old) := new]> (childMap s)) s in
  let s := emitEvent (restarted_event now (name_of s new)) s in
  startChild now new s.

(** One round of the second loop of [restartAll]. *)
Definition replace_child (acc : list ptr * Supervisor) (ch : ptr)
    : list ptr * Supervisor :=
  let '(newChildren, s) := acc in
  let old := deref (heap s) ch in
  let '(new, s) := newChild_bumped old s in
  (newChildren ++ [new],
   with_children (children s) (<[Name (spec old) := new]> (childMap s)) s).

(** One round of the third loop of [restartAll]. *)
Definition announce_and_start (now : Time) (s : Supervisor) (ch : ptr) : Supervisor :=
  fst (startChild now ch (emitEvent (restarted_event now (name_of s ch)) s)).

Definition restartAll (now : Time) (s : Supervisor)
    : option (Supervisor * option error) :=
  s ← stop_each (children s) s;
  let '(newChildren, s) := fold_left replace_child (children s) ([], s) in
  let s := with_children newChildren (childMap s) s in
  Some (fold_left (announce_and_start now) (children s) s, None).

(** The first loop of [restartRestForOne]: the index of the first child
    that carries the name, or -1 ([None]). The second loop stops the
    children from that index on, the third replaces them slot by slot. *)
Fixpoint find_index (h : list child) (nm : string) (l : list ptr) (i : nat)
    : option nat :=
  match l with
  | [] => None
  | c :: l' =>
      if decide (Name (spec (deref h c)) = nm) then Some i
      else find_index h nm l' (S i)
  end.

(** [s.children[i]], for an index in range. *)
Definition child_at (s : Supervisor) (i : nat) : ptr :=
  default (0%nat : ptr) (children s !! i).

(** One round of the third loop, at index [i]. *)
Definition restart_at (now : Time) (i : nat) (s : Supervisor) : Supervisor :=
  let oldChild := deref (heap s) (child_at s i) in
  let '(new, s) := newChild_bumped oldChild s in
  let s := with_children (<[i := new]> (children s))
                         (<[Name (spec (deref (heap s) new)) := new]> (childMap s)) s in
  let s := emitEvent (restarted_event now (name_of s new)) s in
  fst (startChild now new s).

Definition restartRestForOne (now : Time) (exit : childExit) (s : Supervisor)
    : option (Supervisor * option error) :=
  match find_index (heap s) (Name (spec (deref (heap s) (exit_child exit))))
                   (children s) 0 with
  | None => Some (s, None)
  | Some failedIndex =>
      s ← stop_each (drop failedIndex (children s)) s;
      Some (fold_left (fun s i => restart_at now i s)
                      (seq failedIndex (length (children s) - failedIndex)) s,
            None)
  end.

Definition executeStrategy (now : Time) (exit : childExit) (s : Supervisor)
    : option (Supervisor * option error) :=
  if decide (strategy s = OneForOne) then Some (restartOne now exit s)
  else if decide (strategy s = OneForAll) then restartAll now s
  else if decide (strategy s = RestForOne) then restartRestForOne now exit s
  else if decide (strategy s = SimpleOneForOne) then Some (restartOne now exit s)
  else Some (s, Some (ErrUnknownStrategy (strategy s))).

(** The event [handleChildExit] emits first. *)
Definition exit_event (now : Time) (s : Supervisor) (exit : childExit) : Event :=
  {| ETime := now; ChildName := name_of s (exit_child exit);
     EType := if panic exit then ChildPanicked else ChildExited;
     Err := err exit; StackTrace := stackTrace exit |}.

Section Loop.
Context {P : Platform}.

(** [rnd]: the samples [rand.Float64] returns during the call. The events
    after [time.Sleep] carry the later time. *)
Definition handleChildExit (now : Time) (rnd : list float64) (exit : childExit)
    (s : Supervisor) : option (Supervisor * option error) :=
  let s := emitEvent (exit_event now s exit) s in
  if negb (shouldRestart s exit) then Some (s, None)
  else
    let '(s, ok) := checkRestartIntensity now s in
    if negb ok then
      Some (emitEvent {| ETime := now; ChildName := name_of s (exit_child exit);
                         EType := SupervisorFailedIntensity;
                         Err := None; StackTrace := "" |} s,
            Some ErrIntensityExceeded)
    else
      let delay :=
        fst (ComputeDelay (backoff s)
               (restartCount (deref (heap s) (exit_child exit))) rnd) in
      let now := if 0 <? delay then now + delay else now in
      executeStrategy now exit s.

(** What one iteration of the [select] in [run] receives. *)
Inductive input :=
| ctxDone
| recvCommand (cmd : command)
| recvExit (exit : childExit).

(** The two deferred calls of [run]. *)
Definition run_return (s : Supervisor) : option Supervisor :=
  s ← shutdownChildren s; Some (with_done s).

(** One iteration of the loop of [run], with the reply sent on the
    command's response channel, if any. Once [run] has returned nothing
    is received; [ctxDone] is ready only after a cancellation. *)
Definition run_step (now : Time) (rnd : list float64) (i : input) (s : Supervisor)
    : option (Supervisor * option (option error)) :=
  if done s then Some (s, None)
  else
    match i with
    | ctxDone =>
        if cancelled s then
          s ← run_return
                (emitEvent {| ETime := now; ChildName := ""; EType := SupervisorStopping;
                              Err := None; StackTrace := "" |} s);
          Some (s, None)
        else Some (s, None)
    | recvCommand cmd =>
        '(s, e) ← handleCommand now cmd s; Some (s, Some e)
    | recvExit exit =>
        '(s, e) ← handleChildExit now rnd exit s;
        match e with
        | Some e => s ← run_return (with_fatal e s); Some (s, None)
        | None => Some (s, None)
        end
    end.

(** The loop on a sequence of receptions, each with its clock reading and
    its random samples. *)
Fixpoint run (ins : list (Time * list float64 * input)) (s : Supervisor)
    : option Supervisor :=
  match ins with
  | [] => Some s
  | (now, rnd, i) :: ins' =>
      '(s, _) ← run_step now rnd i s; run ins' s
  end.

(** A public call that goes through the command channel: the caller
    waits for the reply; after [run] has returned no reply ever comes. *)
Inductive reply :=
| Returns (e : option error)
| Blocks.

Definition call (now : Time) (cmd : command) (s : Supervisor)
    : option (Supervisor * reply) :=
  if done s then Some (s, Blocks)
  else '(s, r) ← run_step now [] (recvCommand cmd) s;
       Some (s, Returns (default None r)).

Definition AddChild (now : Time) (sp : ChildSpec) :=
  call now {| action := "add"; cmd_spec := Some sp; cmd_name := "" |}.

Definition RemoveChild (now : Time) (nm : string) :=
  call now {| action := "remove"; cmd_spec := None; cmd_name := nm |}.

Definition RestartChild (now : Time) (nm : string) :=
  call now {| action := "restart"; cmd_spec := None; cmd_name := nm |}.

(** [Wait]: wait for [done], read [finalErr]. *)
Definition Wait (s : Supervisor) : reply :=
  if done s then Returns (finalErr s) else Blocks.

(** [Stop]: cancel, wait for [done], read [finalErr]. The loop takes the
    cancellation as its next reception. *)
Definition Stop (now : Time) (s : Supervisor) : option (Supervisor * option error) :=
  '(s, _) ← run_step now [] ctxDone (with_cancelled s);
  Some (s, finalErr s).
End Loop.

(* ===================================================================== *)
(** * Properties of states                                                *)
(* ===================================================================== *)

(** The children sequence and the Name index hold the same records under
    the same names. *)
Definition consistent (s : Supervisor) : Prop :=
  ∀ nm p, childMap s !! nm = Some p ↔ p ∈ children s ∧ name_of s p = nm.

(** Every registered record is allocated and was built by [newChild]. *)
Definition wired (s : Supervisor) : Prop :=
  Forall (fun p => (p < length (heap s))%nat ∧ cancel (deref (heap s) p) = true)
         (children s).

(** The restart history as a monotonic clock leaves it: in the order of the
    readings, none later than the reading [now]. *)
Definition monotone_history (now : Time) (s : Supervisor) : Prop :=
  StronglySorted Z.le (restartHistory s) ∧ Forall (fun t => t <= now) (restartHistory s).

(** The window (now - restartWindow, now]. *)
Definition in_window (now : Time) (w : Duration) (t : Time) : Prop :=
  now - w < t ∧ t <= now.

(** The entries of the history, with [now] appended, that are later than
    [now - w]: what pruning at or before the cutoff retains. *)
Definition retained (now : Time) (w : Duration) (h : list Time) : list Time :=
  filter (fun t => now - w < t) (h ++ [now]).

Definition valid_strategy (s : Supervisor) : Prop :=
  strategy s = OneForOne ∨ strategy s = OneForAll ∨
  strategy s = RestForOne ∨ strategy s = SimpleOneForOne.


(** The two events one restarted slot produces. *)
Definition restart_events (now : Time) (nm : string) : list Event :=
  [ restarted_event now nm;
    {| ETime := now; ChildName := nm; EType := ChildStarted;
       Err := None; StackTrace := "" |} ].

Section Scenarios.
Context {P : Platform}.

(** Every exit of the sequence warrants a restart in the state in which
    the loop receives it. *)
Fixpoint warranted (es : list (Time * list float64 * childExit)) (s : Supervisor)
    : Prop :=
  match es with
  | [] => True
  | (now, rnd, e) :: es' =>
      shouldRestart s e = true ∧
      ∀ s' r, run_step now rnd (recvExit e) s = Some (s', r) → warranted es' s'
  end.

Definition receptions (es : list (Time * list float64 * childExit))
    : list (Time * list float64 * input) :=
  map (fun '(now, rnd, e) => (now, rnd, recvExit e)) es.

Definition times (es : list (Time * list float64 * childExit)) : list Time :=
  map (fun x => fst (fst x)) es.

(** A permanent worker "w". *)
Definition worker : ChildSpec :=
  {| Name := "w"; Start_ := 1%nat; Restart := Permanent |}.

(** The body returned nil. *)
Definition returned (p : ptr) : childExit :=
  {| exit_child := p; err := None; panic := false; stackTrace := "" |}.

(** The body returned an error. *)
Definition failed (p : ptr) : childExit :=
  {| exit_child := p; err := Some (ErrChildBody "boom"); panic := false;
     stackTrace := "" |}.

(** [New(strat)], [AddChild(worker)], [RemoveChild("w")]: the worker's
    record has been stopped and unregistered; its exit is still to come. *)
Definition after_remove (strat : Strategy) : option Supervisor :=
  '(s, _) ← AddChild 1 worker (New strat []);
  '(s, _) ← RemoveChild 2 "w" s;
  Some s.

(** [New(OneForOne)], [AddChild(worker)], then the worker fails once and
    is restarted by the strategy. *)
Definition after_one_failure : option Supervisor :=
  '(s, _) ← AddChild 1 worker (New OneForOne []);
  run [(2, [], recvExit (failed 0%nat))] s.

(** [New(OneForOne, WithIntensity(0, time.Minute))], [AddChild(worker)],
    then the worker fails: the first restart already exceeds the budget. *)
Definition after_fatal : option Supervisor :=
  '(s, _) ← AddChild 1 worker (New OneForOne [WithIntensity 0 Minute]);
  run [(2, [], recvExit (failed 0%nat))] s.
End Scenarios.

(** A child whose restart type is none of the three constants, and a
    temporary one, both added at run time. *)
Definition odd_child : ChildSpec :=
  {| Name := "odd"; Start_ := 2%nat; Restart := 7 |}.

Definition temporary_child : ChildSpec :=
  {| Name := "tmp"; Start_ := 3%nat; Restart := Temporary |}.

Definition odd_and_temporary : Supervisor :=
  fst (doAddChild 2 temporary_child (fst (doAddChild 1 odd_child (New OneForOne [])))).

(** The intensity check as the specification words it: the history
    becomes the retained entries, and the check passes exactly when their
    number does not exceed [maxRestarts]. *)
Definition intensity_check_as_specified (now : Time) (s : Supervisor) : Prop :=
  restartHistory (fst (checkRestartIntensity now s))
    = retained now (restartWindow s) (restartHistory s) ∧
  snd (checkRestartIntensity now s)
    = (Z.of_nat (length (retained now (restartWindow s) (restartHistory s)))
         <=? maxRestarts s).

(* ===================================================================== *)
(** * Closed forms used by the proofs                                     *)
(* ===================================================================== *)

(** A state that differs from [s] in the four components the strategies
    write: sequence, index, store and event log. *)
Definition updated (s : Supervisor) (cs : list ptr) (m : gmap string ptr)
    (h : list child) (es : list Event) : Supervisor :=
  with_events es (with_children cs m (with_heap h s)).

(** The store after the records [chs] have been stopped in turn. *)
Fixpoint stop_heap (chs : list ptr) (h : list child) : list child :=
  match chs with
  | [] => h
  | ch :: chs' => stop_heap chs' (<[ch := set_stopped (deref h ch)]> h)
  end.

(** The record [newChild_bumped] allocates, with the machine addition. *)
Definition bumped (old : child) : child :=
  {| spec := spec old; cancel := true; exits := true;
     restartCount := wrap64 (restartCount old + 1); stopped := false |}.

Definition allocated (s : Supervisor) : Prop :=
  Forall (fun p => (p < length (heap s))%nat) (children s).

(** Pointers into [h] whose records have a cancel function. *)
Definition wired_in (h : list child) (cs : list ptr) : Prop :=
  Forall (fun p => (p < length h)%nat ∧ cancel (deref h p) = true) cs.

(** The event that announces the fatal intensity error. *)
Definition intensity_event (now : Time) (nm : string) : Event :=
  {| ETime := now; ChildName := nm; EType := SupervisorFailedIntensity;
     Err := None; StackTrace := "" |}.

(** [New(OneForOne, WithIntensity(3, 0))] with one permanent worker added
    at run time, and four failures one minute apart: of the worker and of
    its three successive replacements. *)
Definition zero_window_worker : Supervisor :=
  fst (doAddChild 1 worker (New OneForOne [WithIntensity 3 0])).

Definition four_failures : list (Time * list float64 * childExit) :=
  [ (Minute, [], failed 0%nat);
    (2 * Minute, [], failed 1%nat);
    (3 * Minute, [], failed 2%nat);
    (4 * Minute, [], failed 3%nat) ].

(** A budget of two restarts in 100 ms, one permanent worker added at run
    time, and three failures 10 ms apart: of the worker, of its first
    replacement and of its second replacement. *)
Definition budget_two : Supervisor :=
  fst (doAddChild 1 worker
         (New OneForOne [WithIntensity 2 (100 * Millisecond);
                         WithBackoff (ConstantBackoff Millisecond)])).

Definition three_failures : list (Time * list float64 * childExit) :=
  [ (10 * Millisecond, [], failed 0%nat);
    (20 * Millisecond, [], failed 1%nat);
    (30 * Millisecond, [], failed 2%nat) ].


(** A history of two restarts, 10 ns and 50 ms after the start of the
    clock, under a window of 100 ms. *)
Definition two_restarts : Supervisor :=
  fst (checkRestartIntensity (50 * Millisecond)
    (fst (checkRestartIntensity 10
      (New OneForOne [WithIntensity 3 (100 * Millisecond)])))).

(** The default policy of [New]. *)
Definition default_backoff : BackoffPolicy :=
  ExponentialBackoff (100 * Millisecond) (5 * Second).

(* ===================================================================== *)
(** * Properties of float64 values                                        *)
(* ===================================================================== *)

(** Zero or a finite number: neither an infinity nor NaN. *)
Definition is_finite (f : float64) : bool :=
  match f with
  | S754_zero _ | S754_finite _ _ _ => true
  | S754_infinity _ | S754_nan => false
  end.





Section JitterSpecification.
Context {P : Platform}.



End JitterSpecification.

(** The magnitude of a float as a rational (0 for the infinities and NaN). *)
Definition f64_abs (f : float64) : Q :=
  match f with
  | S754_finite _ m e => (inject_Z (Z.pos m) * Qpower 2 e)%Q
  | _ => 0%Q
  end.






(* ===================================================================== *)
(** * The rest of the package                                             *)
(* ===================================================================== *)

(** [Strategy.String]. *)
Definition Strategy_String (s : Strategy) : string :=
  if decide (s = OneForOne) then "OneForOne"
  else if decide (s = OneForAll) then "OneForAll"
  else if decide (s = RestForOne) then "RestForOne"
  else if decide (s = SimpleOneForOne) then "SimpleOneForOne"
  else "Unknown".

(** [RestartType.String]. *)
Definition RestartType_String (rt : RestartType) : string :=
  if decide (rt = Permanent) then "Permanent"
  else if decide (rt = Transient) then "Transient"
  else if decide (rt = Temporary) then "Temporary"
  else "Unknown".

(** [child.isStopped], through the pointer. *)
Definition isStopped (p : ptr) (s : Supervisor) : bool := stopped (deref (heap s) p).

(** The record [newChild] allocates, and the one the struct literal of
    [WithChildren] builds. *)
Definition fresh_child (sp : ChildSpec) : child :=
  {| spec := sp; cancel := true; exits := true; restartCount := 0; stopped := false |}.

Definition literal_child (sp : ChildSpec) : child :=
  {| spec := sp; cancel := false; exits := false; restartCount := 0; stopped := false |}.

(** The event [startChild] emits. *)
Definition started_event (now : Time) (nm : string) : Event :=
  {| ETime := now; ChildName := nm; EType := ChildStarted;
     Err := None; StackTrace := "" |}.

(** The event the loop emits when it sees the cancellation. *)
Definition stopping_event (now : Time) : Event :=
  {| ETime := now; ChildName := ""; EType := SupervisorStopping;
     Err := None; StackTrace := "" |}.

(** The state the supervisor's own operations keep: sequence and index
    agree, no record is registered twice, and every registered record was
    built by [newChild]. *)
Definition well_formed (s : Supervisor) : Prop :=
  consistent s ∧ NoDup (children s) ∧ wired s.

(** The configuration, which only the options write. *)
Definition same_config (s s' : Supervisor) : Prop :=
  name s' = name s ∧ strategy s' = strategy s ∧ maxRestarts s' = maxRestarts s ∧
  restartWindow s' = restartWindow s ∧ backoff s' = backoff s ∧
  shutdownTimeout s' = shutdownTimeout s.

(** The options of the package that the embedding covers. *)
Inductive public_option : Option → Prop :=
| public_WithName n : public_option (WithName n)
| public_WithIntensity k w : public_option (WithIntensity k w)
| public_WithBackoff b : public_option (WithBackoff b)
| public_WithShutdownTimeout t : public_option (WithShutdownTimeout t)
| public_WithChildren specs : public_option (WithChildren specs).

(** The index as the second loop of [restartAll] and the third loop of
    [restartRestForOne] leave it: the names of the records [l] in the
    store [h] point to the consecutive fresh pointers from [base] on. *)
Fixpoint remap (h : list child) (l : list ptr) (base : nat) (m : gmap string ptr)
    : gmap string ptr :=
  match l with
  | [] => m
  | p :: l' => remap h l' (S base) (<[Name (spec (deref h p)) := base]> m)
  end.

(** The sequence after the slot of [ch] has received [new]. *)
Definition swap_child (ch new : ptr) (l : list ptr) : list ptr :=
  map (fun p => if decide (p = ch) then new else p) l.

(** The delay of the linear policy in exact arithmetic. *)
Definition linear_delay (initial increment max : Duration) (restarts : Z) : Z :=
  Z.min (initial + restarts * increment) max.

(** The errors the loop itself can end with. *)
Definition loop_error (strat : Strategy) (e : option error) : Prop :=
  e = Some ErrIntensityExceeded ∨ e = Some (ErrUnknownStrategy strat).

(** Every exit of the sequence is that of a record registered when the
    loop receives it, and every "add" command carries its spec. *)
Definition admissible (i : input) (s : Supervisor) : Prop :=
  match i with
  | ctxDone => True
  | recvCommand cmd => action cmd = "add" → is_Some (cmd_spec cmd)
  | recvExit exit => exit_child exit ∈ children s
  end.

(** [New(OneForOne)] followed by [AddChild(worker)]. *)
Definition one_worker : Supervisor := fst (doAddChild 1 worker (New OneForOne [])).

(** [New(OneForAll)] followed by two [AddChild]. *)
Definition two_workers : Supervisor :=
  fst (doAddChild 2 {| Name := "v"; Start_ := 2%nat; Restart := Transient |}
         (fst (doAddChild 1 worker (New OneForAll [])))).

(** What the handlers of commands and exits leave alone: the
    configuration, the flags and the final error. *)
Definition same_control (s s' : Supervisor) : Prop :=
  same_config s s' ∧ s_stopped s' = s_stopped s ∧ finalErr s' = finalErr s ∧
  cancelled s' = cancelled s ∧ done s' = done s.

Section Admissible.
Context {P : Platform}.

(** Every reception of the sequence is admissible in the state in which
    the loop receives it. *)
Fixpoint admissible_all (ins : list (Time * list float64 * input)) (s : Supervisor)
    : Prop :=
  match ins with
  | [] => True
  | (now, rnd, i) :: ins' =>
      admissible i s ∧
      ∀ s' r, run_step now rnd i s = Some (s', r) → admissible_all ins' s'
  end.
End Admissible.

(** [s'] differs from [s] at most in the sequence, the index, the store
    and the event log. *)
Definition frames (s s' : Supervisor) : Prop :=
  ∃ cs m h es, s' = updated s cs m h es.

(** How the control state of [s'] relates to that of [s] after any number
    of iterations of the loop: the configuration is the same; a loop that
    had returned has done nothing; and either the final error and the
    stopped flag are as before, or the loop has returned on an error of its
    own, which is then the final error. *)
Definition control_after (s s' : Supervisor) : Prop :=
  same_config s s' ∧
  (done s = true → s' = s) ∧
  ((finalErr s' = finalErr s ∧ s_stopped s' = s_stopped s) ∨
   (done s = false ∧ done s' = true ∧ s_stopped s' = true ∧ cancelled s' = true ∧
    loop_error (strategy s) (finalErr s'))).

(** A budget of no restarts, and a strategy that is none of the four. *)
Definition no_budget : Supervisor :=
  fst (doAddChild 1 worker (New OneForOne [WithIntensity 0 Minute])).

Definition odd_strategy : Supervisor := fst (doAddChild 1 worker (New 7 [])).

(** [New(OneForOne)], [AddChild(worker)], [RemoveChild("w")], as a state;
    the worker's record is at pointer 0. *)
Definition removed_worker : Supervisor :=
  default one_worker (fst <$> doRemoveChild "w" one_worker).

(** Every pointer the supervisor holds, in the sequence or in the index,
    is allocated and has a cancel function. *)
Definition sound (s : Supervisor) : Prop :=
  wired s ∧
  map_Forall (fun _ p => (p < length (heap s))%nat ∧ cancel (deref (heap s) p) = true)
             (childMap s).

(** The supervisor with another strategy. *)
Definition with_strategy (st : Strategy) (s : Supervisor) : Supervisor :=
  {| name := name s; strategy := st; maxRestarts := maxRestarts s;
     restartWindow := restartWindow s; backoff := backoff s;
     shutdownTimeout := shutdownTimeout s;
     children := children s; childMap := childMap s;
     restartHistory := restartHistory s; s_stopped := s_stopped s;
     finalErr := finalErr s; heap := heap s; events := events s;
     cancelled := cancelled s; done := done s |}.

(** An "add" command carries its spec, as every command [AddChild] sends
    does. *)
Definition carries_spec (x : Time * list float64 * input) : Prop :=
  match x with
  | (_, _, recvCommand cmd) => action cmd = "add" → is_Some (cmd_spec cmd)
  | _ => True
  end.

(* ===================================================================== *)
(** * The store                                                           *)
(* ===================================================================== *)

Section Store.
Implicit Types (h : list child) (p q : ptr) (c : child).

Lemma wrap64_id z : min_int64 <= z <= max_int64 → wrap64 z = z.
Proof.
  unfold wrap64, min_int64, max_int64. intros Hz.
  rewrite Z.mod_small; lia.
Qed.

Lemma deref_app_l h h' p : (p < length h)%nat → deref (h ++ h') p = deref h p.
Proof. intros Hp. unfold deref. now rewrite lookup_app_l. Qed.

Lemma deref_app_r h h' (k : nat) : deref (h ++ h') (length h + k)%nat = deref h' k.
Proof.
  unfold deref. rewrite lookup_app_r by lia.
  now replace (length h + k - length h)%nat with k by lia.
Qed.

Lemma deref_snoc h c : deref (h ++ [c]) (length h) = c.
Proof.
  replace (length h) with (length h + 0)%nat at 1 by lia.
  now rewrite deref_app_r.
Qed.

Lemma deref_insert_eq h p c : (p < length h)%nat → deref (<[p := c]> h) p = c.
Proof. intros Hp. unfold deref. now rewrite list_lookup_insert_eq. Qed.

Lemma deref_insert_ne h p q c : p ≠ q → deref (<[p := c]> h) q = deref h q.
Proof. intros Hp. unfold deref. now rewrite list_lookup_insert_ne. Qed.

Lemma insert_snoc h c c' : <[length h := c']> (h ++ [c]) = h ++ [c'].
Proof.
  rewrite insert_app_r_alt by lia.
  now replace (length h - length h)%nat with 0%nat by lia.
Qed.

Lemma newChild_bumped_eq old s :
  newChild_bumped old s
    = (length (heap s), with_heap (heap s ++ [bumped old]) s).
Proof.
  unfold newChild_bumped, newChild. f_equal.
  unfold with_heap. cbn. f_equal.
  rewrite insert_snoc. f_equal. f_equal.
  now rewrite deref_snoc.
Qed.

Lemma stop_heap_length chs h : length (stop_heap chs h) = length h.
Proof.
  revert h. induction chs as [|ch chs IH]; intros h; cbn; [reflexivity|].
  now rewrite IH, length_insert.
Qed.

Lemma stop_heap_other chs h q : q ∉ chs → deref (stop_heap chs h) q = deref h q.
Proof.
  revert h. induction chs as [|ch chs IH]; intros h Hq; cbn; [reflexivity|].
  apply not_elem_of_cons in Hq as [Hne Hq].
  rewrite IH by assumption. now rewrite deref_insert_ne.
Qed.

Lemma set_stopped_idem c : set_stopped (set_stopped c) = set_stopped c.
Proof. reflexivity. Qed.

(** Stopping changes nothing but the flag. *)
Lemma stop_heap_fields chs h q :
  spec (deref (stop_heap chs h) q) = spec (deref h q) ∧
  cancel (deref (stop_heap chs h) q) = cancel (deref h q) ∧
  exits (deref (stop_heap chs h) q) = exits (deref h q) ∧
  restartCount (deref (stop_heap chs h) q) = restartCount (deref h q).
Proof.
  revert h. induction chs as [|ch chs IH]; intros h; cbn; [auto|].
  destruct (IH (<[ch := set_stopped (deref h ch)]> h)) as (-> & -> & -> & ->).
  destruct (decide (ch = q)) as [->|Hne].
  - destruct (decide (q < length h)%nat).
    + rewrite deref_insert_eq by assumption. auto.
    + rewrite list_insert_ge by lia. auto.
  - rewrite deref_insert_ne by assumption. auto.
Qed.

Lemma stop_heap_stopped chs h q :
  q ∈ chs → (q < length h)%nat →
  deref (stop_heap chs h) q = set_stopped (deref h q).
Proof.
  revert h. induction chs as [|ch chs IH]; intros h Hq Hlt; [inversion Hq|].
  cbn. destruct (decide (q ∈ chs)) as [Hin|Hnin].
  - rewrite IH by (rewrite ?length_insert; assumption).
    destruct (decide (ch = q)) as [->|Hne].
    + now rewrite deref_insert_eq.
    + now rewrite deref_insert_ne.
  - rewrite stop_heap_other by assumption.
    apply elem_of_cons in Hq as [->|Hq]; [|contradiction].
    now rewrite deref_insert_eq.
Qed.


End Store.

(* ===================================================================== *)
(** * Stopping children                                                   *)
(* ===================================================================== *)

Lemma stop_eq p s :
  cancel (deref (heap s) p) = true →
  stop p s = Some (with_heap (<[p := set_stopped (deref (heap s) p)]> (heap s)) s).
Proof. intros Hc. unfold stop. now rewrite Hc. Qed.

Lemma stop_each_eq chs s :
  Forall (fun p => cancel (deref (heap s) p) = true) chs →
  stop_each chs s = Some (with_heap (stop_heap chs (heap s)) s).
Proof.
  revert s. induction chs as [|ch chs IH]; intros s Hall.
  - cbn. destruct s; reflexivity.
  - inversion Hall as [|? ? Hc Hall']; subst. cbn [stop_each stop_heap].
    rewrite stop_eq by assumption. cbn [mbind option_bind].
    rewrite IH.
    + reflexivity.
    + cbn. eapply Forall_impl; [exact Hall'|]. intros q Hq. cbn in *.
      destruct (stop_heap_fields [ch] (heap s) q) as (_ & Hcq & _).
      cbn in Hcq. now rewrite Hcq.
Qed.

(* ===================================================================== *)
(** * RestForOne: the closed form of the two loops                        *)
(* ===================================================================== *)

Lemma flat_map_ext_Forall {A B} (f g : A → list B) (l : list A) :
  Forall (fun x => f x = g x) l → flat_map f l = flat_map g l.
Proof. induction 1 as [|x l Hx _ IH]; cbn; [reflexivity|]. now rewrite Hx, IH. Qed.

Lemma map_ext_Forall {A B} (f g : A → B) (l : list A) :
  Forall (fun x => f x = g x) l → map f l = map g l.
Proof. induction 1 as [|x l Hx _ IH]; cbn; [reflexivity|]. now rewrite Hx, IH. Qed.

Lemma updated_updated s cs m h es cs' m' h' es' :
  updated (updated s cs m h es) cs' m' h' es' = updated s cs' m' h' es'.
Proof. reflexivity. Qed.

Lemma children_updated s cs m h es : children (updated s cs m h es) = cs.
Proof. reflexivity. Qed.

Lemma childMap_updated s cs m h es : childMap (updated s cs m h es) = m.
Proof. reflexivity. Qed.

Lemma heap_updated s cs m h es : heap (updated s cs m h es) = h.
Proof. reflexivity. Qed.

Lemma events_updated s cs m h es : events (updated s cs m h es) = es.
Proof. reflexivity. Qed.

Lemma name_of_updated s cs m h es p :
  name_of (updated s cs m h es) p = Name (spec (deref h p)).
Proof. reflexivity. Qed.

Lemma flat_map_cons_eq {A B} (f : A → list B) x l :
  flat_map f (x :: l) = f x ++ flat_map f l.
Proof. reflexivity. Qed.

Lemma updated_self s : updated s (children s) (childMap s) (heap s) (events s) = s.
Proof. destruct s; reflexivity. Qed.

Lemma with_heap_updated h s :
  with_heap h s = updated s (children s) (childMap s) h (events s).
Proof. reflexivity. Qed.

Lemma restart_at_eq now i s p :
  children s !! i = Some p →
  restart_at now i s
    = updated s (<[i := length (heap s)]> (children s))
        (<[Name (spec (deref (heap s) p)) := length (heap s)]> (childMap s))
        (heap s ++ [bumped (deref (heap s) p)])
        (events s ++ restart_events now (name_of s p)).
Proof.
  intros Hp. unfold restart_at, child_at. rewrite Hp. cbn [default from_option id].
  rewrite newChild_bumped_eq.
  unfold startChild, emitEvent, name_of. cbn.
  rewrite !deref_snoc.
  unfold updated, with_events, with_children, with_heap. cbn.
  rewrite <- app_assoc. reflexivity.
Qed.

Lemma restart_loop now m : ∀ j s,
  length (children s) = (j + m)%nat →
  Forall (fun p => (p < length (heap s))%nat) (drop j (children s)) →
  ∃ M,
    fold_left (fun s i => restart_at now i s) (seq j m) s
      = updated s (take j (children s) ++ seq (length (heap s)) m) M
          (heap s ++ map (fun p => bumped (deref (heap s) p)) (drop j (children s)))
          (events s ++ flat_map (fun p => restart_events now (name_of s p))
                                (drop j (children s))).
Proof.
  induction m as [|m IH]; intros j s Hlen Hall.
  - exists (childMap s). cbn.
    rewrite drop_ge by lia. rewrite take_ge by lia. cbn.
    rewrite !app_nil_r. symmetry. apply updated_self.
  - destruct (lookup_lt_is_Some_2 (children s) j) as [p Hp]; [lia|].
    cbn [seq fold_left]. rewrite (restart_at_eq now j s p Hp).
    rewrite (drop_S _ _ _ Hp) in Hall |- *.
    inversion Hall as [|? ? Hplt Hall']; subst.
    match goal with |- context [fold_left _ _ ?s1] => destruct (IH (S j) s1) as [M HM] end.
    + rewrite children_updated, length_insert. lia.
    + rewrite children_updated, heap_updated.
      rewrite drop_insert_lt by lia. rewrite length_app. cbn [length].
      eapply Forall_impl; [exact Hall'|]. intros; cbn in *; lia.
    + exists M. rewrite HM. rewrite updated_updated.
      rewrite !children_updated, !heap_updated, !events_updated.
      rewrite drop_insert_lt by lia.
      f_equal.
      * erewrite take_S_r by (apply list_lookup_insert_eq; lia).
        rewrite take_insert_ge by lia. rewrite length_app. cbn [length].
        rewrite <- app_assoc. cbn [app seq].
        now replace (length (heap s) + 1)%nat with (S (length (heap s))) by lia.
      * rewrite <- app_assoc. cbn [map app]. do 2 f_equal.
        apply map_ext_Forall. eapply Forall_impl; [exact Hall'|].
        intros q Hq. cbn in *. now rewrite deref_app_l.
      * rewrite <- app_assoc. rewrite flat_map_cons_eq. do 2 f_equal.
        apply flat_map_ext_Forall. eapply Forall_impl; [exact Hall'|].
        intros q Hq. rewrite name_of_updated. unfold name_of.
        cbn in *. now rewrite deref_app_l.
Qed.


Lemma find_index_none h nm : ∀ l k,
  Forall (fun q => Name (spec (deref h q)) ≠ nm) l → find_index h nm l k = None.
Proof.
  induction l as [|c l IH]; intros k Hall; [reflexivity|].
  inversion Hall; subst. cbn [find_index]. rewrite decide_False by assumption. auto.
Qed.

(* ===================================================================== *)
(** * The strategies keep the registered records wired                    *)
(* ===================================================================== *)

Lemma wired_in_app_l h news cs : wired_in h cs → wired_in (h ++ news) cs.
Proof.
  unfold wired_in. intros H. eapply Forall_impl; [exact H|].
  intros p [Hlt Hc]. cbn. rewrite length_app, deref_app_l by assumption.
  split; [lia|assumption].
Qed.

Lemma wired_in_fresh h news :
  Forall (fun c => cancel c = true) news →
  wired_in (h ++ news) (seq (length h) (length news)).
Proof.
  intros Hall. unfold wired_in. apply Forall_forall. intros p Hp.
  apply elem_of_seq in Hp as [Hge Hlt].
  replace p with (length h + (p - length h))%nat by lia.
  rewrite deref_app_r, length_app. split; [lia|].
  destruct (lookup_lt_is_Some_2 news (p - length h)%nat) as [c Hc]; [lia|].
  unfold deref. rewrite Hc. cbn.
  rewrite Forall_forall in Hall. apply Hall.
  eapply list_elem_of_lookup_2; exact Hc.
Qed.

Lemma wired_in_stop_heap chs h cs : wired_in h cs → wired_in (stop_heap chs h) cs.
Proof.
  unfold wired_in. intros H. eapply Forall_impl; [exact H|].
  intros p [Hlt Hc]. cbn. rewrite stop_heap_length.
  destruct (stop_heap_fields chs h p) as (_ & -> & _). auto.
Qed.

Lemma replace_by_name_elem h nm new l x :
  x ∈ replace_by_name h nm new l → x ∈ l ∨ x = new.
Proof.
  induction l as [|c l IH]; cbn; [auto|].
  case_decide; intros Hx; apply elem_of_cons in Hx as [->|Hx].
  - auto.
  - left. now apply list_elem_of_further.
  - left. apply list_elem_of_here.
  - destruct (IH Hx) as [Hl| ->]; [left; now apply list_elem_of_further|auto].
Qed.

Lemma restartOne_wired now exit s :
  wired s →
  ∃ cs m h es,
    restartOne now exit s = (updated s cs m h es, None) ∧ wired_in h cs.
Proof.
  intros Hw. unfold restartOne. rewrite newChild_bumped_eq.
  do 4 eexists. split; [reflexivity|].
  cbn [heap with_heap children].
  apply Forall_forall. intros x Hx.
  apply replace_by_name_elem in Hx as [Hx| ->].
  - unfold wired, wired_in in Hw. rewrite Forall_forall in Hw.
    destruct (Hw x Hx) as [Hlt Hc].
    rewrite length_app, deref_app_l by assumption. split; [lia|assumption].
  - rewrite length_app, deref_snoc. cbn. split; [lia|reflexivity].
Qed.

(** The second loop of [restartAll]. *)
Lemma restartAll_create l : ∀ acc s,
  ∃ m news,
    fold_left replace_child l (acc, s)
    = (acc ++ seq (length (heap s)) (length l),
       updated s (children s) m (heap s ++ news) (events s)) ∧
    length news = length l ∧ Forall (fun c => cancel c = true) news.
Proof.
  induction l as [|ch l IH]; intros acc s.
  - exists (childMap s), []. cbn. rewrite !app_nil_r, updated_self. auto.
  - cbn [fold_left]. unfold replace_child at 2. rewrite newChild_bumped_eq.
    match goal with
    | |- context [fold_left _ l (?a, ?s1)] =>
        destruct (IH a s1) as (m & news & Hf & Hlen & Hall)
    end.
    exists m, (bumped (deref (heap s) ch) :: news). rewrite Hf.
    cbn [heap with_heap children events with_children length].
    rewrite length_app. cbn [length seq].
    replace (length (heap s) + 1)%nat with (S (length (heap s))) by lia.
    rewrite <- !app_assoc. cbn [app].
    split; [reflexivity|]. split; [lia|]. constructor; [reflexivity|assumption].
Qed.

(** The third loop of [restartAll] only emits events. *)
Lemma restartAll_start now l : ∀ s,
  ∃ es, fold_left (announce_and_start now) l s = with_events es s.
Proof.
  induction l as [|ch l IH]; intros s.
  - exists (events s). destruct s; reflexivity.
  - cbn [fold_left].
    match goal with
    | |- context [fold_left _ l ?s1] => destruct (IH s1) as [es Hf]
    end.
    exists es. rewrite Hf. reflexivity.
Qed.

Lemma restartAll_wired now s :
  wired s →
  ∃ cs m h es,
    restartAll now s = Some (updated s cs m h es, None) ∧ wired_in h cs.
Proof.
  intros Hw. unfold restartAll.
  rewrite stop_each_eq
    by (eapply Forall_impl; [exact Hw|]; intros q [_ Hq]; exact Hq).
  cbn [mbind option_bind].
  destruct (restartAll_create (children s) []
              (with_heap (stop_heap (children s) (heap s)) s))
    as (m & news & Hc & Hlen & Hall).
  cbn [children with_heap] in Hc |- *. rewrite Hc. clear Hc.
  match goal with
  | |- context [fold_left _ ?l ?s1] => destruct (restartAll_start now l s1) as [es ->]
  end.
  do 4 eexists. split; [reflexivity|].
  cbn [heap with_heap updated with_events with_children app].
  rewrite <- Hlen. now apply wired_in_fresh.
Qed.

Lemma find_index_lt h nm : ∀ l k n,
  find_index h nm l k = Some n → (k ≤ n < k + length l)%nat.
Proof.
  induction l as [|c l IH]; intros k n; cbn; [discriminate|].
  case_decide.
  - intros [= <-]. lia.
  - intros Hn. apply IH in Hn. lia.
Qed.

Lemma restartRestForOne_wired now exit s :
  wired s →
  ∃ cs m h es,
    restartRestForOne now exit s = Some (updated s cs m h es, None) ∧ wired_in h cs.
Proof.
  intros Hw. unfold restartRestForOne.
  destruct (find_index _ _ _ _) as [i|] eqn:Hfi.
  - apply find_index_lt in Hfi.
    rewrite stop_each_eq
      by (apply Forall_drop; eapply Forall_impl; [exact Hw|];
          intros q [_ Hq]; exact Hq).
    cbn [mbind option_bind].
    set (h1 := stop_heap (drop i (children s)) (heap s)).
    assert (wired_in h1 (children s)) as Hw1 by now apply wired_in_stop_heap.
    destruct (restart_loop now (length (children s) - i) i (with_heap h1 s))
      as [M HM]; [cbn; lia| |].
    { cbn. apply Forall_drop. eapply Forall_impl; [exact Hw1|].
      intros q [Hq _]; exact Hq. }
    change (children (with_heap h1 s)) with (children s) in HM |- *.
    rewrite HM. clear HM.
    do 4 eexists. split; [reflexivity|].
    change (heap (with_heap h1 s)) with h1.
    apply Forall_app. split.
    + apply wired_in_app_l. apply Forall_take. exact Hw1.
    + replace (length (children s) - i)%nat
        with (length (map (fun p => bumped (deref h1 p)) (drop i (children s))))
        by (rewrite length_map, length_drop; reflexivity).
      apply wired_in_fresh. apply Forall_forall. intros c Hc.
      apply list_elem_of_fmap in Hc as (q & -> & _). reflexivity.
  - exists (children s), (childMap s), (heap s), (events s).
    rewrite updated_self. split; [reflexivity|exact Hw].
Qed.

Lemma executeStrategy_wired now exit s :
  wired s → valid_strategy s →
  ∃ cs m h es,
    executeStrategy now exit s = Some (updated s cs m h es, None) ∧ wired_in h cs.
Proof.
  intros Hw Hv. unfold executeStrategy.
  destruct (restartOne_wired now exit s Hw) as (cs & m & h & es & H1 & Hw1).
  repeat case_decide.
  - rewrite H1. eauto 10.
  - now apply restartAll_wired.
  - now apply restartRestForOne_wired.
  - rewrite H1. eauto 10.
  - unfold valid_strategy in Hv. intuition congruence.
Qed.

(** The only error a strategy returns is the one for an unknown strategy. *)
Lemma executeStrategy_error now exit s s' e :
  executeStrategy now exit s = Some (s', Some e) → e = ErrUnknownStrategy (strategy s).
Proof.
  unfold executeStrategy, restartOne, restartAll, restartRestForOne, startChild.
  repeat case_decide; intros Hex.
  - destruct (newChild_bumped _ _). congruence.
  - destruct (stop_each _ _); cbn in Hex; [|discriminate].
    destruct (fold_left replace_child _ _). congruence.
  - destruct (find_index _ _ _ _); [|congruence].
    destruct (stop_each _ _); cbn in Hex; congruence.
  - destruct (newChild_bumped _ _). congruence.
  - congruence.
Qed.

(* ===================================================================== *)
(** * binary64 arithmetic that stays finite                               *)
(* ===================================================================== *)

Section Binary64.

Lemma digits2_pos_bound p : Z.pos p < 2 ^ Z.pos (digits2_pos p).
Proof.
  induction p as [p IH|p IH|]; cbn [digits2_pos].
  - rewrite Pos2Z.inj_succ, Z.pow_succ_r by lia. lia.
  - rewrite Pos2Z.inj_succ, Z.pow_succ_r by lia. lia.
  - reflexivity.
Qed.

Lemma digits2_pos_le p : ∀ k, 0 <= k → Z.pos p < 2 ^ k → Z.pos (digits2_pos p) <= k.
Proof.
  induction p as [p IH|p IH|]; intros k Hk Hp; cbn [digits2_pos].
  - assert (k ≠ 0) by (intros ->; cbn in Hp; lia).
    replace k with (Z.succ (k - 1)) in Hp by lia.
    rewrite Z.pow_succ_r in Hp by lia.
    specialize (IH (k - 1)). rewrite Pos2Z.inj_succ. lia.
  - assert (k ≠ 0) by (intros ->; cbn in Hp; lia).
    replace k with (Z.succ (k - 1)) in Hp by lia.
    rewrite Z.pow_succ_r in Hp by lia.
    specialize (IH (k - 1)). rewrite Pos2Z.inj_succ. lia.
  - assert (k ≠ 0) by (intros ->; cbn in Hp; lia). cbn. lia.
Qed.



Lemma Zdigits2_le z k : 0 <= z → 0 <= k → z < 2 ^ k → Zdigits2 z <= k.
Proof.
  destruct z as [|p|p]; intros Hz Hk Hlt; cbn; [assumption| |lia].
  now apply digits2_pos_le.
Qed.


(** Shifting right. *)
Lemma shr_1_m mrs : 0 <= shr_m mrs → shr_m (shr_1 mrs) = shr_m mrs / 2.
Proof.
  destruct mrs as [m r s]. cbn [shr_m].
  destruct m as [|[p|p|]|p]; intros Hm; cbn [shr_1 shr_m].
  - reflexivity.
  - rewrite Pos2Z.inj_xI. apply Z.div_unique with 1; lia.
  - rewrite Pos2Z.inj_xO. apply Z.div_unique with 0; lia.
  - reflexivity.
  - lia.
Qed.

Lemma pow2_xO p : 2 ^ Z.pos p~0 = 2 ^ Z.pos p * 2 ^ Z.pos p.
Proof. rewrite <- Z.pow_add_r by lia. f_equal. lia. Qed.

Lemma pow2_xI p : 2 ^ Z.pos p~1 = 2 * (2 ^ Z.pos p * 2 ^ Z.pos p).
Proof.
  rewrite <- Z.pow_add_r by lia. rewrite <- Z.pow_succ_r by lia. f_equal. lia.
Qed.

Lemma iter_pos_shr_m p : ∀ mrs,
  0 <= shr_m mrs →
  0 <= shr_m (SpecFloat.iter_pos shr_1 p mrs) ∧
  shr_m (SpecFloat.iter_pos shr_1 p mrs) = shr_m mrs / 2 ^ Z.pos p.
Proof.
  assert (∀ a b, 0 <= a → 0 < b → 0 <= a / b) as Hdiv
    by (intros; apply Z.div_pos; lia).
  induction p as [p IH|p IH|]; intros mrs Hm; cbn [SpecFloat.iter_pos].
  - assert (0 <= shr_m (shr_1 mrs)) as H1
      by (rewrite shr_1_m by assumption; apply Hdiv; lia).
    destruct (IH _ H1) as [H2 E2]. destruct (IH _ H2) as [H3 E3].
    split; [assumption|].
    rewrite E3, E2, shr_1_m by assumption.
    rewrite !Z.div_div by lia. now rewrite pow2_xI, Z.mul_assoc.
  - destruct (IH _ Hm) as [H2 E2]. destruct (IH _ H2) as [H3 E3].
    split; [assumption|].
    rewrite E3, E2. rewrite Z.div_div by lia. now rewrite pow2_xO.
  - rewrite shr_1_m by assumption. split; [apply Hdiv; lia|reflexivity].
Qed.

Lemma shr_spec mrs e n :
  0 <= shr_m mrs →
  shr_m (fst (shr mrs e n)) = shr_m mrs / 2 ^ Z.max 0 n ∧
  snd (shr mrs e n) = e + Z.max 0 n.
Proof.
  intros Hm. destruct n as [|p|p]; cbn [shr fst snd].
  - rewrite Z.max_l, Z.pow_0_r, Z.div_1_r by lia. lia.
  - rewrite Z.max_r by lia. split; [now apply iter_pos_shr_m|reflexivity].
  - rewrite Z.max_l, Z.pow_0_r, Z.div_1_r by lia. lia.
Qed.

Lemma shr_record_of_loc_m m l : shr_m (shr_record_of_loc m l) = m.
Proof. destruct l as [|[]]; reflexivity. Qed.

Lemma shr_fexp_spec m e l :
  0 <= m →
  shr_m (fst (shr_fexp 53 1024 m e l))
    = m / 2 ^ Z.max 0 (fexp 53 1024 (Zdigits2 m + e) - e) ∧
  snd (shr_fexp 53 1024 m e l)
    = e + Z.max 0 (fexp 53 1024 (Zdigits2 m + e) - e).
Proof.
  intros Hm. unfold shr_fexp.
  destruct (shr_spec (shr_record_of_loc m l) e
              (fexp 53 1024 (Zdigits2 m + e) - e)) as [H1 H2].
  - now rewrite shr_record_of_loc_m.
  - rewrite shr_record_of_loc_m in H1. auto.
Qed.





Lemma pos_iter_xO k : ∀ m, Z.pos (Pos.iter xO m k) = Z.pos m * 2 ^ Z.pos k.
Proof.
  induction k as [|k IH] using Pos.peano_ind; intros m.
  - cbn. lia.
  - rewrite Pos.iter_succ, Pos2Z.inj_xO, IH, Pos2Z.inj_succ, Z.pow_succ_r by lia. lia.
Qed.

Lemma shl_align_spec mx ex ex' :
  snd (shl_align mx ex ex') <= ex ∧
  Z.pos (fst (shl_align mx ex ex'))
    = Z.pos mx * 2 ^ (ex - snd (shl_align mx ex ex')) ∧
  (ex' <= ex → snd (shl_align mx ex ex') = ex').
Proof.
  unfold shl_align. destruct (ex' - ex) as [|d|d] eqn:Hd; cbn [fst snd].
  - rewrite Z.sub_diag. cbn. lia.
  - rewrite Z.sub_diag. cbn. lia.
  - rewrite pos_iter_xO. replace (ex - ex') with (Z.pos d) by lia. lia.
Qed.











End Binary64.

(* ===================================================================== *)
(** * backoff.go: the jitter policy                                       *)
(* ===================================================================== *)










Section Jitter.
Context {P : Platform}.




End Jitter.

(* ===================================================================== *)
(** * Exit processing: the restart decision                               *)
(* ===================================================================== *)

Section RestartDecision.
Context {P : Platform}.

Lemma handleChildExit_no_restart now rnd exit s :
  shouldRestart s exit = false →
  handleChildExit now rnd exit s = Some (emitEvent (exit_event now s exit) s, None).
Proof.
  intros H. unfold handleChildExit.
  replace (shouldRestart (emitEvent (exit_event now s exit) s) exit)
    with (shouldRestart s exit) by reflexivity.
  now rewrite H.
Qed.

(** C10. An exit whose child has a restart type outside Permanent,
    Transient and Temporary is not restarted, and the whole exit is
    handled as the exit of a Temporary child is: the exit event is
    emitted, nothing else changes, and the loop goes on. *)
Theorem undefined_restart_type_is_temporary now rnd s exit exit_t :
  Restart (spec (deref (heap s) (exit_child exit))) ≠ Permanent →
  Restart (spec (deref (heap s) (exit_child exit))) ≠ Transient →
  Restart (spec (deref (heap s) (exit_child exit))) ≠ Temporary →
  Restart (spec (deref (heap s) (exit_child exit_t))) = Temporary →
  shouldRestart s exit = false ∧
  shouldRestart s exit_t = false ∧
  handleChildExit now rnd exit s
    = Some (emitEvent (exit_event now s exit) s, None) ∧
  handleChildExit now rnd exit_t s
    = Some (emitEvent (exit_event now s exit_t) s, None).
Proof.
  intros Hp Ht Hm Htmp.
  assert (shouldRestart s exit = false) as H1.
  { unfold shouldRestart. repeat case_decide; congruence. }
  assert (shouldRestart s exit_t = false) as H2.
  { unfold shouldRestart. rewrite Htmp. reflexivity. }
  auto using handleChildExit_no_restart.
Qed.

End RestartDecision.

Lemma undefined_restart_type_is_temporary_witness :
  shouldRestart odd_and_temporary (returned 0%nat) = false ∧
  shouldRestart odd_and_temporary (failed 1%nat) = false ∧
  handleChildExit (P := amd64) 5 [] (returned 0%nat) odd_and_temporary
    = Some (emitEvent (exit_event 5 odd_and_temporary (returned 0%nat))
                      odd_and_temporary, None) ∧
  handleChildExit (P := amd64) 5 [] (failed 1%nat) odd_and_temporary
    = Some (emitEvent (exit_event 5 odd_and_temporary (failed 1%nat))
                      odd_and_temporary, None).
Proof.
  apply (undefined_restart_type_is_temporary (P := amd64) 5 [] odd_and_temporary
           (returned 0%nat) (failed 1%nat));
    vm_compute; congruence.
Defined.


(* ===================================================================== *)
(** * The exit of a removed child                                         *)
(* ===================================================================== *)

Section RemovedChild.
Context {P : Platform}.

(** C1. The exit of a child that [RemoveChild] has unregistered is not
    ignored by the code. For a permanent child under OneForOne the exit
    adds an entry to the restart history, a replacement record is entered
    in the Name index under the removed name, and ChildRestarted and
    ChildStarted follow ChildExited. Under RestForOne the guard on the
    failed index leaves sequence, index and events alone, but the restart
    decision has been taken and the history has its new entry all the
    same. *)
Theorem exit_of_removed_child_restarts_it :
  (∃ s s',
      after_remove OneForOne = Some s ∧
      children s = [] ∧ childMap s = ∅ ∧ restartHistory s = [] ∧
      handleChildExit 3 [] (returned 0%nat) s = Some (s', None) ∧
      restartHistory s' = [3] ∧
      children s' = [] ∧
      childMap s' !! "w" = Some 1%nat ∧
      map EType (events s')
        = map EType (events s) ++ [ChildExited; ChildRestarted; ChildStarted]) ∧
  (∃ s s',
      after_remove RestForOne = Some s ∧
      children s = [] ∧ childMap s = ∅ ∧ restartHistory s = [] ∧
      handleChildExit 3 [] (returned 0%nat) s = Some (s', None) ∧
      restartHistory s' = [3] ∧
      children s' = [] ∧ childMap s' = ∅ ∧
      map EType (events s') = map EType (events s) ++ [ChildExited]).
Proof.
  split.
  - eexists. eexists.
    split; [vm_compute; reflexivity|].
    do 3 (split; [reflexivity|]).
    split; [vm_compute; reflexivity|].
    repeat split; vm_compute; reflexivity.
  - eexists. eexists.
    split; [vm_compute; reflexivity|].
    do 3 (split; [reflexivity|]).
    split; [vm_compute; reflexivity|].
    repeat split; vm_compute; reflexivity.
Qed.

(** C5. The same run breaks the agreement of the children sequence and
    the Name index: they agree after the removal, and after the exit of
    the removed child the index holds a record the sequence does not; a
    later [AddChild] under the removed name is refused. *)
Theorem exit_of_removed_child_breaks_consistency :
  ∃ s s',
    after_remove OneForOne = Some s ∧
    consistent s ∧
    handleChildExit 3 [] (returned 0%nat) s = Some (s', None) ∧
    ¬ consistent s' ∧
    AddChild 4 worker s' = Some (s', Returns (Some ErrChildAlreadyExists)).
Proof.
  eexists. eexists.
  split; [vm_compute; reflexivity|].
  split.
  { intros nm p.
    match goal with
    | |- childMap ?s !! _ = _ ↔ _ ∈ children ?s ∧ _ =>
        change (childMap s) with (∅ : gmap string ptr);
        change (children s) with (@nil ptr)
    end.
    rewrite lookup_empty. split; [discriminate|].
    intros [H _]. inversion H. }
  split; [vm_compute; reflexivity|].
  split; [|vm_compute; reflexivity].
  intros H. destruct (H "w" 1%nat) as [H1 _].
  destruct H1 as [H1 _]; [vm_compute; reflexivity|].
  cbn in H1. inversion H1.
Qed.
End RemovedChild.

(* ===================================================================== *)
(** * Manual restart                                                      *)
(* ===================================================================== *)

Section ManualRestart.
Context {P : Platform}.

(** C2. [RestartChild] does not carry the restart count over. In every
    state the record [doRestartChild] installs has count 0, where the
    record [restartOne] installs has the old count plus one; so a slot that
    the strategy has restarted once (count 1) holds, after a manual
    restart, a record with count 0, not 2. *)
Theorem manual_restart_resets_restartCount :
  (∀ now nm s ch,
      childMap s !! nm = Some ch → cancel (deref (heap s) ch) = true →
      ∃ s', doRestartChild now nm s = Some (s', None) ∧
            childMap s' !! nm = Some (length (heap s)) ∧
            deref (heap s') (length (heap s))
              = {| spec := spec (deref (heap s) ch); cancel := true; exits := true;
                   restartCount := 0; stopped := false |}) ∧
  (∀ now exit s,
      childMap (fst (restartOne now exit s))
        !! Name (spec (deref (heap s) (exit_child exit)))
        = Some (length (heap s)) ∧
      deref (heap (fst (restartOne now exit s))) (length (heap s))
        = bumped (deref (heap s) (exit_child exit))) ∧
  (∃ s s' p p',
      after_one_failure = Some s ∧
      childMap s !! "w" = Some p ∧ children s = [p] ∧
      restartCount (deref (heap s) p) = 1 ∧
      RestartChild 3 "w" s = Some (s', Returns None) ∧
      childMap s' !! "w" = Some p' ∧ children s' = [p'] ∧
      spec (deref (heap s') p') = spec (deref (heap s) p) ∧
      restartCount (deref (heap s') p') = 0).
Proof.
  split; [|split].
  - intros now nm s ch Hm Hc. unfold doRestartChild, stop. rewrite Hm, Hc.
    cbn [mbind option_bind newChild]. eexists. split; [reflexivity|].
    cbn. rewrite length_insert, lookup_insert_eq. split; [reflexivity|].
    rewrite <- (length_insert (heap s) ch (set_stopped (deref (heap s) ch))) at 1.
    rewrite deref_snoc. f_equal.
    destruct (decide (ch < length (heap s))%nat).
    + now rewrite deref_insert_eq.
    + now rewrite list_insert_ge by lia.
  - intros now exit s. unfold restartOne. rewrite newChild_bumped_eq. cbn.
    rewrite lookup_insert_eq, deref_snoc. auto.
  - eexists. eexists. eexists. eexists.
    split; [vm_compute; reflexivity|].
    split; [vm_compute; reflexivity|].
    split; [reflexivity|].
    split; [reflexivity|].
    split; [vm_compute; reflexivity|].
    split; [vm_compute; reflexivity|].
    repeat split; reflexivity.
Qed.
End ManualRestart.

(* ===================================================================== *)
(** * The stopped flag                                                    *)
(* ===================================================================== *)

Section Stopped.
Context {P : Platform}.

(** C3. What the public operations return on a stopped supervisor.
    After an explicit [Stop] the flag [stopped] is still false and [Start]
    returns nil. After a fatal intensity error the flag is set and
    [Start] returns ErrSupervisorStopped, but the loop has returned and
    [AddChild], [RemoveChild] and [RestartChild] never get a reply. The
    remove and restart handlers themselves do not look at the flag. *)
Theorem stopped_supervisor_operations :
  (∃ s, Stop 1 (New OneForOne []) = Some (s, None) ∧
        done s = true ∧ s_stopped s = false ∧ snd (Start 2 s) = None) ∧
  (∃ s, after_fatal = Some s ∧
        s_stopped s = true ∧ finalErr s = Some ErrIntensityExceeded ∧
        done s = true ∧
        snd (Start 3 s) = Some ErrSupervisorStopped ∧
        AddChild 3 temporary_child s = Some (s, Blocks) ∧
        RemoveChild 3 "w" s = Some (s, Blocks) ∧
        RestartChild 3 "w" s = Some (s, Blocks)) ∧
  (∀ s nm ch,
      s_stopped s = true → childMap s !! nm = Some ch →
      cancel (deref (heap s) ch) = true →
      (∃ s', doRemoveChild nm s = Some (s', None)) ∧
      (∀ now, ∃ s', doRestartChild now nm s = Some (s', None))).
Proof.
  split; [|split].
  - eexists. split; [vm_compute; reflexivity|]. repeat split; reflexivity.
  - eexists. split; [vm_compute; reflexivity|]. repeat split; reflexivity.
  - intros s nm ch _ Hm Hc. split.
    + unfold doRemoveChild, stop. rewrite Hm, Hc. cbn. eauto.
    + intros now. unfold doRestartChild, stop. rewrite Hm, Hc. cbn. eauto.
Qed.
End Stopped.

(* ===================================================================== *)
(** * The intensity check                                                 *)
(* ===================================================================== *)

Section Pruning.
Implicit Types (h : list Time) (cutoff t : Time).

Lemma find_start_shift cutoff h i :
  Exists (fun t => cutoff < t) h →
  find_start cutoff h i = (i + find_start cutoff h 0)%nat.
Proof.
  revert i. induction h as [|t h IH]; intros i Hex.
  - inversion Hex.
  - cbn [find_start]. destruct (cutoff <? t) eqn:Ht; [lia|].
    apply Z.ltb_ge in Ht.
    inversion Hex as [? ? Hlt|? ? Hex']; subst; [lia|].
    rewrite (IH (S i) Hex'), (IH 1%nat Hex'). lia.
Qed.

Lemma find_start_none cutoff h i :
  Forall (fun t => t <= cutoff) h → find_start cutoff h i = 0%nat.
Proof.
  revert i. induction h as [|t h IH]; intros i Hall; [reflexivity|].
  inversion Hall; subst. cbn [find_start].
  destruct (cutoff <? t) eqn:Ht; [apply Z.ltb_lt in Ht; lia|]. auto.
Qed.

Lemma filter_all_later cutoff h :
  Forall (fun t => cutoff < t) h → filter (fun t => cutoff < t) h = h.
Proof.
  induction 1 as [|t h Ht _ IH]; [reflexivity|].
  rewrite filter_cons_True by assumption. now rewrite IH.
Qed.

(** On a sorted history that has an entry after the cutoff, cutting at the
    first such entry removes exactly the entries at or before the cutoff. *)
Lemma drop_find_start_sorted cutoff h :
  StronglySorted Z.le h → Exists (fun t => cutoff < t) h →
  drop (find_start cutoff h 0) h = filter (fun t => cutoff < t) h.
Proof.
  induction 1 as [|t h Hs IH Hall]; intros Hex; [inversion Hex|].
  cbn [find_start]. destruct (cutoff <? t) eqn:Ht.
  - apply Z.ltb_lt in Ht. cbn [drop]. symmetry. apply filter_all_later.
    constructor; [assumption|].
    eapply Forall_impl; [exact Hall|]. intros; cbn in *; lia.
  - apply Z.ltb_ge in Ht.
    inversion Hex as [? ? Hlt|? ? Hex']; subst; [lia|].
    rewrite (find_start_shift _ _ 1%nat Hex'). cbn [Nat.add drop].
    rewrite filter_cons_False by lia. auto.
Qed.

Lemma StronglySorted_snoc h t :
  StronglySorted Z.le h → Forall (fun x => x <= t) h → StronglySorted Z.le (h ++ [t]).
Proof.
  induction 1 as [|x h Hs IH Hall]; intros Hle; cbn.
  - repeat constructor.
  - inversion Hle; subst. constructor; [auto|].
    apply Forall_app. split; [assumption|]. repeat constructor. assumption.
Qed.

Lemma StronglySorted_filter (Q : Time → Prop) `{∀ t, Decision (Q t)} h :
  StronglySorted Z.le h → StronglySorted Z.le (filter Q h).
Proof.
  induction 1 as [|x h Hs IH Hall]; [constructor|].
  destruct (decide (Q x)).
  - rewrite filter_cons_True by assumption. constructor; [assumption|].
    apply Forall_forall. intros y Hy. apply list_elem_of_filter in Hy as [_ Hy].
    rewrite Forall_forall in Hall. auto.
  - rewrite filter_cons_False by assumption. assumption.
Qed.
End Pruning.

(** With a positive window and a history left by a monotonic clock, the
    check retains exactly the entries later than [now - restartWindow]. *)
Lemma checkRestartIntensity_prunes now s :
  0 < restartWindow s → monotone_history now s →
  checkRestartIntensity now s
    = (with_restartHistory (retained now (restartWindow s) (restartHistory s)) s,
       Z.of_nat (length (retained now (restartWindow s) (restartHistory s)))
         <=? maxRestarts s).
Proof.
  intros Hw [Hs Hle]. unfold checkRestartIntensity, retained.
  rewrite drop_find_start_sorted; [reflexivity| |].
  - now apply StronglySorted_snoc.
  - apply Exists_app. right. constructor. lia.
Qed.

(** C7. With a positive restart window and timestamps read from a
    monotonic clock, the history left by the intensity check holds only
    timestamps later than [now - restartWindow] and not later than [now]:
    the older entries, and only they, have been pruned. The history is
    again in the order of the clock, so the same holds after the next
    check at any later reading. *)
Theorem restartHistory_within_window now s :
  0 < restartWindow s → monotone_history now s →
  Forall (in_window now (restartWindow s))
         (restartHistory (fst (checkRestartIntensity now s))) ∧
  restartHistory (fst (checkRestartIntensity now s))
    = retained now (restartWindow s) (restartHistory s) ∧
  (∀ later, now <= later →
            monotone_history later (fst (checkRestartIntensity now s))).
Proof.
  intros Hw Hm. rewrite (checkRestartIntensity_prunes now s Hw Hm). cbn.
  destruct Hm as [Hs Hle].
  assert (Forall (fun t => t <= now) (restartHistory s ++ [now])) as Hle'.
  { apply Forall_app. split; [assumption|]. repeat constructor. lia. }
  split; [|split; [reflexivity|]].
  - apply Forall_forall. intros t Ht. unfold retained in Ht.
    apply list_elem_of_filter in Ht as [Hlt Hin].
    rewrite Forall_forall in Hle'. split; [assumption|auto].
  - intros later Hlater. split; cbn.
    + unfold retained. apply StronglySorted_filter.
      now apply StronglySorted_snoc.
    + apply Forall_forall. intros t Ht. unfold retained in Ht.
      apply list_elem_of_filter in Ht as [_ Hin].
      rewrite Forall_forall in Hle'. specialize (Hle' t Hin). lia.
Qed.

(* ===================================================================== *)
(** * RestForOne                                                          *)
(* ===================================================================== *)




(* ===================================================================== *)
(** * The intensity limit                                                 *)
(* ===================================================================== *)

Lemma restartHistory_within_window_witness :
  Forall (in_window (150 * Millisecond) (restartWindow two_restarts))
         (restartHistory (fst (checkRestartIntensity (150 * Millisecond) two_restarts))) ∧
  restartHistory (fst (checkRestartIntensity (150 * Millisecond) two_restarts))
    = [150 * Millisecond].
Proof.
  destruct (restartHistory_within_window (150 * Millisecond) two_restarts)
    as (Hin & Heq & _).
  - vm_compute. reflexivity.
  - split; repeat constructor; vm_compute; congruence.
  - split; [exact Hin|]. rewrite Heq. reflexivity.
Defined.

Section Intensity.
Context {P : Platform}.

Lemma checkRestartIntensity_emit now e s :
  checkRestartIntensity now (emitEvent e s)
    = (emitEvent e (fst (checkRestartIntensity now s)),
       snd (checkRestartIntensity now s)).
Proof. reflexivity. Qed.

Lemma handleChildExit_fatal now rnd exit s :
  shouldRestart s exit = true →
  snd (checkRestartIntensity now s) = false →
  handleChildExit now rnd exit s
    = Some (emitEvent (intensity_event now (name_of s (exit_child exit)))
              (emitEvent (exit_event now s exit) (fst (checkRestartIntensity now s))),
            Some ErrIntensityExceeded).
Proof.
  intros Hr Hok. unfold handleChildExit.
  replace (shouldRestart (emitEvent (exit_event now s exit) s) exit)
    with (shouldRestart s exit) by reflexivity.
  rewrite Hr, checkRestartIntensity_emit, Hok. reflexivity.
Qed.

Lemma handleChildExit_restart now rnd exit s :
  shouldRestart s exit = true →
  snd (checkRestartIntensity now s) = true →
  ∃ now',
    handleChildExit now rnd exit s
      = executeStrategy now' exit
          (emitEvent (exit_event now s exit) (fst (checkRestartIntensity now s))).
Proof.
  intros Hr Hok. unfold handleChildExit.
  replace (shouldRestart (emitEvent (exit_event now s exit) s) exit)
    with (shouldRestart s exit) by reflexivity.
  rewrite Hr, checkRestartIntensity_emit, Hok. cbn [negb]. eauto.
Qed.

(** When every entry, and [now] itself, is later than the cutoff, the check
    keeps the whole history. *)
Lemma checkRestartIntensity_keeps_all now s :
  Forall (fun t => now - restartWindow s < t) (restartHistory s ++ [now]) →
  checkRestartIntensity now s
    = (with_restartHistory (restartHistory s ++ [now]) s,
       Z.of_nat (length (restartHistory s ++ [now])) <=? maxRestarts s).
Proof.
  intros Hall. unfold checkRestartIntensity. cbv zeta.
  assert (find_start (now - restartWindow s) (restartHistory s ++ [now]) 0 = 0%nat)
    as ->; [|reflexivity].
  destruct (restartHistory s ++ [now]) as [|t h]; [reflexivity|].
  inversion Hall as [|? ? Ht _]; subst. cbn.
  now rewrite (proj2 (Z.ltb_lt _ _) Ht).
Qed.

Lemma run_app ins1 ins2 s :
  run (ins1 ++ ins2) s = s1 ← run ins1 s; run ins2 s1.
Proof.
  revert s. induction ins1 as [|[[now rnd] i] ins1 IH]; intros s; [reflexivity|].
  cbn [app run]. destruct (run_step now rnd i s) as [[s1 r]|]; [|reflexivity].
  cbn. apply IH.
Qed.

Lemma receptions_app es1 es2 :
  receptions (es1 ++ es2) = receptions es1 ++ receptions es2.
Proof. apply map_app. Qed.

Lemma times_app es1 es2 : times (es1 ++ es2) = times es1 ++ times es2.
Proof. apply map_app. Qed.

Lemma warranted_app es1 es2 s :
  warranted (es1 ++ es2) s →
  warranted es1 s ∧
  ∀ s1, run (receptions es1) s = Some s1 → warranted es2 s1.
Proof.
  revert s. induction es1 as [|[[now rnd] e] es1 IH]; intros s Hw.
  - cbn. split; [exact I|]. now intros s1 [= <-].
  - cbn [app warranted] in Hw. destruct Hw as [Hr Hnext]. split.
    + cbn [warranted]. split; [assumption|].
      intros s' r Hs. exact (proj1 (IH s' (Hnext s' r Hs))).
    + intros s1. cbn [receptions map run].
      destruct (run_step now rnd (recvExit e) s) as [[s' r]|] eqn:Hs; [|discriminate].
      cbn. intros Hrun. exact (proj2 (IH s' (Hnext s' r eq_refl)) s1 Hrun).
Qed.

(** A restart within the budget: the loop goes on, with the new entry in
    the history. *)
Lemma run_step_within_budget now rnd e s :
  wired s → valid_strategy s → done s = false →
  shouldRestart s e = true →
  Forall (fun t => now - restartWindow s < t) (restartHistory s ++ [now]) →
  Z.of_nat (length (restartHistory s) + 1) <= maxRestarts s →
  ∃ cs m h es,
    run_step now rnd (recvExit e) s
      = Some (updated (with_restartHistory (restartHistory s ++ [now]) s) cs m h es,
              None) ∧
    wired_in h cs.
Proof.
  intros Hw Hv Hd Hr Hall Hlen.
  destruct (handleChildExit_restart now rnd e s Hr) as [now' Hh].
  { rewrite checkRestartIntensity_keeps_all by assumption. cbn.
    apply Z.leb_le. rewrite length_app. cbn. lia. }
  unfold run_step. rewrite Hd, Hh.
  rewrite checkRestartIntensity_keeps_all by assumption. cbn [fst].
  match goal with
  | |- context [executeStrategy now' e ?s1] =>
      destruct (executeStrategy_wired now' e s1) as (cs & m & h & es & Hx & Hw')
  end; [exact Hw|exact Hv|].
  rewrite Hx. cbn. exists cs, m, h, es. split; [reflexivity|assumption].
Qed.

Lemma run_within_budget es : ∀ s,
  wired s → valid_strategy s → done s = false →
  (∀ t t', t ∈ restartHistory s ++ times es → t' ∈ times es →
           t' - restartWindow s < t) →
  Z.of_nat (length (restartHistory s) + length es) <= maxRestarts s →
  warranted es s →
  ∃ s1,
    run (receptions es) s = Some s1 ∧
    wired s1 ∧ valid_strategy s1 ∧ done s1 = false ∧
    s_stopped s1 = s_stopped s ∧ finalErr s1 = finalErr s ∧
    restartHistory s1 = restartHistory s ++ times es ∧
    maxRestarts s1 = maxRestarts s ∧ restartWindow s1 = restartWindow s.
Proof.
  induction es as [|[[now rnd] e] es IH]; intros s Hw Hv Hd Hwin Hlen Hwar.
  - exists s. cbn. rewrite app_nil_r. auto 10.
  - cbn [warranted] in Hwar. destruct Hwar as [Hr Hnext].
    cbn [times map fst] in Hwin. fold (times es) in Hwin.
    destruct (run_step_within_budget now rnd e s Hw Hv Hd Hr)
      as (cs & m & h & evs & Hstep & Hw').
    { apply Forall_forall. intros t Ht. apply (Hwin t now).
      - apply elem_of_app in Ht as [Ht|Ht%list_elem_of_singleton].
        + apply elem_of_app. now left.
        + subst. apply elem_of_app. right. apply list_elem_of_here.
      - apply list_elem_of_here. }
    { cbn [length] in Hlen. lia. }
    cbn [receptions map run]. rewrite Hstep. cbn [mbind option_bind].
    set (s1 := updated _ cs m h evs) in *.
    assert (wired s1) as Hw1 by exact Hw'.
    assert (valid_strategy s1) as Hv1 by exact Hv.
    assert (done s1 = false) as Hd1 by exact Hd.
    assert (∀ t t', t ∈ restartHistory s1 ++ times es → t' ∈ times es →
                    t' - restartWindow s1 < t) as Hwin1.
    { subst s1. cbn. intros t t' Ht Ht'. apply (Hwin t t').
      - rewrite <- app_assoc in Ht. exact Ht.
      - now apply list_elem_of_further. }
    assert (Z.of_nat (length (restartHistory s1) + length es) <= maxRestarts s1)
      as Hlen1.
    { subst s1. cbn. rewrite length_app. cbn [length] in *. lia. }
    destruct (IH s1 Hw1 Hv1 Hd1 Hwin1 Hlen1 (Hnext s1 None Hstep))
      as (s2 & Hrun & ? & ? & ? & ? & ? & Hh & ? & ?).
    exists s2. split; [exact Hrun|].
    subst s1. cbn in Hh |- *. rewrite Hh, <- app_assoc.
    repeat split; assumption.
Qed.
Lemma run_step_fatal now rnd e s :
  wired s → done s = false →
  shouldRestart s e = true →
  snd (checkRestartIntensity now s) = false →
  ∃ s2,
    run_step now rnd (recvExit e) s = Some (s2, None) ∧
    done s2 = true ∧ s_stopped s2 = true ∧
    finalErr s2 = Some ErrIntensityExceeded ∧
    restartHistory s2 = restartHistory (fst (checkRestartIntensity now s)) ∧
    events s2 = events s ++ [exit_event now s e;
                             intensity_event now (name_of s (exit_child e))].
Proof.
  intros Hw Hd Hr Hok. unfold run_step. rewrite Hd.
  rewrite (handleChildExit_fatal now rnd e s Hr Hok). cbn [mbind option_bind].
  unfold run_return, shutdownChildren.
  rewrite stop_each_eq
    by (eapply Forall_impl; [exact Hw|]; intros q [_ Hq]; exact Hq).
  cbn [mbind option_bind]. eexists. split; [reflexivity|].
  cbn. rewrite <- app_assoc. auto.
Qed.

(** Where the window is positive the check is the one described: for a
    history left by a monotonic clock, the intensity check of a
    restart-warranting exit appends the current time, prunes the entries at
    or before [now - restartWindow], and the exit is fatal, with
    SupervisorFailedIntensity as the last event and ErrIntensityExceeded as
    the error, exactly when the retained count exceeds [maxRestarts].
    With [maxRestarts = k] and k+1 restart-warranting exits that all lie
    within one window, the loop is still running after each of the first k
    of them, with their times in the history, and returns on the last: the
    supervisor is stopped and [Wait] returns ErrIntensityExceeded. *)
Lemma intensity_limit_positive_window :
  (∀ now rnd exit s,
      0 < restartWindow s → monotone_history now s →
      shouldRestart s exit = true →
      intensity_check_as_specified now s ∧
      ((∃ s', handleChildExit now rnd exit s = Some (s', Some ErrIntensityExceeded))
       ↔ maxRestarts s
           < Z.of_nat (length (retained now (restartWindow s) (restartHistory s)))) ∧
      (∀ s', handleChildExit now rnd exit s = Some (s', Some ErrIntensityExceeded) →
             restartHistory s' = retained now (restartWindow s) (restartHistory s) ∧
             last (events s')
               = Some (intensity_event now (name_of s (exit_child exit))))) ∧
  (∀ es s,
      wired s → valid_strategy s → done s = false →
      restartHistory s = [] →
      0 <= maxRestarts s →
      Z.of_nat (length es) = maxRestarts s + 1 →
      (∀ t t', t ∈ times es → t' ∈ times es → t' - restartWindow s < t) →
      warranted es s →
      (∀ n, (n < length es)%nat →
            ∃ s1, run (receptions (take n es)) s = Some s1 ∧
                  done s1 = false ∧ s_stopped s1 = s_stopped s ∧
                  finalErr s1 = finalErr s ∧
                  restartHistory s1 = times (take n es)) ∧
      (∃ s2 now nm,
          run (receptions es) s = Some s2 ∧
          done s2 = true ∧ s_stopped s2 = true ∧
          finalErr s2 = Some ErrIntensityExceeded ∧
          Wait s2 = Returns (Some ErrIntensityExceeded) ∧
          last (events s2) = Some (intensity_event now nm))).
Proof.
  split.
  - intros now rnd exit s Hw Hm Hr.
    pose proof (checkRestartIntensity_prunes now s Hw Hm) as Hc.
    assert (∀ s', handleChildExit now rnd exit s = Some (s', Some ErrIntensityExceeded) →
                  maxRestarts s
                    < Z.of_nat (length (retained now (restartWindow s) (restartHistory s))))
      as Hfatal.
    { intros s' Hh.
      destruct (Z.ltb_spec (maxRestarts s)
                  (Z.of_nat (length (retained now (restartWindow s) (restartHistory s)))))
        as [Hlt|Hge]; [exact Hlt|exfalso].
      destruct (handleChildExit_restart now rnd exit s Hr) as [now' Hx].
      { rewrite Hc. cbn. now apply Z.leb_le. }
      rewrite Hx in Hh. apply executeStrategy_error in Hh. discriminate. }
    assert (maxRestarts s
              < Z.of_nat (length (retained now (restartWindow s) (restartHistory s))) →
            handleChildExit now rnd exit s
              = Some (emitEvent (intensity_event now (name_of s (exit_child exit)))
                        (emitEvent (exit_event now s exit)
                           (fst (checkRestartIntensity now s))),
                      Some ErrIntensityExceeded)) as Hex.
    { intros Hlt. apply handleChildExit_fatal; [exact Hr|].
      rewrite Hc. cbn. now apply Z.leb_gt. }
    split; [|split].
    + unfold intensity_check_as_specified. now rewrite Hc.
    + split; [intros [s' Hh]; eauto|intros Hlt; eauto].
    + intros s' Hh.
      assert (s' = emitEvent (intensity_event now (name_of s (exit_child exit)))
                     (emitEvent (exit_event now s exit)
                        (fst (checkRestartIntensity now s)))) as ->
        by (rewrite (Hex (Hfatal s' Hh)) in Hh; congruence).
      rewrite Hc. cbn. split; [reflexivity|]. apply last_snoc.
  - intros es s Hw Hv Hd Hh0 Hk Hlen Hwin Hwar. split.
    + intros n Hn.
      rewrite <- (take_drop n es) in Hwar.
      apply warranted_app in Hwar as [Hwar _].
      destruct (run_within_budget (take n es) s Hw Hv Hd) as (s1 & Hrun & H1);
        [| |exact Hwar|].
      * rewrite Hh0. cbn [app]. intros t t' Ht Ht'. apply Hwin.
        -- rewrite <- (take_drop n es), times_app. apply elem_of_app. now left.
        -- rewrite <- (take_drop n es), times_app. apply elem_of_app. now left.
      * rewrite Hh0, length_take. cbn [length]. lia.
      * exists s1. rewrite Hh0 in H1. cbn [app] in H1. tauto.
    + set (k := Z.to_nat (maxRestarts s)).
      assert (length es = S k) as Hlen' by lia.
      destruct (drop k es) as [|[[now rnd] e] tl] eqn:Hdrop.
      { apply (f_equal length) in Hdrop. rewrite length_drop in Hdrop.
        cbn in Hdrop. lia. }
      assert (tl = []) as ->.
      { apply (f_equal length) in Hdrop. rewrite length_drop in Hdrop.
        cbn in Hdrop. destruct tl; [reflexivity|cbn in Hdrop; lia]. }
      assert (es = take k es ++ [(now, rnd, e)]) as Hes
        by (rewrite <- Hdrop; symmetry; apply take_drop).
      rewrite Hes in Hwar. apply warranted_app in Hwar as [Hwar1 Hwar2].
      assert (now ∈ times es) as Hnow.
      { rewrite Hes, times_app. apply elem_of_app. right. apply list_elem_of_here. }
      destruct (run_within_budget (take k es) s Hw Hv Hd)
        as (s1 & Hrun & Hw1 & Hv1 & Hd1 & _ & _ & Hh1 & Hm1 & Hrw1);
        [| |exact Hwar1|].
      * rewrite Hh0. cbn [app]. intros t t' Ht Ht'. apply Hwin.
        -- rewrite Hes, times_app. apply elem_of_app. now left.
        -- rewrite Hes, times_app. apply elem_of_app. now left.
      * rewrite Hh0, length_take. cbn [length]. lia.
      * rewrite Hh0 in Hh1. cbn [app] in Hh1.
        specialize (Hwar2 s1 Hrun). cbn [warranted] in Hwar2.
        destruct Hwar2 as [Hr _].
        destruct (run_step_fatal now rnd e s1 Hw1 Hd1 Hr)
          as (s2 & Hstep & Hd2 & Hs2 & Hf2 & _ & Hev2).
        { rewrite checkRestartIntensity_keeps_all.
          - cbn [snd]. apply Z.leb_gt. rewrite Hh1, Hm1, length_app.
            unfold times. rewrite length_map, length_take. cbn [length]. lia.
          - rewrite Hh1, Hrw1. apply Forall_forall. intros t Ht.
            apply Hwin; [|exact Hnow].
            apply elem_of_app in Ht as [Ht|Ht%list_elem_of_singleton].
            + rewrite Hes, times_app. apply elem_of_app. now left.
            + now subst. }
        exists s2, now, (name_of s1 (exit_child e)).
        split.
        { rewrite Hes, receptions_app, run_app, Hrun. cbn. now rewrite Hstep. }
        repeat split; try assumption.
        -- unfold Wait. now rewrite Hd2, Hf2.
        -- rewrite Hev2.
           change ([exit_event now s1 e; intensity_event now (name_of s1 (exit_child e))])
             with ([exit_event now s1 e] ++ [intensity_event now (name_of s1 (exit_child e))]).
           now rewrite app_assoc, last_snoc.
Qed.
End Intensity.

(** When the window is not positive no entry is after the cutoff, not even
    the one just appended: the loop of [checkRestartIntensity] ends without
    reaching its [break], [start] is still 0 and the slice keeps every
    entry. *)
Lemma checkRestartIntensity_no_entry_after_cutoff now s :
  restartWindow s <= 0 → Forall (fun t => t <= now) (restartHistory s) →
  retained now (restartWindow s) (restartHistory s) = [] ∧
  checkRestartIntensity now s
    = (with_restartHistory (restartHistory s ++ [now]) s,
       Z.of_nat (length (restartHistory s)) + 1 <=? maxRestarts s).
Proof.
  intros Hw Hle.
  assert (Forall (fun t => t <= now - restartWindow s) (restartHistory s ++ [now]))
    as Hall.
  { apply Forall_app. split.
    - eapply Forall_impl; [exact Hle|]. intros t Ht. cbn in Ht. lia.
    - repeat constructor. lia. }
  split.
  - unfold retained. induction Hall as [|t h Ht _ IH]; [reflexivity|].
    rewrite filter_cons_False by lia. exact IH.
  - unfold checkRestartIntensity. cbv zeta.
    rewrite (find_start_none _ _ 0%nat Hall), drop_0.
    f_equal. f_equal. rewrite length_app. cbn [length]. lia.
Qed.

(** C4. The code does not prune as the claim, its own comment ("Remove old
    entries outside the window") and the documentation of [WithIntensity]
    ("more than maxRestarts occur within the time window") say when the
    window is not positive: [start] stays 0, so the history keeps every
    restart ever recorded, although none is later than
    [now - restartWindow], and the check counts them all.
    For [New(OneForOne, WithIntensity(3, 0))] with one permanent worker
    that fails four times, one minute apart: after the third failure the
    loop is running and the history holds the three times, none of which
    the pruning of the claim retains at the fourth; the fourth failure is
    fatal all the same: the last event is SupervisorFailedIntensity and
    [Wait] returns ErrIntensityExceeded. *)
Theorem zero_window_prunes_nothing :
  (∀ now s,
      restartWindow s <= 0 → Forall (fun t => t <= now) (restartHistory s) →
      retained now (restartWindow s) (restartHistory s) = [] ∧
      restartHistory (fst (checkRestartIntensity now s)) = restartHistory s ++ [now] ∧
      snd (checkRestartIntensity now s)
        = (Z.of_nat (length (restartHistory s)) + 1 <=? maxRestarts s)) ∧
  ¬ intensity_check_as_specified Minute zero_window_worker ∧
  ∀ P : Platform,
    ∃ s3 s4,
      run (receptions (take 3 four_failures)) zero_window_worker = Some s3 ∧
      done s3 = false ∧ finalErr s3 = None ∧
      restartHistory s3 = [Minute; 2 * Minute; 3 * Minute] ∧
      maxRestarts s3 = 3 ∧
      retained (4 * Minute) (restartWindow s3) (restartHistory s3) = [] ∧
      shouldRestart s3 (failed 3%nat) = true ∧
      run (receptions four_failures) zero_window_worker = Some s4 ∧
      done s4 = true ∧ s_stopped s4 = true ∧
      restartHistory s4 = [Minute; 2 * Minute; 3 * Minute; 4 * Minute] ∧
      finalErr s4 = Some ErrIntensityExceeded ∧
      Wait s4 = Returns (Some ErrIntensityExceeded) ∧
      last (events s4) = Some (intensity_event (4 * Minute) "w").
Proof.
  split; [|split].
  - intros now s Hw Hle.
    destruct (checkRestartIntensity_no_entry_after_cutoff now s Hw Hle) as [Hr Hc].
    rewrite Hc. auto.
  - unfold intensity_check_as_specified. intros [H _].
    vm_compute in H. discriminate.
  - intros P. do 2 eexists.
    repeat match goal with
           | |- _ ∧ _ => split; [vm_compute; reflexivity|]
           end.
    vm_compute. reflexivity.
Qed.

Lemma warranted_three_failures : warranted (P := amd64) three_failures budget_two.
Proof.
  unfold three_failures. cbn [warranted].
  split; [reflexivity|]. intros s1 r1 H1. vm_compute in H1. injection H1 as <- <-.
  split; [reflexivity|]. intros s2 r2 H2. vm_compute in H2. injection H2 as <- <-.
  split; [reflexivity|]. intros s3 r3 _. exact I.
Defined.

Lemma intensity_limit_budget_two :
  intensity_check_as_specified (10 * Millisecond) budget_two ∧
  (∀ n, (n < 3)%nat →
        ∃ s1, run (P := amd64) (receptions (take n three_failures)) budget_two = Some s1 ∧
              done s1 = false ∧ s_stopped s1 = false ∧ finalErr s1 = None ∧
              restartHistory s1 = times (take n three_failures)) ∧
  ∃ s2 now nm,
    run (P := amd64) (receptions three_failures) budget_two = Some s2 ∧
    done s2 = true ∧ s_stopped s2 = true ∧
    finalErr s2 = Some ErrIntensityExceeded ∧
    Wait s2 = Returns (Some ErrIntensityExceeded) ∧
    last (events s2) = Some (intensity_event now nm).
Proof.
  destruct (intensity_limit_positive_window (P := amd64)) as [Hcheck Hrun].
  split.
  - apply (Hcheck (10 * Millisecond) [] (failed 0%nat) budget_two).
    + vm_compute. reflexivity.
    + split; constructor.
    + reflexivity.
  - apply (Hrun three_failures budget_two).
    + repeat constructor.
    + left. reflexivity.
    + reflexivity.
    + reflexivity.
    + vm_compute. congruence.
    + reflexivity.
    + intros t t' Ht Ht'. vm_compute in Ht, Ht'.
      repeat (apply elem_of_cons in Ht as [->|Ht]);
        try (apply elem_of_nil in Ht; contradiction);
        repeat (apply elem_of_cons in Ht' as [->|Ht']);
        try (apply elem_of_nil in Ht'; contradiction);
        vm_compute; reflexivity.
    + exact warranted_three_failures.
Defined.

(* ===================================================================== *)
(** * backoff.go: the exponential policy                                  *)
(* ===================================================================== *)

(** C6. The default policy [ExponentialBackoff(100ms, 5s)]: for restarts
    0 to 36 the product fits an int64 and the delay is
    [min(initial * 2^restarts, max)] on every platform. From restarts = 37
    on the product is beyond the int64 range and the cap is applied to what
    the conversion returns: on amd64 that is the most negative int64, which
    is below [max], so a negative delay is returned instead of [max]; on
    arm64 the conversion saturates and the delay is [max]. *)
Theorem exponential_overflow_is_not_capped :
  (∀ P : Platform,
      forallb (fun r => fst (ComputeDelay default_backoff (Z.of_nat r) [])
                          =? Z.min (100 * Millisecond * 2 ^ Z.of_nat r) (5 * Second))
              (seq 0 37) = true) ∧
  max_int64 < 100 * Millisecond * 2 ^ 37 ∧
  forallb (fun r => fst (ComputeDelay (P := amd64) default_backoff (Z.of_nat r) [])
                      =? min_int64)
          (seq 37 1100) = true ∧
  forallb (fun r => fst (ComputeDelay (P := arm64) default_backoff (Z.of_nat r) [])
                      =? 5 * Second)
          (seq 37 1100) = true.
Proof.
  split; [intros P; vm_compute; reflexivity|].
  split; [vm_compute; reflexivity|].
  split; vm_compute; reflexivity.
Qed.

(* ===================================================================== *)
(** * backoff.go: the jitter policy                                       *)
(* ===================================================================== *)


(* ===================================================================== *)
(** * The invariant of the registered records                             *)
(* ===================================================================== *)

Lemma well_formed_New strat : well_formed (New strat []).
Proof.
  split; [|split].
  - intros nm p. cbn. rewrite lookup_empty. split; [discriminate|].
    intros [H _]. inversion H.
  - constructor.
  - constructor.
Qed.

Lemma wired_elem s p :
  wired s → p ∈ children s →
  (p < length (heap s))%nat ∧ cancel (deref (heap s) p) = true.
Proof. unfold wired. rewrite Forall_forall. auto. Qed.

Lemma doAddChild_eq now sp s :
  s_stopped s = false → childMap s !! Name sp = None →
  doAddChild now sp s
  = (updated s (children s ++ [length (heap s)])
       (<[Name sp := length (heap s)]> (childMap s))
       (heap s ++ [fresh_child sp])
       (events s ++ [started_event now (Name sp)]), None).
Proof.
  intros Hs Hm. unfold doAddChild. rewrite Hs.
  rewrite decide_False by (rewrite Hm; intros [? ?]; discriminate).
  unfold newChild, startChild, emitEvent, name_of. cbn.
  rewrite deref_snoc. reflexivity.
Qed.

(** A record appended to the store under a name the index does not hold. *)
Lemma well_formed_append s c es :
  well_formed s → childMap s !! Name (spec c) = None → cancel c = true →
  well_formed (updated s (children s ++ [length (heap s)])
                 (<[Name (spec c) := length (heap s)]> (childMap s))
                 (heap s ++ [c]) es).
Proof.
  intros (Hc & Hnd & Hw) Hm Hcc. split; [|split].
  - intros nm p. unfold name_of.
    rewrite childMap_updated, children_updated, heap_updated.
    destruct (decide (nm = Name (spec c))) as [->|Hne].
    + rewrite lookup_insert_eq. split.
      * intros [= <-]. rewrite deref_snoc. split; [|reflexivity].
        apply elem_of_app. right. apply list_elem_of_here.
      * intros [Hin Hnm]. apply elem_of_app in Hin as [Hin|Hin].
        -- destruct (wired_elem s p Hw Hin) as [Hlt _].
           rewrite deref_app_l in Hnm by assumption.
           assert (childMap s !! Name (spec c) = Some p) as Hp
             by (apply Hc; auto).
           congruence.
        -- apply list_elem_of_singleton in Hin. now subst.
    + rewrite lookup_insert_ne by congruence. rewrite (Hc nm p). split.
      * intros [Hin Hnm]. destruct (wired_elem s p Hw Hin) as [Hlt _].
        rewrite deref_app_l by assumption. split; [|assumption].
        apply elem_of_app. now left.
      * intros [Hin Hnm]. apply elem_of_app in Hin as [Hin|Hin].
        -- destruct (wired_elem s p Hw Hin) as [Hlt _].
           rewrite deref_app_l in Hnm by assumption. auto.
        -- apply list_elem_of_singleton in Hin. subst p.
           rewrite deref_snoc in Hnm. congruence.
  - rewrite children_updated. apply NoDup_app. split; [assumption|]. split.
    + intros p Hin Hp. apply list_elem_of_singleton in Hp. subst p.
      destruct (wired_elem s _ Hw Hin). lia.
    + apply NoDup_singleton.
  - unfold wired. rewrite children_updated, heap_updated.
    apply Forall_app. split.
    + apply wired_in_app_l. exact Hw.
    + constructor; [|constructor]. rewrite length_app, deref_snoc. cbn. split; [lia|assumption].
Qed.

Lemma doAddChild_well_formed now sp s :
  well_formed s → well_formed (fst (doAddChild now sp s)).
Proof.
  intros Hwf.
  destruct (s_stopped s) eqn:Hs; [unfold doAddChild; now rewrite Hs|].
  destruct (childMap s !! Name sp) as [q|] eqn:Hm.
  - unfold doAddChild. rewrite Hs, decide_True by (rewrite Hm; eauto). exact Hwf.
  - rewrite doAddChild_eq by assumption.
    apply (well_formed_append s (fresh_child sp)); auto.
Qed.

(** ** Removal *)

Lemma remove_first_elem ch l x :
  NoDup l → x ∈ remove_first ch l ↔ x ∈ l ∧ x ≠ ch.
Proof.
  induction 1 as [|c l Hc Hnd IH]; cbn.
  - split; [intros H; inversion H|intros [H _]; inversion H].
  - case_decide as Heq.
    + subst c. split.
      * intros Hx. split; [now apply list_elem_of_further|]. intros ->. contradiction.
      * intros [Hx Hne]. apply elem_of_cons in Hx as [?|?]; [contradiction|assumption].
    + rewrite !elem_of_cons, IH. split.
      * intros [->|[? ?]]; auto.
      * intros [[->|?] ?]; auto.
Qed.

Lemma remove_first_NoDup ch l : NoDup l → NoDup (remove_first ch l).
Proof.
  induction 1 as [|c l Hc Hnd IH]; cbn; [constructor|].
  case_decide; [assumption|]. constructor; [|assumption].
  rewrite remove_first_elem by assumption. tauto.
Qed.

Lemma remove_first_snoc ch l : ch ∉ l → remove_first ch (l ++ [ch]) = l.
Proof.
  induction l as [|c l IH]; intros Hn; cbn.
  - now rewrite decide_True.
  - apply not_elem_of_cons in Hn as [Hne Hn].
    rewrite decide_False by congruence. now rewrite IH.
Qed.

Lemma deref_stopped_fields h ch q :
  spec (deref (<[ch := set_stopped (deref h ch)]> h) q) = spec (deref h q) ∧
  cancel (deref (<[ch := set_stopped (deref h ch)]> h) q) = cancel (deref h q).
Proof. destruct (stop_heap_fields [ch] h q) as (? & ? & _). auto. Qed.

Lemma doRemoveChild_eq nm s ch :
  childMap s !! nm = Some ch → cancel (deref (heap s) ch) = true →
  doRemoveChild nm s
  = Some (updated s (remove_first ch (children s)) (delete nm (childMap s))
            (<[ch := set_stopped (deref (heap s) ch)]> (heap s)) (events s), None).
Proof.
  intros Hm Hc. unfold doRemoveChild. rewrite Hm, stop_eq by assumption.
  reflexivity.
Qed.

(** The store may change as long as names and cancel functions stay. *)
Lemma well_formed_unregister s nm ch h es :
  well_formed s → childMap s !! nm = Some ch →
  length h = length (heap s) →
  (∀ q, spec (deref h q) = spec (deref (heap s) q) ∧
        cancel (deref h q) = cancel (deref (heap s) q)) →
  well_formed (updated s (remove_first ch (children s)) (delete nm (childMap s)) h es).
Proof.
  intros (Hc & Hnd & Hw) Hm Hlen Hsame. split; [|split].
  - intros nm' p. unfold name_of.
    rewrite childMap_updated, children_updated, heap_updated.
    rewrite remove_first_elem by assumption.
    rewrite (proj1 (Hsame p)).
    destruct (decide (nm' = nm)) as [->|Hne].
    + rewrite lookup_delete_eq. split; [discriminate|].
      intros [[Hin Hp] Hnm].
      assert (childMap s !! nm = Some p) by (apply Hc; auto). congruence.
    + rewrite lookup_delete_ne by congruence. rewrite (Hc nm' p). split.
      * intros [Hin Hnm]. repeat split; try assumption.
        intros ->. apply Hne. rewrite <- Hnm.
        now apply (Hc nm ch).
      * tauto.
  - rewrite children_updated. now apply remove_first_NoDup.
  - unfold wired. rewrite children_updated, heap_updated.
    apply Forall_forall. intros p Hp.
    apply remove_first_elem in Hp as [Hp _]; [|assumption].
    destruct (wired_elem s p Hw Hp) as [Hlt Hcc].
    rewrite Hlen, (proj2 (Hsame p)). auto.
Qed.

Lemma registered_wired s nm ch :
  well_formed s → childMap s !! nm = Some ch →
  ch ∈ children s ∧ name_of s ch = nm ∧
  (ch < length (heap s))%nat ∧ cancel (deref (heap s) ch) = true.
Proof.
  intros (Hc & _ & Hw) Hm. apply Hc in Hm as [Hin Hnm].
  destruct (wired_elem s ch Hw Hin). auto.
Qed.

(** ** Replacement of one slot *)

Lemma swap_child_elem ch new l x :
  x ∈ swap_child ch new l ↔ (x ∈ l ∧ x ≠ ch) ∨ (x = new ∧ ch ∈ l).
Proof.
  unfold swap_child. rewrite list_elem_of_fmap. split.
  - intros (p & -> & Hp). case_decide; subst; auto.
  - intros [[Hx Hne]|[-> Hin]].
    + exists x. rewrite decide_False by assumption. auto.
    + exists ch. rewrite decide_True by reflexivity. auto.
Qed.

Lemma swap_child_absent ch new l : ch ∉ l → swap_child ch new l = l.
Proof.
  induction l as [|c l IH]; intros Hn; [reflexivity|].
  apply not_elem_of_cons in Hn as [Hne Hn]. cbn.
  rewrite decide_False by congruence. f_equal. now apply IH.
Qed.

Lemma swap_child_NoDup ch new l : NoDup l → new ∉ l → NoDup (swap_child ch new l).
Proof.
  induction 1 as [|c l Hc Hnd IH]; intros Hnew; [constructor|].
  apply not_elem_of_cons in Hnew as [Hne Hnew].
  unfold swap_child. cbn [map]. fold (swap_child ch new l). case_decide as Heq.
  - subst c. rewrite (swap_child_absent ch new l Hc). now constructor.
  - constructor; [|now apply IH].
    rewrite swap_child_elem. intros [[? ?]|[-> ?]]; [contradiction|congruence].
Qed.

Lemma swap_child_length ch new l : length (swap_child ch new l) = length l.
Proof. apply length_map. Qed.

Lemma replace_by_name_swap h nm new ch l :
  NoDup l → (∀ p, p ∈ l → Name (spec (deref h p)) = nm ↔ p = ch) →
  replace_by_name h nm new l = swap_child ch new l.
Proof.
  induction 1 as [|c l Hc Hnd IH]; intros Hnm; [reflexivity|].
  cbn. case_decide as Hd.
  - apply Hnm in Hd; [|apply list_elem_of_here]. subst c.
    rewrite decide_True by reflexivity. f_equal.
    symmetry. now apply swap_child_absent.
  - rewrite decide_False.
    + f_equal. apply IH. intros p Hp. apply Hnm. now apply list_elem_of_further.
    + intros ->. apply Hd. apply Hnm; [apply list_elem_of_here|reflexivity].
Qed.

(** In a well-formed state a name picks its record out of the sequence. *)
Lemma name_picks_record s nm ch p :
  well_formed s → childMap s !! nm = Some ch → p ∈ children s →
  name_of s p = nm ↔ p = ch.
Proof.
  intros (Hc & _ & _) Hm Hp. split.
  - intros Hnm. assert (childMap s !! nm = Some p) by (apply Hc; auto). congruence.
  - intros ->. now apply (Hc nm ch).
Qed.

Lemma well_formed_swap s nm ch h1 c es :
  well_formed s → childMap s !! nm = Some ch →
  length h1 = length (heap s) →
  (∀ q, spec (deref h1 q) = spec (deref (heap s) q) ∧
        cancel (deref h1 q) = cancel (deref (heap s) q)) →
  Name (spec c) = nm → cancel c = true →
  replace_by_name (h1 ++ [c]) nm (length h1) (children s)
    = swap_child ch (length h1) (children s) ∧
  well_formed (updated s (swap_child ch (length h1) (children s))
                 (<[nm := length h1]> (childMap s)) (h1 ++ [c]) es).
Proof.
  intros Hwf Hm Hlen Hsame Hnmc Hcc.
  destruct (registered_wired s nm ch Hwf Hm) as (Hin & Hnm & Hlt & Hcan).
  pose proof Hwf as (Hc & Hnd & Hw).
  assert (∀ p, p ∈ children s →
               Name (spec (deref (h1 ++ [c]) p)) = Name (spec (deref (heap s) p)))
    as Hname.
  { intros p Hp. destruct (wired_elem s p Hw Hp) as [Hp' _].
    rewrite deref_app_l by lia. now rewrite (proj1 (Hsame p)). }
  split.
  { apply replace_by_name_swap; [assumption|].
    intros p Hp. rewrite (Hname p Hp).
    exact (name_picks_record s nm ch p Hwf Hm Hp). }
  split; [|split].
  - intros nm' p. unfold name_of.
    rewrite childMap_updated, children_updated, heap_updated, swap_child_elem.
    destruct (decide (nm' = nm)) as [->|Hne].
    + rewrite lookup_insert_eq. split.
      * intros [= <-]. rewrite deref_snoc. auto.
      * intros [[[Hp Hpne]|[-> _]] Hpn]; [|reflexivity].
        rewrite (Hname p Hp) in Hpn.
        apply (name_picks_record s nm ch p Hwf Hm Hp) in Hpn. contradiction.
    + rewrite lookup_insert_ne by congruence. rewrite (Hc nm' p). split.
      * intros [Hp Hpn]. split; [|now rewrite (Hname p Hp)].
        left. split; [assumption|]. intros ->. unfold name_of in *. congruence.
      * intros [[[Hp Hpne]|[-> _]] Hpn].
        -- rewrite (Hname p Hp) in Hpn. auto.
        -- rewrite deref_snoc in Hpn. congruence.
  - rewrite children_updated. apply swap_child_NoDup; [assumption|].
    intros Hnew. destruct (wired_elem s _ Hw Hnew). lia.
  - unfold wired. rewrite children_updated, heap_updated.
    apply Forall_forall. intros p Hp. rewrite length_app. cbn [length].
    apply swap_child_elem in Hp as [[Hp _]|[-> _]].
    + destruct (wired_elem s p Hw Hp) as [Hp' Hpc].
      rewrite deref_app_l by lia. rewrite (proj2 (Hsame p)). split; [lia|assumption].
    + rewrite deref_snoc. split; [lia|assumption].
Qed.

Lemma deref_snoc_at h c n : n = length h → deref (h ++ [c]) n = c.
Proof. intros ->. apply deref_snoc. Qed.

Lemma doRestartChild_eq now nm s ch :
  childMap s !! nm = Some ch → cancel (deref (heap s) ch) = true →
  (ch < length (heap s))%nat →
  doRestartChild now nm s
  = Some (updated s
            (replace_by_name
               (<[ch := set_stopped (deref (heap s) ch)]> (heap s)
                  ++ [fresh_child (spec (deref (heap s) ch))])
               nm (length (heap s)) (children s))
            (<[nm := length (heap s)]> (childMap s))
            (<[ch := set_stopped (deref (heap s) ch)]> (heap s)
               ++ [fresh_child (spec (deref (heap s) ch))])
            (events s ++ [started_event now (Name (spec (deref (heap s) ch)))]),
          None).
Proof.
  intros Hm Hc Hlt. unfold doRestartChild. rewrite Hm, stop_eq by assumption.
  cbn [mbind option_bind]. unfold newChild, startChild, emitEvent, name_of.
  cbn. rewrite length_insert, deref_insert_eq by assumption.
  rewrite deref_snoc_at by now rewrite length_insert. reflexivity.
Qed.

Lemma well_formed_one_worker : well_formed one_worker.
Proof. apply doAddChild_well_formed, well_formed_New. Qed.

(* ===================================================================== *)
(** * The commands, as the callers see them                               *)
(* ===================================================================== *)

Section Commands.
Context {P : Platform}.

Lemma AddChild_eq now sp s :
  done s = false →
  AddChild now sp s
  = Some (fst (doAddChild now sp s), Returns (snd (doAddChild now sp s))).
Proof.
  intros Hd. unfold AddChild, call, run_step, handleCommand. rewrite Hd.
  cbn. now destruct (doAddChild now sp s).
Qed.

Lemma RemoveChild_eq now nm s :
  done s = false →
  RemoveChild now nm s = '(s', e) ← doRemoveChild nm s; Some (s', Returns e).
Proof.
  intros Hd. unfold RemoveChild, call, run_step, handleCommand. rewrite Hd.
  cbn. now destruct (doRemoveChild nm s) as [[? ?]|].
Qed.

Lemma RestartChild_eq now nm s :
  done s = false →
  RestartChild now nm s = '(s', e) ← doRestartChild now nm s; Some (s', Returns e).
Proof.
  intros Hd. unfold RestartChild, call, run_step, handleCommand. rewrite Hd.
  cbn. now destruct (doRestartChild now nm s) as [[? ?]|].
Qed.

(** X1. [AddChild] on a running supervisor that does not hold the name:
    the new record is allocated by [newChild], appended to the sequence and
    entered in the index, exactly one ChildStarted event is emitted, the
    records already in the store are not touched, and the state stays
    well-formed. A second [AddChild] under the same name, with whatever
    spec, is refused with ErrChildAlreadyExists and changes nothing. *)
Theorem AddChild_registers now sp s :
  well_formed s → done s = false → s_stopped s = false →
  childMap s !! Name sp = None →
  ∃ s',
    AddChild now sp s = Some (s', Returns None) ∧
    children s' = children s ++ [length (heap s)] ∧
    childMap s' = <[Name sp := length (heap s)]> (childMap s) ∧
    heap s' = heap s ++ [fresh_child sp] ∧
    events s' = events s ++ [started_event now (Name sp)] ∧
    well_formed s' ∧
    ∀ now' sp', Name sp' = Name sp →
      AddChild now' sp' s' = Some (s', Returns (Some ErrChildAlreadyExists)).
Proof.
  intros Hwf Hd Hs Hm. eexists. rewrite AddChild_eq by assumption.
  rewrite doAddChild_eq by assumption. cbn [fst snd].
  split; [reflexivity|]. do 4 (split; [reflexivity|]). split.
  - now apply (well_formed_append s (fresh_child sp)).
  - intros now' sp' Hnm. rewrite AddChild_eq by assumption.
    unfold doAddChild. cbn [s_stopped updated with_events with_children with_heap childMap].
    rewrite Hs, Hnm, decide_True; [reflexivity|].
    rewrite lookup_insert_eq. eauto.
Qed.

(** X2. [RemoveChild] of a registered name: the record is stopped and cut
    out of the sequence, the name leaves the index, no event is emitted,
    the restart history is not touched, and the state stays well-formed.
    The stopped flag of the supervisor plays no part. Afterwards the name
    is unknown to [RemoveChild] and [RestartChild]. *)
Theorem RemoveChild_unregisters now nm s ch :
  well_formed s → done s = false → childMap s !! nm = Some ch →
  ∃ s',
    RemoveChild now nm s = Some (s', Returns None) ∧
    (∀ x, x ∈ children s' ↔ x ∈ children s ∧ x ≠ ch) ∧
    childMap s' = delete nm (childMap s) ∧
    isStopped ch s' = true ∧
    events s' = events s ∧ restartHistory s' = restartHistory s ∧
    well_formed s' ∧
    ∀ now',
      RemoveChild now' nm s' = Some (s', Returns (Some ErrChildNotFound)) ∧
      RestartChild now' nm s' = Some (s', Returns (Some ErrChildNotFound)).
Proof.
  intros Hwf Hd Hm.
  destruct (registered_wired s nm ch Hwf Hm) as (Hin & Hnm & Hlt & Hc).
  eexists. rewrite RemoveChild_eq by assumption.
  rewrite (doRemoveChild_eq nm s ch) by assumption. cbn [mbind option_bind].
  split; [reflexivity|]. rewrite children_updated, childMap_updated.
  split; [intros x; apply remove_first_elem, Hwf|].
  split; [reflexivity|]. split.
  { unfold isStopped. rewrite heap_updated. now rewrite deref_insert_eq. }
  do 2 (split; [reflexivity|]). split.
  - apply well_formed_unregister; try assumption.
    + apply length_insert.
    + intros q. apply deref_stopped_fields.
  - intros now'. rewrite RemoveChild_eq, RestartChild_eq by assumption.
    unfold doRemoveChild, doRestartChild. rewrite childMap_updated, lookup_delete_eq.
    split; reflexivity.
Qed.

(** X3. Adding a child and removing it again restores the sequence and
    the index, leaves the records that were in the store as they were, and
    frees the name for a later [AddChild]. *)
Theorem AddChild_then_RemoveChild now now' sp s :
  well_formed s → done s = false → s_stopped s = false →
  childMap s !! Name sp = None →
  ∃ s1 s2,
    AddChild now sp s = Some (s1, Returns None) ∧
    RemoveChild now' (Name sp) s1 = Some (s2, Returns None) ∧
    children s2 = children s ∧ childMap s2 = childMap s ∧
    (∀ q, (q < length (heap s))%nat → deref (heap s2) q = deref (heap s) q) ∧
    deref (heap s2) (length (heap s)) = set_stopped (fresh_child sp) ∧
    ∀ now'' sp', Name sp' = Name sp →
      ∃ s3, AddChild now'' sp' s2 = Some (s3, Returns None).
Proof.
  intros Hwf Hd Hs Hm.
  pose proof Hwf as (_ & _ & Hw).
  eexists. eexists. rewrite AddChild_eq by assumption.
  rewrite doAddChild_eq by assumption. cbn [fst snd].
  split; [reflexivity|].
  rewrite RemoveChild_eq by assumption.
  rewrite (doRemoveChild_eq _ _ (length (heap s)));
    [|rewrite childMap_updated; apply lookup_insert_eq
     |rewrite heap_updated, deref_snoc; reflexivity].
  cbn [mbind option_bind]. split; [reflexivity|].
  rewrite !children_updated, !childMap_updated, !heap_updated, deref_snoc.
  rewrite insert_snoc.
  split.
  { apply remove_first_snoc. intros Hin. destruct (wired_elem s _ Hw Hin). lia. }
  split; [now apply delete_insert_id|].
  split; [intros q Hq; now apply deref_app_l|].
  split; [apply deref_snoc|].
  intros now'' sp' Hnm. eexists. rewrite AddChild_eq by assumption.
  rewrite doAddChild_eq; [reflexivity|exact Hs|].
  rewrite childMap_updated, Hnm. apply lookup_delete_eq.
Qed.

(** X4. [RestartChild] of a registered name: the old record is stopped,
    a record built by [newChild] from the same spec takes its slot and its
    index entry, the other slots keep their records, the only event is one
    ChildStarted (no ChildRestarted), the restart history is not touched
    (a manual restart does not count against the intensity limit), and the
    state stays well-formed. *)
Theorem RestartChild_replaces now nm s ch :
  well_formed s → done s = false → childMap s !! nm = Some ch →
  ∃ s',
    RestartChild now nm s = Some (s', Returns None) ∧
    children s' = swap_child ch (length (heap s)) (children s) ∧
    childMap s' = <[nm := length (heap s)]> (childMap s) ∧
    deref (heap s') (length (heap s)) = fresh_child (spec (deref (heap s) ch)) ∧
    isStopped ch s' = true ∧
    events s' = events s ++ [started_event now nm] ∧
    restartHistory s' = restartHistory s ∧
    well_formed s'.
Proof.
  intros Hwf Hd Hm.
  destruct (registered_wired s nm ch Hwf Hm) as (Hin & Hnm & Hlt & Hc).
  set (h1 := <[ch := set_stopped (deref (heap s) ch)]> (heap s)).
  assert (length h1 = length (heap s)) as Hlen by apply length_insert.
  destruct (well_formed_swap s nm ch h1 (fresh_child (spec (deref (heap s) ch)))
              (events s ++ [started_event now nm]) Hwf Hm Hlen)
    as [Hrep Hwf']; [intros q; apply deref_stopped_fields|exact Hnm|reflexivity|].
  eexists. rewrite RestartChild_eq by assumption.
  rewrite (doRestartChild_eq now nm s ch) by assumption. cbn [mbind option_bind].
  fold h1. rewrite <- Hlen, Hrep. unfold name_of in Hnm. rewrite Hnm.
  split; [reflexivity|].
  rewrite children_updated, childMap_updated, heap_updated, events_updated.
  do 2 (split; [reflexivity|]).
  split; [apply deref_snoc|]. split.
  { unfold isStopped. rewrite heap_updated, deref_app_l by lia.
    subst h1. now rewrite deref_insert_eq. }
  split; [reflexivity|]. split; [reflexivity|]. exact Hwf'.
Qed.
End Commands.

Lemma AddChild_registers_witness :
  ∃ s',
    AddChild (P := amd64) 1 worker (New OneForOne []) = Some (s', Returns None) ∧
    children s' = children (New OneForOne []) ++ [length (heap (New OneForOne []))] ∧
    childMap s'
      = <[Name worker := length (heap (New OneForOne []))]> (childMap (New OneForOne [])) ∧
    heap s' = heap (New OneForOne []) ++ [fresh_child worker] ∧
    events s' = events (New OneForOne []) ++ [started_event 1 (Name worker)] ∧
    well_formed s' ∧
    ∀ now' sp', Name sp' = Name worker →
      AddChild (P := amd64) now' sp' s' = Some (s', Returns (Some ErrChildAlreadyExists)).
Proof.
  apply (AddChild_registers (P := amd64) 1 worker (New OneForOne []));
    [apply well_formed_New|reflexivity|reflexivity|reflexivity].
Defined.

Lemma RemoveChild_unregisters_witness :
  ∃ s',
    RemoveChild (P := amd64) 2 "w" one_worker = Some (s', Returns None) ∧
    (∀ x, x ∈ children s' ↔ x ∈ children one_worker ∧ x ≠ 0%nat) ∧
    childMap s' = delete "w" (childMap one_worker) ∧
    isStopped 0%nat s' = true ∧
    events s' = events one_worker ∧ restartHistory s' = restartHistory one_worker ∧
    well_formed s' ∧
    ∀ now',
      RemoveChild (P := amd64) now' "w" s' = Some (s', Returns (Some ErrChildNotFound)) ∧
      RestartChild (P := amd64) now' "w" s' = Some (s', Returns (Some ErrChildNotFound)).
Proof.
  apply (RemoveChild_unregisters (P := amd64) 2 "w" one_worker 0%nat);
    [apply well_formed_one_worker|reflexivity|vm_compute; reflexivity].
Defined.

Lemma AddChild_then_RemoveChild_witness :
  ∃ s1 s2,
    AddChild (P := amd64) 1 worker (New OneForOne []) = Some (s1, Returns None) ∧
    RemoveChild (P := amd64) 2 (Name worker) s1 = Some (s2, Returns None) ∧
    children s2 = children (New OneForOne []) ∧
    childMap s2 = childMap (New OneForOne []) ∧
    (∀ q, (q < length (heap (New OneForOne [])))%nat →
          deref (heap s2) q = deref (heap (New OneForOne [])) q) ∧
    deref (heap s2) (length (heap (New OneForOne []))) = set_stopped (fresh_child worker) ∧
    ∀ now'' sp', Name sp' = Name worker →
      ∃ s3, AddChild (P := amd64) now'' sp' s2 = Some (s3, Returns None).
Proof.
  apply (AddChild_then_RemoveChild (P := amd64) 1 2 worker (New OneForOne []));
    [apply well_formed_New|reflexivity|reflexivity|reflexivity].
Defined.

Lemma RestartChild_replaces_witness :
  ∃ s',
    RestartChild (P := amd64) 2 "w" one_worker = Some (s', Returns None) ∧
    children s' = swap_child 0%nat (length (heap one_worker)) (children one_worker) ∧
    childMap s' = <["w" := length (heap one_worker)]> (childMap one_worker) ∧
    deref (heap s') (length (heap one_worker))
      = fresh_child (spec (deref (heap one_worker) 0%nat)) ∧
    isStopped 0%nat s' = true ∧
    events s' = events one_worker ++ [started_event 2 "w"] ∧
    restartHistory s' = restartHistory one_worker ∧
    well_formed s'.
Proof.
  apply (RestartChild_replaces (P := amd64) 2 "w" one_worker 0%nat);
    [apply well_formed_one_worker|reflexivity|vm_compute; reflexivity].
Defined.

(* ===================================================================== *)
(** * The strategies on well-formed states                                *)
(* ===================================================================== *)

Lemma restartOne_eq now exit s :
  restartOne now exit s
  = (updated s
       (replace_by_name (heap s ++ [bumped (deref (heap s) (exit_child exit))])
          (Name (spec (deref (heap s) (exit_child exit)))) (length (heap s))
          (children s))
       (<[Name (spec (deref (heap s) (exit_child exit))) := length (heap s)]>
          (childMap s))
       (heap s ++ [bumped (deref (heap s) (exit_child exit))])
       (events s ++ restart_events now (Name (spec (deref (heap s) (exit_child exit))))),
     None).
Proof.
  unfold restartOne. rewrite newChild_bumped_eq.
  unfold startChild, emitEvent, name_of. cbn. rewrite !deref_snoc.
  unfold updated, with_events, with_children, with_heap. cbn.
  rewrite <- app_assoc. reflexivity.
Qed.

Lemma remap_ext h h' l : ∀ base m,
  Forall (fun p => Name (spec (deref h p)) = Name (spec (deref h' p))) l →
  remap h l base m = remap h' l base m.
Proof.
  induction l as [|p l IH]; intros base m Hall; [reflexivity|].
  inversion Hall as [|? ? Hp Hl]; subst. cbn. rewrite Hp. now apply IH.
Qed.

Lemma remap_lookup_notin h l nm : ∀ base m,
  Forall (fun p => Name (spec (deref h p)) ≠ nm) l →
  remap h l base m !! nm = m !! nm.
Proof.
  induction l as [|p l IH]; intros base m Hall; [reflexivity|].
  inversion Hall as [|? ? Hp Hl]; subst. cbn.
  rewrite IH by assumption. now rewrite lookup_insert_ne.
Qed.

Lemma remap_lookup_in h l : ∀ base m i p,
  NoDup (map (fun p => Name (spec (deref h p))) l) →
  l !! i = Some p →
  remap h l base m !! Name (spec (deref h p)) = Some (base + i)%nat.
Proof.
  induction l as [|c l IH]; intros base m i p Hnd Hi; [discriminate|].
  cbn [map] in Hnd. apply NoDup_cons in Hnd as [Hc Hnd].
  destruct i as [|i]; cbn in Hi.
  - injection Hi as ->. cbn [remap].
    rewrite remap_lookup_notin.
    + rewrite lookup_insert_eq. f_equal. lia.
    + apply Forall_forall. intros q Hq Heq. apply Hc.
      apply list_elem_of_fmap. exists q. auto.
  - cbn [remap]. rewrite (IH (S base) _ i p Hnd Hi). f_equal. lia.
Qed.

(** The second loop of [restartAll], in closed form. *)
Lemma restartAll_create_eq l : ∀ acc s,
  Forall (fun p => (p < length (heap s))%nat) l →
  fold_left replace_child l (acc, s)
  = (acc ++ seq (length (heap s)) (length l),
     updated s (children s) (remap (heap s) l (length (heap s)) (childMap s))
       (heap s ++ map (fun p => bumped (deref (heap s) p)) l) (events s)).
Proof.
  induction l as [|ch l IH]; intros acc s Hall.
  - cbn. now rewrite !app_nil_r, updated_self.
  - inversion Hall as [|? ? Hch Hl]; subst.
    cbn [fold_left]. unfold replace_child at 2. rewrite newChild_bumped_eq.
    rewrite IH.
    + cbn [heap with_heap children events with_children childMap length map remap].
      rewrite length_app. cbn [length seq].
      replace (length (heap s) + 1)%nat with (S (length (heap s))) by lia.
      rewrite <- !app_assoc. cbn [app]. f_equal.
      unfold updated, with_events, with_children, with_heap. cbn. f_equal.
      * apply remap_ext. eapply Forall_impl; [exact Hl|].
        intros q Hq. cbn in Hq. now rewrite deref_app_l.
      * do 2 f_equal. apply map_ext_Forall. eapply Forall_impl; [exact Hl|].
        intros q Hq. cbn in Hq. now rewrite deref_app_l.
    + cbn [heap with_heap with_children]. rewrite length_app.
      eapply Forall_impl; [exact Hl|]. intros; cbn in *; lia.
Qed.

(** The third loop of [restartAll], in closed form. *)
Lemma restartAll_start_eq now l : ∀ s,
  fold_left (announce_and_start now) l s
  = with_events (events s ++ flat_map (fun p => restart_events now (name_of s p)) l) s.
Proof.
  induction l as [|ch l IH]; intros s.
  - cbn. rewrite app_nil_r. now destruct s.
  - cbn [fold_left flat_map]. rewrite IH.
    unfold announce_and_start, startChild, emitEvent, name_of, with_events. cbn.
    rewrite <- !app_assoc. reflexivity.
Qed.

Lemma flat_map_seq_lookup {A B} (f : nat → list B) (g : A → list B) l : ∀ base,
  (∀ i x, l !! i = Some x → f (base + i)%nat = g x) →
  flat_map f (seq base (length l)) = flat_map g l.
Proof.
  induction l as [|x l IH]; intros base Hfg; [reflexivity|].
  cbn [length seq flat_map]. f_equal.
  - rewrite <- (Hfg 0%nat x eq_refl). f_equal. lia.
  - apply IH. intros i y Hy. rewrite <- (Hfg (S i) y Hy). f_equal. lia.
Qed.

Lemma stop_heap_same chs h q :
  spec (deref (stop_heap chs h) q) = spec (deref h q) ∧
  cancel (deref (stop_heap chs h) q) = cancel (deref h q).
Proof. destruct (stop_heap_fields chs h q) as (? & ? & _). auto. Qed.

Lemma restartAll_eq now s :
  wired s →
  restartAll now s
  = Some (updated s
            (seq (length (heap s)) (length (children s)))
            (remap (stop_heap (children s) (heap s)) (children s)
                   (length (heap s)) (childMap s))
            (stop_heap (children s) (heap s)
               ++ map (fun p => bumped (deref (heap s) p)) (children s))
            (events s
               ++ flat_map (fun p => restart_events now (name_of s p)) (children s)),
          None).
Proof.
  intros Hw. unfold restartAll.
  rewrite stop_each_eq
    by (eapply Forall_impl; [exact Hw|]; intros q [_ Hq]; exact Hq).
  cbn [mbind option_bind].
  rewrite restartAll_create_eq; cbn [children heap with_heap];
    [|rewrite stop_heap_length; eapply Forall_impl; [exact Hw|];
      intros q [Hq _]; exact Hq].
  rewrite restartAll_start_eq. rewrite stop_heap_length.
  assert (map (fun p => bumped (deref (stop_heap (children s) (heap s)) p)) (children s)
          = map (fun p => bumped (deref (heap s) p)) (children s)) as ->.
  { apply map_ext_Forall. apply Forall_forall. intros q _. unfold bumped.
    destruct (stop_heap_fields (children s) (heap s) q) as (-> & _ & _ & ->).
    reflexivity. }
  cbn [app children updated with_events with_children with_heap events heap childMap].
  erewrite (flat_map_seq_lookup _ (fun p => restart_events now (name_of s p))).
  - reflexivity.
  - intros i p Hp. unfold name_of.
    cbn [heap updated with_events with_children with_heap].
    rewrite <- (stop_heap_length (children s) (heap s)), deref_app_r.
    unfold deref at 1. rewrite list_lookup_fmap, Hp. reflexivity.
Qed.

Lemma names_NoDup s :
  well_formed s → NoDup (map (name_of s) (children s)).
Proof.
  intros (Hc & Hnd & _). apply NoDup_fmap_2_strong; [|assumption].
  intros p q Hp Hq Heq.
  assert (childMap s !! name_of s p = Some p) as H1 by (apply Hc; auto).
  assert (childMap s !! name_of s p = Some q) as H2 by (apply Hc; auto).
  congruence.
Qed.

(** The state after the records from slot [j] on have been stopped and
    replaced by fresh ones. *)
Lemma well_formed_remap s j h1 es :
  well_formed s → (j ≤ length (children s))%nat →
  length h1 = length (heap s) →
  (∀ q, spec (deref h1 q) = spec (deref (heap s) q) ∧
        cancel (deref h1 q) = cancel (deref (heap s) q)) →
  well_formed
    (updated s (take j (children s) ++ seq (length h1) (length (children s) - j))
       (remap h1 (drop j (children s)) (length h1) (childMap s))
       (h1 ++ map (fun p => bumped (deref h1 p)) (drop j (children s))) es).
Proof.
  intros Hwf Hj Hlen Hsame. pose proof Hwf as (Hc & Hnd & Hw).
  set (cs := children s) in *. set (news := map _ (drop j cs)).
  assert (length news = (length cs - j)%nat) as Hnews
    by (subst news; now rewrite length_map, length_drop).
  assert (∀ p, p ∈ cs → (p < length h1)%nat) as Hlt.
  { intros p Hp. destruct (wired_elem s p Hw Hp). lia. }
  assert (∀ p, Name (spec (deref h1 p)) = name_of s p) as Hname.
  { intros p. unfold name_of. now rewrite (proj1 (Hsame p)). }
  assert (NoDup (map (fun p => Name (spec (deref h1 p))) (drop j cs))) as Hnames.
  { rewrite <- (take_drop j cs) in Hnd.
    pose proof (names_NoDup s Hwf) as Hn. fold cs in Hn.
    rewrite <- (take_drop j cs), map_app in Hn.
    apply NoDup_app in Hn as (_ & _ & Hn).
    erewrite map_ext; [exact Hn|]. intros p. apply Hname. }
  assert (∀ i p, drop j cs !! i = Some p →
                 deref (h1 ++ news) (length h1 + i) = bumped (deref h1 p)) as Hnew.
  { intros i p Hp. rewrite deref_app_r. unfold deref at 1. subst news.
    now rewrite list_lookup_fmap, Hp. }
  split; [|split].
  - intros nm q. unfold name_of.
    rewrite childMap_updated, children_updated, heap_updated.
    destruct (decide (nm ∈ map (fun p => Name (spec (deref h1 p))) (drop j cs)))
      as [Hin|Hnin].
    + apply list_elem_of_fmap in Hin as (p & -> & Hp).
      apply list_elem_of_lookup in Hp as [i Hi].
      rewrite (remap_lookup_in h1 _ _ _ i p Hnames Hi).
      pose proof (lookup_lt_Some _ _ _ Hi) as Hilt. rewrite length_drop in Hilt.
      split.
      * intros [= <-]. split.
        -- apply elem_of_app. right. apply elem_of_seq. lia.
        -- rewrite (Hnew i p Hi). reflexivity.
      * intros [Hq Hqn]. apply elem_of_app in Hq as [Hq|Hq].
        -- exfalso.
           assert (q ∈ cs) as Hqc
             by (rewrite <- (take_drop j cs); apply elem_of_app; now left).
           rewrite deref_app_l in Hqn by auto.
           assert (p ∈ cs) as Hpc
             by (rewrite <- (take_drop j cs); apply elem_of_app; right;
                 eapply list_elem_of_lookup_2; exact Hi).
           assert (q = p).
           { rewrite !Hname in Hqn.
             assert (childMap s !! name_of s p = Some p) by (apply Hc; auto).
             assert (childMap s !! name_of s p = Some q) by (apply Hc; auto).
             congruence. }
           subst q. rewrite <- (take_drop j cs) in Hnd.
           apply NoDup_app in Hnd as (_ & Hdis & _).
           apply (Hdis p Hq). eapply list_elem_of_lookup_2; exact Hi.
        -- apply elem_of_seq in Hq as [Hge Hq].
           destruct (lookup_lt_is_Some_2 (drop j cs) (q - length h1)%nat) as [p' Hp'];
             [rewrite length_drop; lia|].
           replace q with (length h1 + (q - length h1))%nat in Hqn |- * by lia.
           rewrite (Hnew _ p' Hp') in Hqn. cbn in Hqn.
           assert (i = (q - length h1)%nat) as <-.
           { eapply NoDup_lookup; [exact Hnames| |].
             - rewrite list_lookup_fmap, Hi. reflexivity.
             - rewrite list_lookup_fmap, Hp'. cbn. now rewrite Hqn. }
           reflexivity.
    + rewrite remap_lookup_notin
        by (apply Forall_forall; intros p Hp Heq; apply Hnin;
            apply list_elem_of_fmap; eauto).
      rewrite (Hc nm q). split.
      * intros [Hq Hqn]. rewrite deref_app_l by auto. rewrite Hname.
        split; [|assumption]. apply elem_of_app. left. fold cs in Hq.
        rewrite <- (take_drop j cs) in Hq. apply elem_of_app in Hq as [Hq|Hq];
          [assumption|].
        exfalso. apply Hnin. apply list_elem_of_fmap. exists q.
        rewrite Hname. auto.
      * intros [Hq Hqn]. apply elem_of_app in Hq as [Hq|Hq].
        -- assert (q ∈ cs) as Hqc
             by (rewrite <- (take_drop j cs); apply elem_of_app; now left).
           rewrite deref_app_l, Hname in Hqn by auto. auto.
        -- exfalso. apply elem_of_seq in Hq as [Hge Hq].
           destruct (lookup_lt_is_Some_2 (drop j cs) (q - length h1)%nat) as [p' Hp'];
             [rewrite length_drop; lia|].
           replace q with (length h1 + (q - length h1))%nat in Hqn by lia.
           rewrite (Hnew _ p' Hp') in Hqn. cbn in Hqn.
           apply Hnin. apply list_elem_of_fmap. exists p'. split; [auto|].
           eapply list_elem_of_lookup_2; exact Hp'.
  - rewrite children_updated. apply NoDup_app. split; [|split].
    + rewrite <- (take_drop j cs) in Hnd. now apply NoDup_app in Hnd as (? & _).
    + intros p Hp Hs. apply elem_of_seq in Hs as [Hge _].
      assert (p ∈ cs) as Hpc
        by (rewrite <- (take_drop j cs); apply elem_of_app; now left).
      specialize (Hlt p Hpc). lia.
    + apply NoDup_seq.
  - unfold wired. rewrite children_updated, heap_updated.
    apply Forall_app. split.
    + apply wired_in_app_l. apply Forall_take.
      apply Forall_forall. intros p Hp. destruct (wired_elem s p Hw Hp).
      rewrite (proj2 (Hsame p)). split; [lia|assumption].
    + rewrite <- Hnews. apply wired_in_fresh.
      subst news. apply Forall_forall. intros c Hcin.
      apply list_elem_of_fmap in Hcin as (q & -> & _). reflexivity.
Qed.

(** The third loop of [restartRestForOne], in closed form. *)
Lemma restart_loop_eq now m : ∀ j s,
  length (children s) = (j + m)%nat →
  Forall (fun p => (p < length (heap s))%nat) (drop j (children s)) →
  fold_left (fun s i => restart_at now i s) (seq j m) s
  = updated s (take j (children s) ++ seq (length (heap s)) m)
      (remap (heap s) (drop j (children s)) (length (heap s)) (childMap s))
      (heap s ++ map (fun p => bumped (deref (heap s) p)) (drop j (children s)))
      (events s ++ flat_map (fun p => restart_events now (name_of s p))
                            (drop j (children s))).
Proof.
  induction m as [|m IH]; intros j s Hlen Hall.
  - cbn. rewrite drop_ge by lia. rewrite take_ge by lia. cbn.
    rewrite !app_nil_r. symmetry. apply updated_self.
  - destruct (lookup_lt_is_Some_2 (children s) j) as [p Hp]; [lia|].
    cbn [seq fold_left]. rewrite (restart_at_eq now j s p Hp).
    rewrite (drop_S _ _ _ Hp) in Hall |- *.
    inversion Hall as [|? ? Hplt Hall']; subst.
    rewrite IH.
    + rewrite updated_updated.
      rewrite !children_updated, !heap_updated, !events_updated, !childMap_updated.
      rewrite drop_insert_lt by lia.
      f_equal.
      * erewrite take_S_r by (apply list_lookup_insert_eq; lia).
        rewrite take_insert_ge by lia. rewrite length_app. cbn [length].
        rewrite <- app_assoc. cbn [app seq].
        now replace (length (heap s) + 1)%nat with (S (length (heap s))) by lia.
      * cbn [remap]. rewrite length_app. cbn [length].
        replace (length (heap s) + 1)%nat with (S (length (heap s))) by lia.
        apply remap_ext. eapply Forall_impl; [exact Hall'|].
        intros q Hq. cbn in Hq. now rewrite deref_app_l.
      * rewrite <- app_assoc. cbn [map app]. do 2 f_equal.
        apply map_ext_Forall. eapply Forall_impl; [exact Hall'|].
        intros q Hq. cbn in *. now rewrite deref_app_l.
      * rewrite <- app_assoc. rewrite flat_map_cons_eq. do 2 f_equal.
        apply flat_map_ext_Forall. eapply Forall_impl; [exact Hall'|].
        intros q Hq. rewrite name_of_updated. unfold name_of.
        cbn in *. now rewrite deref_app_l.
    + rewrite children_updated, length_insert. lia.
    + rewrite children_updated, heap_updated.
      rewrite drop_insert_lt by lia. rewrite length_app. cbn [length].
      eapply Forall_impl; [exact Hall'|]. intros; cbn in *; lia.
Qed.

Lemma restartRestForOne_eq now exit s i :
  wired s →
  find_index (heap s) (Name (spec (deref (heap s) (exit_child exit))))
             (children s) 0 = Some i →
  restartRestForOne now exit s
  = Some (updated s
            (take i (children s)
               ++ seq (length (heap s)) (length (children s) - i))
            (remap (stop_heap (drop i (children s)) (heap s)) (drop i (children s))
                   (length (heap s)) (childMap s))
            (stop_heap (drop i (children s)) (heap s)
               ++ map (fun p => bumped (deref (stop_heap (drop i (children s)) (heap s)) p))
                      (drop i (children s)))
            (events s
               ++ flat_map (fun p => restart_events now (name_of s p))
                           (drop i (children s))),
          None).
Proof.
  intros Hw Hfi. unfold restartRestForOne. rewrite Hfi.
  apply find_index_lt in Hfi.
  rewrite stop_each_eq
    by (apply Forall_drop; eapply Forall_impl; [exact Hw|];
        intros q [_ Hq]; exact Hq).
  cbn [mbind option_bind].
  set (h1 := stop_heap (drop i (children s)) (heap s)).
  rewrite restart_loop_eq; cbn [children heap with_heap].
  - rewrite <- (stop_heap_length (drop i (children s)) (heap s)). fold h1.
    unfold updated, with_events, with_children, with_heap. cbn. do 3 f_equal.
    f_equal. apply flat_map_ext_Forall. apply Forall_forall. intros q _.
    unfold name_of. cbn. subst h1.
    now destruct (stop_heap_same (drop i (children s)) (heap s) q) as [-> _].
  - lia.
  - subst h1. rewrite stop_heap_length. apply Forall_drop.
    eapply Forall_impl; [exact Hw|]. intros q [Hq _]; exact Hq.
Qed.

(** Every strategy keeps a well-formed state well-formed, provided the
    exit is that of a registered record. *)
Lemma executeStrategy_well_formed now exit s :
  well_formed s → exit_child exit ∈ children s →
  ∃ s' e, executeStrategy now exit s = Some (s', e) ∧ well_formed s' ∧
          restartHistory s' = restartHistory s ∧ same_config s s' ∧
          s_stopped s' = s_stopped s ∧ finalErr s' = finalErr s ∧
          cancelled s' = cancelled s ∧ done s' = done s ∧
          (e = None ∨ (e = Some (ErrUnknownStrategy (strategy s)) ∧ ¬ valid_strategy s)).
Proof.
  intros Hwf Hin. pose proof Hwf as (Hc & Hnd & Hw).
  assert (childMap s !! Name (spec (deref (heap s) (exit_child exit)))
          = Some (exit_child exit)) as Hm by (apply Hc; auto).
  assert (∃ s', restartOne now exit s = (s', None) ∧ well_formed s' ∧
                restartHistory s' = restartHistory s ∧ same_config s s' ∧
                s_stopped s' = s_stopped s ∧ finalErr s' = finalErr s ∧
                cancelled s' = cancelled s ∧ done s' = done s) as Hone.
  { rewrite restartOne_eq.
    destruct (well_formed_swap s _ (exit_child exit) (heap s)
                (bumped (deref (heap s) (exit_child exit)))
                (events s ++ restart_events now
                   (Name (spec (deref (heap s) (exit_child exit))))) Hwf Hm)
      as [Hrep Hwf']; [reflexivity|auto|reflexivity|reflexivity|].
    rewrite Hrep. eexists. split; [reflexivity|]. split; [exact Hwf'|].
    repeat split. }
  unfold executeStrategy. repeat case_decide.
  - destruct Hone as (s' & -> & ?). exists s', None. intuition.
  - rewrite restartAll_eq by assumption. eexists. eexists. split; [reflexivity|].
    split; [|repeat split; auto].
    pose proof (well_formed_remap s 0 (stop_heap (children s) (heap s))
                  (events s ++ flat_map (fun p => restart_events now (name_of s p))
                                        (children s)) Hwf) as Hrm.
    rewrite stop_heap_length, drop_0, take_0, Nat.sub_0_r in Hrm. cbn [app] in Hrm.
    assert (map (fun p => bumped (deref (stop_heap (children s) (heap s)) p)) (children s)
            = map (fun p => bumped (deref (heap s) p)) (children s)) as Hmap.
    { apply map_ext_Forall. apply Forall_forall. intros q _. unfold bumped.
      destruct (stop_heap_fields (children s) (heap s) q) as (-> & _ & _ & ->).
      reflexivity. }
    rewrite Hmap in Hrm. apply Hrm; [lia|reflexivity|apply stop_heap_same].
  - destruct (find_index (heap s) (Name (spec (deref (heap s) (exit_child exit))))
                (children s) 0) as [i|] eqn:Hfi.
    + rewrite (restartRestForOne_eq now exit s i) by assumption.
      eexists. eexists. split; [reflexivity|]. split; [|repeat split; auto].
      pose proof (find_index_lt _ _ _ _ _ Hfi) as Hi.
      pose proof (well_formed_remap s i (stop_heap (drop i (children s)) (heap s))
                    (events s ++ flat_map (fun p => restart_events now (name_of s p))
                                          (drop i (children s))) Hwf) as Hrm.
      rewrite stop_heap_length in Hrm.
      apply Hrm; [lia|reflexivity|apply stop_heap_same].
    + unfold restartRestForOne. rewrite Hfi. exists s, None.
      split; [reflexivity|]. split; [exact Hwf|]. repeat split; auto.
  - destruct Hone as (s' & -> & ?). exists s', None. intuition.
  - exists s, (Some (ErrUnknownStrategy (strategy s))). split; [reflexivity|].
    split; [assumption|]. repeat split; auto. right. split; [reflexivity|].
    unfold valid_strategy. intuition.
Qed.

Lemma well_formed_two_workers : well_formed two_workers.
Proof. do 2 apply doAddChild_well_formed. apply well_formed_New. Qed.





(* ===================================================================== *)
(** * The loop on well-formed states                                      *)
(* ===================================================================== *)

Lemma well_formed_ext s s' :
  children s' = children s → childMap s' = childMap s →
  length (heap s') = length (heap s) →
  (∀ q, spec (deref (heap s') q) = spec (deref (heap s) q) ∧
        cancel (deref (heap s') q) = cancel (deref (heap s) q)) →
  well_formed s → well_formed s'.
Proof.
  intros Hcs Hm Hlen Hsame (Hc & Hnd & Hw). split; [|split].
  - intros nm p. unfold name_of. rewrite Hm, Hcs, (proj1 (Hsame p)). apply Hc.
  - now rewrite Hcs.
  - unfold wired. rewrite Hcs, Hlen. eapply Forall_impl; [exact Hw|].
    intros p [? ?]. cbn. rewrite (proj2 (Hsame p)). auto.
Qed.

Lemma same_control_refl s : same_control s s.
Proof. repeat split. Qed.

Lemma same_control_updated s cs m h es : same_control s (updated s cs m h es).
Proof. repeat split. Qed.

Lemma run_return_eq s :
  wired s →
  run_return s = Some (with_done (with_heap (stop_heap (children s) (heap s)) s)).
Proof.
  intros Hw. unfold run_return, shutdownChildren.
  rewrite stop_each_eq
    by (eapply Forall_impl; [exact Hw|]; intros q [_ Hq]; exact Hq).
  reflexivity.
Qed.

Lemma handleCommand_well_formed now cmd s :
  well_formed s → (action cmd = "add" → is_Some (cmd_spec cmd)) →
  ∃ s' e, handleCommand now cmd s = Some (s', e) ∧ well_formed s' ∧
          same_control s s' ∧ restartHistory s' = restartHistory s.
Proof.
  intros Hwf Hadd. unfold handleCommand. repeat case_decide.
  - destruct (Hadd ltac:(assumption)) as [sp ->]. cbn [mbind option_bind].
    exists (fst (doAddChild now sp s)), (snd (doAddChild now sp s)).
    split; [now destruct (doAddChild now sp s)|].
    split; [now apply doAddChild_well_formed|].
    unfold doAddChild. destruct (s_stopped s); [repeat split|].
    case_decide; repeat split.
  - destruct (childMap s !! cmd_name cmd) as [ch|] eqn:Hm.
    + destruct (registered_wired s _ ch Hwf Hm) as (Hin & Hnm & Hlt & Hc).
      rewrite (doRemoveChild_eq _ s ch) by assumption.
      eexists. eexists. split; [reflexivity|]. split; [|repeat split].
      apply well_formed_unregister; try assumption.
      * apply length_insert.
      * intros q. apply deref_stopped_fields.
    + unfold doRemoveChild. rewrite Hm. exists s, (Some ErrChildNotFound).
      split; [reflexivity|]. split; [assumption|]. repeat split.
  - destruct (childMap s !! cmd_name cmd) as [ch|] eqn:Hm.
    + destruct (registered_wired s _ ch Hwf Hm) as (Hin & Hnm & Hlt & Hc).
      rewrite (doRestartChild_eq now _ s ch) by assumption.
      eexists. eexists. split; [reflexivity|]. split; [|repeat split].
      set (h1 := <[ch := set_stopped (deref (heap s) ch)]> (heap s)).
      assert (length h1 = length (heap s)) as Hlen by apply length_insert.
      destruct (well_formed_swap s (cmd_name cmd) ch h1
                  (fresh_child (spec (deref (heap s) ch)))
                  (events s ++ [started_event now (Name (spec (deref (heap s) ch)))])
                  Hwf Hm Hlen)
        as [Hrep Hwf']; [intros q; apply deref_stopped_fields|exact Hnm|reflexivity|].
      rewrite <- Hlen, Hrep. exact Hwf'.
    + unfold doRestartChild. rewrite Hm. exists s, (Some ErrChildNotFound).
      split; [reflexivity|]. split; [assumption|]. repeat split.
  - exists s, None. split; [reflexivity|]. split; [assumption|]. repeat split.
Qed.

Section LoopInvariant.
Context {P : Platform}.

Lemma handleChildExit_well_formed now rnd exit s :
  well_formed s → exit_child exit ∈ children s →
  ∃ s' e, handleChildExit now rnd exit s = Some (s', e) ∧ well_formed s' ∧
          same_control s s' ∧
          (e = None ∨ loop_error (strategy s) e).
Proof.
  intros Hwf Hin. unfold handleChildExit.
  set (s0 := emitEvent (exit_event now s exit) s).
  assert (well_formed s0) as Hwf0
    by (apply (well_formed_ext s); auto).
  destruct (shouldRestart s0 exit).
  - cbn [negb].
    destruct (checkRestartIntensity now s0) as [s1 ok] eqn:Hck.
    unfold checkRestartIntensity in Hck. injection Hck as <- <-.
    set (s1 := with_restartHistory _ s0).
    assert (well_formed s1) as Hwf1 by (apply (well_formed_ext s0); auto).
    match goal with |- context [negb (?a <=? ?b)] => destruct (a <=? b) end.
    + cbn [negb].
      match goal with
      | |- context [executeStrategy ?n exit s1] =>
          destruct (executeStrategy_well_formed n exit s1 Hwf1 Hin)
            as (s' & e & -> & Hwf' & _ & Hcfg & Hst & Hfe & Hca & Hdo & He)
      end.
      exists s', e. split; [reflexivity|]. split; [assumption|].
      split; [repeat split; try apply Hcfg; assumption|].
      destruct He as [->|[-> _]]; [now left|right; now right].
    + cbn [negb]. eexists. eexists. split; [reflexivity|].
      split; [apply (well_formed_ext s1); auto|].
      split; [repeat split|]. right. now left.
  - cbn [negb]. exists s0, None. split; [reflexivity|].
    split; [assumption|]. split; [repeat split|now left].
Qed.

Lemma well_formed_run_return s :
  well_formed s →
  ∃ s', run_return s = Some s' ∧ well_formed s' ∧ same_config s s' ∧
        done s' = true ∧ finalErr s' = finalErr s ∧ s_stopped s' = s_stopped s.
Proof.
  intros Hwf. pose proof Hwf as (_ & _ & Hw).
  rewrite run_return_eq by assumption. eexists. split; [reflexivity|].
  split; [|repeat split].
  apply (well_formed_ext s); auto.
  - cbn. apply stop_heap_length.
  - intros q. cbn. apply stop_heap_same.
Qed.

Lemma run_step_well_formed now rnd i s :
  well_formed s → admissible i s →
  ∃ s' r, run_step now rnd i s = Some (s', r) ∧ well_formed s' ∧ same_config s s'.
Proof.
  intros Hwf Hadm. unfold run_step.
  destruct (done s);
    [exists s, None; split; [reflexivity|]; split; [assumption|]; repeat split|].
  destruct i as [|cmd|exit]; cbn [admissible] in Hadm.
  - destruct (cancelled s).
    + match goal with
      | |- context [run_return ?s0] =>
          destruct (well_formed_run_return s0) as (s' & -> & Hwf' & Hcfg & _)
      end; [apply (well_formed_ext s); auto|].
      exists s', None. auto.
    + exists s, None. split; [reflexivity|]. split; [assumption|]. repeat split.
  - destruct (handleCommand_well_formed now cmd s Hwf Hadm)
      as (s' & e & -> & Hwf' & [Hcfg _] & _).
    exists s', (Some e). auto.
  - destruct (handleChildExit_well_formed now rnd exit s Hwf Hadm)
      as (s' & e & -> & Hwf' & [Hcfg _] & He).
    cbn [mbind option_bind]. destruct e as [e|].
    + destruct (well_formed_run_return (with_fatal e s')) as (s2 & -> & Hwf2 & Hcfg2 & _);
        [apply (well_formed_ext s'); auto|].
      exists s2, None. split; [reflexivity|]. split; [assumption|].
      unfold same_config in *. cbn in Hcfg2. intuition congruence.
    + exists s', None. auto.
Qed.

(** X7. The loop on a well-formed state, fed with commands and with the
    exits of records that are registered when they arrive: no iteration
    panics (no nil cancel function is called), every state on the way is
    well-formed, that is, sequence and index agree, and the configuration
    is never written. *)
Theorem run_keeps_well_formed ins : ∀ s,
  well_formed s → admissible_all ins s →
  ∃ s', run ins s = Some s' ∧ well_formed s' ∧ same_config s s'.
Proof.
  induction ins as [|[[now rnd] i] ins IH]; intros s Hwf Hadm.
  - exists s. split; [reflexivity|]. split; [assumption|]. repeat split.
  - cbn [admissible_all] in Hadm. destruct Hadm as [Hi Hnext].
    destruct (run_step_well_formed now rnd i s Hwf Hi) as (s1 & r & Hs & Hwf1 & Hcfg1).
    destruct (IH s1 Hwf1 (Hnext s1 r Hs)) as (s2 & Hrun & Hwf2 & Hcfg2).
    exists s2. cbn [run]. rewrite Hs. cbn [mbind option_bind].
    split; [assumption|]. split; [assumption|].
    unfold same_config in *. intuition congruence.
Qed.
End LoopInvariant.

Lemma run_keeps_well_formed_witness :
  ∃ s',
    run (P := amd64)
      [(5, [], recvExit (failed 0%nat));
       (6, [], recvCommand {| action := "remove"; cmd_spec := None; cmd_name := "w" |})]
      one_worker = Some s' ∧
    well_formed s' ∧ same_config one_worker s'.
Proof.
  apply (run_keeps_well_formed (P := amd64)
           [(5, [], recvExit (failed 0%nat));
            (6, [], recvCommand {| action := "remove"; cmd_spec := None;
                                   cmd_name := "w" |})]
           one_worker).
  - apply well_formed_one_worker.
  - split; [vm_compute; constructor|].
    intros s' r _. split; [discriminate|]. intros; exact I.
Defined.

(* ===================================================================== *)
(** * Start and Stop                                                      *)
(* ===================================================================== *)

Lemma start_loop_eq now l : ∀ s,
  fold_left (fun s ch => fst (startChild now ch s)) l s
  = with_events (events s ++ map (fun p => started_event now (name_of s p)) l) s.
Proof.
  induction l as [|ch l IH]; intros s.
  - cbn. rewrite app_nil_r. now destruct s.
  - cbn [fold_left map]. rewrite IH.
    unfold startChild, emitEvent, name_of, with_events. cbn.
    rewrite <- app_assoc. reflexivity.
Qed.

(** X8. [Start] on a supervisor whose stopped flag is set returns
    ErrSupervisorStopped and does nothing. Otherwise it emits one
    ChildStarted per registered record, in the order of the sequence,
    writes nothing else and returns nil; it keeps no note of having run, so
    a second [Start] starts every child once more. *)
Theorem Start_starts_in_order now s :
  Start now s
  = (if s_stopped s then (s, Some ErrSupervisorStopped)
     else (with_events
             (events s ++ map (fun p => started_event now (name_of s p)) (children s))
             s, None)) ∧
  ∀ now', s_stopped s = false →
    Start now' (fst (Start now s))
    = (with_events
         (events s ++ map (fun p => started_event now (name_of s p)) (children s)
                   ++ map (fun p => started_event now' (name_of s p)) (children s))
         s, None).
Proof.
  assert (Start now s
          = (if s_stopped s then (s, Some ErrSupervisorStopped)
             else (with_events
                     (events s ++ map (fun p => started_event now (name_of s p))
                                      (children s)) s, None))) as Heq.
  { unfold Start. destruct (s_stopped s); [reflexivity|]. now rewrite start_loop_eq. }
  split; [exact Heq|].
  intros now' Hs. rewrite Heq, Hs. cbn [fst]. unfold Start.
  cbn [s_stopped with_events children]. rewrite Hs, start_loop_eq.
  unfold with_events, name_of. cbn. now rewrite <- app_assoc.
Qed.

Section StopAndWait.
Context {P : Platform}.

(** X9. [Stop] on a running supervisor whose registered records were all
    built by [newChild]: the loop emits SupervisorStopping, stops every
    registered record and closes [done]; [Stop] returns the final error
    recorded so far, and leaves sequence, index and the stopped flag of the
    supervisor as they were. [Wait] then returns the same error, and so
    does a second [Stop], which changes nothing. *)
Theorem Stop_stops_every_child now s :
  wired s → done s = false →
  ∃ s',
    Stop now s = Some (s', finalErr s) ∧
    done s' = true ∧ cancelled s' = true ∧ s_stopped s' = s_stopped s ∧
    children s' = children s ∧ childMap s' = childMap s ∧
    Forall (fun p => isStopped p s' = true) (children s') ∧
    events s' = events s ++ [stopping_event now] ∧
    Wait s' = Returns (finalErr s) ∧
    ∀ now', Stop now' s' = Some (s', finalErr s).
Proof.
  intros Hw Hd. unfold Stop, run_step.
  cbn [done with_cancelled cancelled]. rewrite Hd.
  rewrite run_return_eq by exact Hw.
  cbn [mbind option_bind]. eexists. split; [reflexivity|].
  do 5 (split; [reflexivity|]). split; [|split; [reflexivity|]].
  - apply Forall_forall. intros p Hp. cbn [children with_done with_heap] in Hp.
    unfold isStopped. cbn [heap with_done with_heap].
    cbn [children emitEvent with_events with_cancelled] in Hp |- *.
    destruct (wired_elem s p Hw Hp) as [Hlt _].
    cbn [heap emitEvent with_events with_cancelled].
    now rewrite stop_heap_stopped.
  - split; [reflexivity|]. intros now'. reflexivity.
Qed.

Lemma stop_each_unwired chs : ∀ s,
  Exists (fun p => cancel (deref (heap s) p) = false) chs → stop_each chs s = None.
Proof.
  induction chs as [|ch chs IH]; intros s Hex; [inversion Hex|].
  cbn [stop_each]. unfold stop at 1.
  destruct (cancel (deref (heap s) ch)) eqn:Hc; [|reflexivity].
  cbn [mbind option_bind]. apply IH.
  inversion Hex as [? ? Hh|? ? Ht]; subst; [congruence|].
  eapply Exists_impl; [exact Ht|]. intros q Hq. cbn.
  now rewrite (proj2 (deref_stopped_fields (heap s) ch q)).
Qed.
End StopAndWait.

Lemma WithChildren_cons sp specs s :
  WithChildren (sp :: specs) s
  = WithChildren specs
      (updated s (children s ++ [length (heap s)])
         (<[Name sp := length (heap s)]> (childMap s))
         (heap s ++ [literal_child sp]) (events s)).
Proof. reflexivity. Qed.

Lemma WithChildren_eq specs : ∀ s,
  ∃ m,
    WithChildren specs s
    = updated s (children s ++ seq (length (heap s)) (length specs)) m
        (heap s ++ map literal_child specs) (events s) ∧
    (∀ nm, nm ∉ map Name specs → m !! nm = childMap s !! nm) ∧
    (∀ sp, sp ∈ specs →
       ∃ i, (i < length specs)%nat ∧ m !! Name sp = Some (length (heap s) + i)%nat).
Proof.
  induction specs as [|sp specs IH]; intros s.
  - exists (childMap s). cbn. rewrite !app_nil_r, updated_self.
    split; [reflexivity|]. split; [reflexivity|]. intros sp Hsp. inversion Hsp.
  - rewrite WithChildren_cons.
    match goal with |- context [WithChildren specs ?s1] =>
      destruct (IH s1) as (m & -> & Hout & Hin) end.
    rewrite children_updated, heap_updated, childMap_updated, events_updated in *.
    rewrite length_app in *. cbn [length] in *.
    exists m. split; [|split].
    + rewrite updated_updated, <- !app_assoc. cbn [app map seq length].
      now replace (length (heap s) + 1)%nat with (S (length (heap s))) by lia.
    + intros nm Hnm. cbn [map] in Hnm. apply not_elem_of_cons in Hnm as [Hne Hnm].
      rewrite (Hout nm Hnm). now rewrite lookup_insert_ne.
    + intros sp' Hsp'.
      destruct (decide (Name sp' ∈ map Name specs)) as [Hl|Hl].
      * apply list_elem_of_fmap in Hl as (sp2 & Heq & Hsp2).
        destruct (Hin sp2 Hsp2) as (i & Hi & Hm).
        exists (S i). split; [lia|]. rewrite Heq, Hm. f_equal. lia.
      * apply elem_of_cons in Hsp' as [->|Hsp'].
        -- exists 0%nat. split; [lia|]. rewrite (Hout _ Hl), lookup_insert_eq.
           f_equal. lia.
        -- exfalso. apply Hl. apply list_elem_of_fmap. eauto.
Qed.

Section LiteralChildren.
Context {P : Platform}.

(** X10. The records [WithChildren] registers are struct literals without
    a cancel function. [Start] on such a supervisor returns nil, but every
    operation that stops one of the records calls the nil function: [Stop]
    (through [shutdownChildren]), and [RemoveChild] and [RestartChild] of
    any of the names, panic. *)
Theorem WithChildren_records_cannot_be_stopped now strat specs :
  specs ≠ [] →
  children (New strat [WithChildren specs]) = seq 0 (length specs) ∧
  heap (New strat [WithChildren specs]) = map literal_child specs ∧
  snd (Start now (New strat [WithChildren specs])) = None ∧
  Stop now (New strat [WithChildren specs]) = None ∧
  ∀ sp, sp ∈ specs →
    RemoveChild now (Name sp) (New strat [WithChildren specs]) = None ∧
    RestartChild now (Name sp) (New strat [WithChildren specs]) = None.
Proof.
  intros Hne. unfold New. cbn [fold_left].
  match goal with |- context [WithChildren specs ?s0] =>
    destruct (WithChildren_eq specs s0) as (m & -> & _ & Hin) end.
  cbn [children heap length app] in Hin |- *.
  rewrite children_updated, heap_updated.
  split; [reflexivity|]. split; [reflexivity|]. split; [reflexivity|].
  assert (∀ i, (i < length specs)%nat →
               cancel (deref (map literal_child specs) i) = false) as Hlit.
  { intros i Hi. destruct (lookup_lt_is_Some_2 specs i Hi) as [sp Hsp].
    unfold deref. now rewrite list_lookup_fmap, Hsp. }
  split.
  - unfold Stop, run_step. cbn [done with_cancelled cancelled updated with_events
                                with_children with_heap].
    unfold run_return, shutdownChildren. rewrite stop_each_unwired; [reflexivity|].
    cbn [children heap emitEvent with_events].
    destruct specs as [|sp specs]; [contradiction|]. cbn [length seq].
    apply Exists_cons_hd. reflexivity.
  - intros sp Hsp. destruct (Hin sp Hsp) as (i & Hi & Hm). cbn in Hm.
    rewrite RemoveChild_eq, RestartChild_eq by reflexivity.
    unfold doRemoveChild, doRestartChild. rewrite childMap_updated, Hm.
    unfold stop. rewrite heap_updated, (Hlit i Hi). split; reflexivity.
Qed.
End LiteralChildren.

Lemma Stop_stops_every_child_witness :
  ∃ s',
    Stop (P := amd64) 9 two_workers = Some (s', finalErr two_workers) ∧
    done s' = true ∧ cancelled s' = true ∧ s_stopped s' = s_stopped two_workers ∧
    children s' = children two_workers ∧ childMap s' = childMap two_workers ∧
    Forall (fun p => isStopped p s' = true) (children s') ∧
    events s' = events two_workers ++ [stopping_event 9] ∧
    Wait s' = Returns (finalErr two_workers) ∧
    ∀ now', Stop (P := amd64) now' s' = Some (s', finalErr two_workers).
Proof.
  apply (Stop_stops_every_child (P := amd64) 9 two_workers).
  - apply well_formed_two_workers.
  - reflexivity.
Defined.

Lemma WithChildren_records_cannot_be_stopped_witness :
  children (New OneForOne [WithChildren [worker]]) = seq 0 (length [worker]) ∧
  heap (New OneForOne [WithChildren [worker]]) = map literal_child [worker] ∧
  snd (Start 1 (New OneForOne [WithChildren [worker]])) = None ∧
  Stop (P := amd64) 1 (New OneForOne [WithChildren [worker]]) = None ∧
  ∀ sp, sp ∈ [worker] →
    RemoveChild (P := amd64) 1 (Name sp) (New OneForOne [WithChildren [worker]]) = None ∧
    RestartChild (P := amd64) 1 (Name sp) (New OneForOne [WithChildren [worker]]) = None.
Proof.
  apply (WithChildren_records_cannot_be_stopped (P := amd64) 1 OneForOne [worker]).
  discriminate.
Defined.

(* ===================================================================== *)
(** * The intensity check on any history                                  *)
(* ===================================================================== *)

Lemma find_start_bound cutoff h : ∀ i,
  find_start cutoff h i = 0%nat ∨ (i ≤ find_start cutoff h i < i + length h)%nat.
Proof.
  induction h as [|t h IH]; intros i; [now left|].
  cbn [find_start length]. destruct (cutoff <? t).
  - right. lia.
  - destruct (IH (S i)) as [->|?]; [now left|right; lia].
Qed.

Lemma checkRestartIntensity_keeps_newest_aux now s :
  (restartHistory (fst (checkRestartIntensity now s))
   = drop (find_start (now - restartWindow s) (restartHistory s ++ [now]) 0)
          (restartHistory s) ++ [now] ∧
   (find_start (now - restartWindow s) (restartHistory s ++ [now]) 0
      ≤ length (restartHistory s))%nat) ∧
  (maxRestarts s <= 0 → snd (checkRestartIntensity now s) = false).
Proof.
  unfold checkRestartIntensity. cbn [fst snd restartHistory with_restartHistory].
  set (start := find_start _ _ _).
  assert (start ≤ length (restartHistory s))%nat as Hstart.
  { subst start.
    destruct (find_start_bound (now - restartWindow s) (restartHistory s ++ [now]) 0)
      as [->|H]; [lia|]. rewrite length_app in H. cbn in H. lia. }
  rewrite drop_app_le by assumption. split; [auto|].
  intros Hmax. apply Z.leb_gt. rewrite length_app. cbn [length]. lia.
Qed.

(** X11. Whatever the window and the history, the intensity check leaves
    a history that ends with the current reading, and that is a suffix of
    the old history with the reading appended. The retained count is
    therefore at least one, and with a budget of zero (or less) restarts
    the check fails for every exit. *)
Theorem checkRestartIntensity_keeps_newest now s :
  last (restartHistory (fst (checkRestartIntensity now s))) = Some now ∧
  (∃ older,
     restartHistory s ++ [now]
       = older ++ restartHistory (fst (checkRestartIntensity now s))) ∧
  (maxRestarts s <= 0 → snd (checkRestartIntensity now s) = false).
Proof.
  destruct (checkRestartIntensity_keeps_newest_aux now s) as [[-> Hstart] Hmax].
  split; [apply last_snoc|]. split; [|exact Hmax].
  exists (take (find_start (now - restartWindow s) (restartHistory s ++ [now]) 0)
               (restartHistory s)).
  now rewrite app_assoc, take_drop.
Qed.

(* ===================================================================== *)
(** * What the handlers write                                             *)
(* ===================================================================== *)

Lemma frames_refl s : frames s s.
Proof. exists (children s), (childMap s), (heap s), (events s). symmetry. apply updated_self. Qed.

Lemma frames_trans s s1 s2 : frames s s1 → frames s1 s2 → frames s s2.
Proof.
  intros (cs & m & h & es & ->) (cs' & m' & h' & es' & ->).
  exists cs', m', h', es'. apply updated_updated.
Qed.

Lemma frames_updated s cs m h es : frames s (updated s cs m h es).
Proof. now exists cs, m, h, es. Qed.

Lemma frames_control s s' :
  frames s s' → same_control s s' ∧ restartHistory s' = restartHistory s.
Proof. intros (cs & m & h & es & ->). repeat split. Qed.

Lemma frames_stop p s s' : stop p s = Some s' → frames s s'.
Proof.
  unfold stop. destruct (cancel _); [|discriminate]. intros [= <-].
  apply (frames_updated s (children s) (childMap s) _ (events s)).
Qed.

Lemma frames_stop_each chs : ∀ s s', stop_each chs s = Some s' → frames s s'.
Proof.
  induction chs as [|ch chs IH]; intros s s'; cbn [stop_each].
  - intros [= <-]. apply frames_refl.
  - destruct (stop ch s) as [s1|] eqn:Hs; [|discriminate]. cbn [mbind option_bind].
    intros H. eapply frames_trans; [eapply frames_stop; exact Hs|now apply IH].
Qed.

Lemma frames_restartOne now exit s : frames s (fst (restartOne now exit s)).
Proof. rewrite restartOne_eq. apply frames_updated. Qed.

Lemma frames_replace_child l : ∀ acc s,
  frames s (snd (fold_left replace_child l (acc, s))).
Proof.
  induction l as [|ch l IH]; intros acc s; [apply frames_refl|].
  cbn [fold_left]. unfold replace_child at 2. rewrite newChild_bumped_eq.
  eapply frames_trans; [|apply IH].
  exists (children s),
         (<[Name (spec (deref (heap s) ch)) := length (heap s)]> (childMap s)),
         (heap s ++ [bumped (deref (heap s) ch)]), (events s).
  reflexivity.
Qed.

Lemma frames_restart_at now i s : frames s (restart_at now i s).
Proof.
  unfold restart_at. rewrite newChild_bumped_eq.
  unfold startChild, emitEvent. cbn.
  eexists _, _, _, _. reflexivity.
Qed.

Lemma frames_restart_loop now l : ∀ s,
  frames s (fold_left (fun s i => restart_at now i s) l s).
Proof.
  induction l as [|i l IH]; intros s; [apply frames_refl|].
  cbn [fold_left]. eapply frames_trans; [apply frames_restart_at|apply IH].
Qed.

Lemma frames_restartAll now s s' e :
  restartAll now s = Some (s', e) → frames s s' ∧ e = None.
Proof.
  unfold restartAll. destruct (stop_each (children s) s) as [s1|] eqn:Hs; [|discriminate].
  cbn [mbind option_bind]. apply frames_stop_each in Hs.
  pose proof (frames_replace_child (children s1) [] s1) as Hr.
  destruct (fold_left replace_child (children s1) ([], s1)) as [news s2].
  cbn [snd] in Hr. rewrite restartAll_start_eq. intros [= <- <-]. split; [|reflexivity].
  eapply frames_trans; [exact Hs|]. eapply frames_trans; [exact Hr|].
  eexists _, _, _, _. reflexivity.
Qed.

Lemma frames_restartRestForOne now exit s s' e :
  restartRestForOne now exit s = Some (s', e) → frames s s' ∧ e = None.
Proof.
  unfold restartRestForOne. destruct (find_index _ _ _ _) as [i|].
  - destruct (stop_each _ s) as [s1|] eqn:Hs; [|discriminate].
    cbn [mbind option_bind]. apply frames_stop_each in Hs.
    intros [= <- <-]. split; [|reflexivity].
    eapply frames_trans; [exact Hs|apply frames_restart_loop].
  - intros [= <- <-]. split; [apply frames_refl|reflexivity].
Qed.

Lemma frames_executeStrategy now exit s s' e :
  executeStrategy now exit s = Some (s', e) →
  frames s s' ∧ (e = None ∨ e = Some (ErrUnknownStrategy (strategy s))).
Proof.
  unfold executeStrategy. repeat case_decide.
  - intros Heq. assert (restartOne now exit s = (s', e)) as Heq' by congruence.
    pose proof (frames_restartOne now exit s) as Hf. rewrite Heq' in Hf.
    split; [exact Hf|]. left. rewrite restartOne_eq in Heq'. congruence.
  - intros H'. apply frames_restartAll in H' as [? ->]. auto.
  - intros H'. apply frames_restartRestForOne in H' as [? ->]. auto.
  - intros Heq. assert (restartOne now exit s = (s', e)) as Heq' by congruence.
    pose proof (frames_restartOne now exit s) as Hf. rewrite Heq' in Hf.
    split; [exact Hf|]. left. rewrite restartOne_eq in Heq'. congruence.
  - intros [= <- <-]. split; [apply frames_refl|now right].
Qed.

Lemma frames_handleCommand now cmd s s' e :
  handleCommand now cmd s = Some (s', e) → frames s s'.
Proof.
  unfold handleCommand. repeat case_decide.
  - destruct (cmd_spec cmd) as [sp|]; [|discriminate]. cbn [mbind option_bind].
    intros [= Heq]. revert Heq. unfold doAddChild.
    destruct (s_stopped s); [intros [= <- _]; apply frames_refl|].
    case_decide; [intros [= <- _]; apply frames_refl|].
    unfold newChild, startChild, emitEvent. cbn. intros [= <- _].
    eexists _, _, _, _. reflexivity.
  - unfold doRemoveChild. destruct (childMap s !! cmd_name cmd) as [ch|].
    + destruct (stop ch s) as [s1|] eqn:Hs; [|discriminate].
      cbn [mbind option_bind]. intros [= <- _].
      eapply frames_trans; [eapply frames_stop; exact Hs|].
      apply (frames_updated s1 _ _ (heap s1) (events s1)).
    + intros [= <- _]. apply frames_refl.
  - unfold doRestartChild. destruct (childMap s !! cmd_name cmd) as [ch|].
    + destruct (stop ch s) as [s1|] eqn:Hs; [|discriminate].
      cbn [mbind option_bind]. unfold newChild, startChild, emitEvent. cbn.
      intros [= <- _].
      eapply frames_trans; [eapply frames_stop; exact Hs|].
      eexists _, _, _, _. reflexivity.
    + intros [= <- _]. apply frames_refl.
  - intros [= <- _]. apply frames_refl.
Qed.

Lemma with_restartHistory_self s : with_restartHistory (restartHistory s) s = s.
Proof. now destruct s. Qed.

Section Control.
Context {P : Platform}.

Lemma frames_handleChildExit now rnd exit s s' e :
  handleChildExit now rnd exit s = Some (s', e) →
  same_control s s' ∧ (e = None ∨ loop_error (strategy s) e).
Proof.
  unfold handleChildExit.
  destruct (shouldRestart _ exit); cbn [negb].
  - destruct (checkRestartIntensity now _) as [s1 ok] eqn:Hck.
    unfold checkRestartIntensity in Hck. injection Hck as <- <-.
    match goal with |- context [negb ?b] => destruct b end; cbn [negb].
    + intros Hex. apply frames_executeStrategy in Hex as [(cs & m & h & es & ->) He].
      split; [repeat split|]. destruct He as [->| ->]; [now left|right; now right].
    + intros [= <- <-]. split; [repeat split|]. right. now left.
  - intros [= <- <-]. split; [repeat split|now left].
Qed.

Lemma run_return_control s s' :
  run_return s = Some s' →
  same_config s s' ∧ finalErr s' = finalErr s ∧ s_stopped s' = s_stopped s ∧
  cancelled s' = cancelled s ∧ done s' = true.
Proof.
  unfold run_return, shutdownChildren.
  destruct (stop_each (children s) s) as [s1|] eqn:Hs; [|discriminate].
  cbn [mbind option_bind]. intros [= <-].
  apply frames_stop_each in Hs as (cs & m & h & es & ->). repeat split.
Qed.

Lemma run_step_control now rnd i s s' r :
  run_step now rnd i s = Some (s', r) → control_after s s'.
Proof.
  unfold run_step. destruct (done s) eqn:Hd.
  { intros [= <- <-]. split; [repeat split|]. split; [reflexivity|]. left. auto. }
  assert (∀ s1, same_control s s1 → control_after s s1) as Hsame.
  { intros s1 (Hcfg & Hst & Hfe & _). split; [assumption|].
    split; [congruence|]. left. auto. }
  destruct i as [|cmd|exit].
  - destruct (cancelled s) eqn:Hc.
    + destruct (run_return _) as [s1|] eqn:Hr; [|discriminate].
      cbn [mbind option_bind]. intros [= <- <-].
      apply run_return_control in Hr as (Hcfg & Hfe & Hst & _).
      split; [exact Hcfg|]. split; [congruence|]. left. auto.
    + intros [= <- <-]. apply Hsame. repeat split.
  - destruct (handleCommand now cmd s) as [[s1 e]|] eqn:Hh; [|discriminate].
    cbn [mbind option_bind]. intros [= <- <-].
    apply Hsame. now apply frames_handleCommand, frames_control in Hh as [? _].
  - destruct (handleChildExit now rnd exit s) as [[s1 e]|] eqn:Hh; [|discriminate].
    cbn [mbind option_bind].
    apply frames_handleChildExit in Hh as [Hctl He].
    destruct e as [e|].
    + destruct (run_return _) as [s2|] eqn:Hr; [|discriminate].
      cbn [mbind option_bind]. intros [= <- <-].
      apply run_return_control in Hr as (Hcfg & Hfe & Hst & Hca & Hdo).
      destruct Hctl as (Hcfg1 & _).
      split; [unfold same_config in *; cbn in Hcfg; intuition congruence|].
      split; [congruence|]. right. cbn in Hfe, Hst, Hca.
      rewrite Hfe, Hst, Hca. repeat split; try assumption.
      destruct He as [?|?]; [discriminate|assumption].
    + intros [= <- <-]. now apply Hsame.
Qed.

Lemma control_after_trans s s1 s2 :
  control_after s s1 → control_after s1 s2 → control_after s s2.
Proof.
  intros (Hc1 & Hd1 & H1) (Hc2 & Hd2 & H2). split; [|split].
  - unfold same_config in *. intuition congruence.
  - intros Hd. rewrite (Hd1 Hd) in *. auto.
  - destruct H1 as [[Hf1 Hs1]|(Hd & Hd' & Hs' & Hc' & He)].
    + destruct H2 as [[Hf2 Hs2]|(Hdd & Hdd' & Hss' & Hcc' & Hee)].
      * left. split; congruence.
      * right. destruct (done s) eqn:Hds.
        -- rewrite (Hd1 eq_refl) in Hdd. congruence.
        -- destruct Hc1 as (_ & Hstrat & _). rewrite Hstrat in Hee. auto.
    + rewrite (Hd2 Hd'). right. auto.
Qed.

(** X12. Commands write only the children sequence, the Name index, the
    store of records and the event log: whatever the command and the
    state, the restart history, the stopped flag, the final error, the
    cancellation, [done] and the configuration are as before (so no
    command counts against the intensity limit), and the reply is nil,
    ErrSupervisorStopped, ErrChildAlreadyExists or ErrChildNotFound. *)
Theorem handleCommand_frame now cmd s s' e :
  handleCommand now cmd s = Some (s', e) →
  same_control s s' ∧ restartHistory s' = restartHistory s ∧
  (e = None ∨ e = Some ErrSupervisorStopped ∨ e = Some ErrChildAlreadyExists ∨
   e = Some ErrChildNotFound).
Proof.
  intros H. split; [|split].
  - now apply frames_handleCommand, frames_control in H as [? _].
  - now apply frames_handleCommand, frames_control in H as [_ ?].
  - revert H. unfold handleCommand. repeat case_decide.
    + destruct (cmd_spec cmd) as [sp|]; [|discriminate]. cbn [mbind option_bind].
      unfold doAddChild. destruct (s_stopped s); [intros [= _ <-]; auto|].
      case_decide; [intros [= _ <-]; auto|].
      unfold newChild, startChild. cbn. intros [= _ <-]. auto.
    + unfold doRemoveChild. destruct (childMap s !! cmd_name cmd).
      * destruct (stop _ s); cbn; [|discriminate]. intros [= _ <-]. auto.
      * intros [= _ <-]. auto.
    + unfold doRestartChild. destruct (childMap s !! cmd_name cmd).
      * destruct (stop _ s); cbn; [|discriminate]. intros [= _ <-]. auto.
      * intros [= _ <-]. auto.
    + intros [= _ <-]. auto.
Qed.

(** X13. Over any run of the loop, from any state: the configuration is
    never written; once the loop has returned nothing changes any more;
    and the final error is either the one from before the run or, when the
    loop returned during the run on an error, that error, which is
    ErrIntensityExceeded or the error for an unknown strategy. The error of
    a child, ErrSupervisorStopped, ErrChildNotFound, ErrChildAlreadyExists
    and ErrInvalidShutdownTimeout never become the final error. *)
Theorem run_control ins : ∀ s s',
  run ins s = Some s' → control_after s s'.
Proof.
  induction ins as [|[[now rnd] i] ins IH]; intros s s'.
  - intros [= <-]. split; [repeat split|]. split; [reflexivity|]. left. auto.
  - cbn [run]. destruct (run_step now rnd i s) as [[s1 r]|] eqn:Hs; [|discriminate].
    cbn [mbind option_bind]. intros Hrun.
    eapply control_after_trans; [eapply run_step_control; exact Hs|now apply IH].
Qed.
End Control.

Lemma handleCommand_frame_witness :
  same_control (New OneForOne []) one_worker ∧
  restartHistory one_worker = restartHistory (New OneForOne []) ∧
  ((None : option error) = None ∨ None = Some ErrSupervisorStopped ∨
   None = Some ErrChildAlreadyExists ∨ None = Some ErrChildNotFound).
Proof.
  apply (handleCommand_frame 1
           {| action := "add"; cmd_spec := Some worker; cmd_name := "" |}
           (New OneForOne []) one_worker None).
  vm_compute. reflexivity.
Defined.

Lemma run_control_witness :
  ∃ s',
    run (P := amd64) [(5, [], recvExit (failed 0%nat))] no_budget = Some s' ∧
    control_after no_budget s'.
Proof.
  eexists. split; [vm_compute; reflexivity|].
  apply (run_control (P := amd64) [(5, [], recvExit (failed 0%nat))] no_budget).
  vm_compute. reflexivity.
Defined.

(* ===================================================================== *)
(** * Errors that end the loop                                            *)
(* ===================================================================== *)

Section FatalErrors.
Context {P : Platform}.

(** X14. With a budget of zero restarts (or a negative one) the first
    exit that warrants a restart ends the supervisor, whatever the window
    and the clock: ChildExited (or ChildPanicked) and
    SupervisorFailedIntensity are emitted, no record is replaced, every
    registered record is stopped, and [Wait] returns
    ErrIntensityExceeded. *)
Theorem zero_budget_allows_no_restart now rnd e s :
  wired s → done s = false → shouldRestart s e = true → maxRestarts s <= 0 →
  ∃ s',
    run_step now rnd (recvExit e) s = Some (s', None) ∧
    Wait s' = Returns (Some ErrIntensityExceeded) ∧
    s_stopped s' = true ∧
    children s' = children s ∧ childMap s' = childMap s ∧
    Forall (fun p => isStopped p s' = true) (children s') ∧
    events s' = events s ++ [exit_event now s e;
                             intensity_event now (name_of s (exit_child e))].
Proof.
  intros Hw Hd Hr Hmax.
  destruct (checkRestartIntensity_keeps_newest_aux now s) as [_ Hok].
  specialize (Hok Hmax).
  unfold run_step. rewrite Hd.
  rewrite (handleChildExit_fatal now rnd e s Hr Hok). cbn [mbind option_bind].
  rewrite run_return_eq by exact Hw.
  cbn [mbind option_bind]. eexists. split; [reflexivity|].
  split; [reflexivity|]. split; [reflexivity|].
  split; [reflexivity|]. split; [reflexivity|]. split.
  - apply Forall_forall. intros p Hp. unfold isStopped. cbn in Hp |- *.
    destruct (wired_elem s p Hw Hp) as [Hlt _].
    now rewrite stop_heap_stopped.
  - cbn. now rewrite <- app_assoc.
Qed.

(** X15. [New] accepts any integer as the strategy. With one that is none
    of the four constants, the first exit that warrants a restart and
    passes the intensity check ends the supervisor: the restart is entered
    in the history, no record is replaced, no event follows the exit
    event, and [Wait] returns the error for an unknown strategy. *)
Theorem unknown_strategy_ends_the_loop now rnd e s :
  wired s → done s = false → ¬ valid_strategy s →
  shouldRestart s e = true → snd (checkRestartIntensity now s) = true →
  ∃ s',
    run_step now rnd (recvExit e) s = Some (s', None) ∧
    Wait s' = Returns (Some (ErrUnknownStrategy (strategy s))) ∧
    s_stopped s' = true ∧
    children s' = children s ∧ childMap s' = childMap s ∧
    restartHistory s' = restartHistory (fst (checkRestartIntensity now s)) ∧
    events s' = events s ++ [exit_event now s e].
Proof.
  intros Hw Hd Hv Hr Hok.
  destruct (handleChildExit_restart now rnd e s Hr Hok) as [now' Hh].
  unfold run_step. rewrite Hd, Hh.
  assert (∀ s1, strategy s1 = strategy s →
            executeStrategy now' e s1 = Some (s1, Some (ErrUnknownStrategy (strategy s))))
    as Hex.
  { intros s1 Hs1. unfold executeStrategy. rewrite Hs1.
    unfold valid_strategy in Hv.
    repeat (rewrite decide_False by tauto). reflexivity. }
  rewrite Hex by reflexivity. cbn [mbind option_bind].
  rewrite run_return_eq by exact Hw.
  cbn [mbind option_bind]. eexists. split; [reflexivity|].
  repeat split.
Qed.
End FatalErrors.

Lemma zero_budget_allows_no_restart_witness :
  ∃ s',
    run_step (P := amd64) 5 [] (recvExit (failed 0%nat)) no_budget = Some (s', None) ∧
    Wait s' = Returns (Some ErrIntensityExceeded) ∧
    s_stopped s' = true ∧
    children s' = children no_budget ∧ childMap s' = childMap no_budget ∧
    Forall (fun p => isStopped p s' = true) (children s') ∧
    events s' = events no_budget
                  ++ [exit_event 5 no_budget (failed 0%nat);
                      intensity_event 5 (name_of no_budget (exit_child (failed 0%nat)))].
Proof.
  apply (zero_budget_allows_no_restart (P := amd64) 5 [] (failed 0%nat) no_budget).
  - apply doAddChild_well_formed. split; [|split]; [|constructor|constructor].
    intros nm p. cbn. rewrite lookup_empty. split; [discriminate|].
    intros [H _]. inversion H.
  - reflexivity.
  - reflexivity.
  - vm_compute. discriminate.
Defined.

Lemma unknown_strategy_ends_the_loop_witness :
  ∃ s',
    run_step (P := amd64) 5 [] (recvExit (failed 0%nat)) odd_strategy = Some (s', None) ∧
    Wait s' = Returns (Some (ErrUnknownStrategy (strategy odd_strategy))) ∧
    s_stopped s' = true ∧
    children s' = children odd_strategy ∧ childMap s' = childMap odd_strategy ∧
    restartHistory s' = restartHistory (fst (checkRestartIntensity 5 odd_strategy)) ∧
    events s' = events odd_strategy ++ [exit_event 5 odd_strategy (failed 0%nat)].
Proof.
  apply (unknown_strategy_ends_the_loop (P := amd64) 5 [] (failed 0%nat) odd_strategy).
  - apply doAddChild_well_formed, well_formed_New.
  - reflexivity.
  - unfold valid_strategy. vm_compute. intuition discriminate.
  - reflexivity.
  - reflexivity.
Defined.

(* ===================================================================== *)
(** * The names of the constants                                          *)
(* ===================================================================== *)

(** X16. [Strategy.String] gives the four strategies four different
    names and every other integer the name "Unknown"; the strategies named
    "Unknown" are exactly those for which [executeStrategy] returns the
    unknown-strategy error and does nothing. *)
Theorem Strategy_String_names_the_strategy :
  (∀ a b, Strategy_String a = Strategy_String b →
          a = b ∨ Strategy_String a = "Unknown") ∧
  (∀ now exit s,
     Strategy_String (strategy s) = "Unknown" ↔
     executeStrategy now exit s = Some (s, Some (ErrUnknownStrategy (strategy s)))).
Proof.
  split.
  - intros a b. unfold Strategy_String.
    repeat case_decide; intros Heq; try discriminate; subst; auto.
  - intros now exit s. unfold Strategy_String, executeStrategy.
    repeat case_decide; split; try discriminate; try reflexivity; intros Hex; exfalso;
      first [ apply frames_restartAll in Hex as [_ ?]; discriminate
            | apply frames_restartRestForOne in Hex as [_ ?]; discriminate
            | rewrite restartOne_eq in Hex; congruence ].
Qed.

(** X17. The restart decision by the name of the restart type: a child is
    restarted exactly when its type prints as "Permanent", or prints as
    "Transient" and the exit carries an error or was a panic. *)
Theorem shouldRestart_by_name s exit :
  shouldRestart s exit = true ↔
  RestartType_String (Restart (spec (deref (heap s) (exit_child exit)))) = "Permanent" ∨
  (RestartType_String (Restart (spec (deref (heap s) (exit_child exit)))) = "Transient" ∧
   (err exit ≠ None ∨ panic exit = true)).
Proof.
  unfold shouldRestart, RestartType_String.
  repeat case_decide.
  - split; auto.
  - rewrite orb_true_iff, bool_decide_eq_true. split; [auto|].
    intros [?|[_ ?]]; [discriminate|assumption].
  - split; [discriminate|]. intros [?|[? _]]; discriminate.
  - split; [discriminate|]. intros [?|[? _]]; discriminate.
Qed.

(* ===================================================================== *)
(** * backoff.go: the linear policy                                       *)
(* ===================================================================== *)

Section Linear.
Context {P : Platform}.

(** X18. [LinearBackoff]: when neither the product nor the sum leaves the
    int64 range, the delay is min(initial + restarts * increment, max) in
    exact arithmetic; it never exceeds [max], and no random sample is
    consumed. *)
Theorem linear_backoff_delay initial increment max restarts rnd :
  min_int64 <= restarts * increment <= max_int64 →
  min_int64 <= initial + restarts * increment <= max_int64 →
  ComputeDelay (LinearBackoff initial increment max) restarts rnd
    = (linear_delay initial increment max restarts, rnd) ∧
  linear_delay initial increment max restarts <= max.
Proof.
  intros Hp Hs. unfold LinearBackoff, linear_delay. cbn [ComputeDelay].
  rewrite (wrap64_id (restarts * increment)) by assumption.
  rewrite wrap64_id by assumption.
  split; [|lia]. f_equal. destruct (Z.ltb_spec max (initial + restarts * increment)); lia.
Qed.
End Linear.

Lemma linear_backoff_delay_witness :
  ComputeDelay (P := amd64)
    (LinearBackoff (100 * Millisecond) (500 * Millisecond) (10 * Second)) 3 []
    = (linear_delay (100 * Millisecond) (500 * Millisecond) (10 * Second) 3, []) ∧
  linear_delay (100 * Millisecond) (500 * Millisecond) (10 * Second) 3 <= 10 * Second.
Proof.
  apply (linear_backoff_delay (P := amd64)
           (100 * Millisecond) (500 * Millisecond) (10 * Second) 3 []);
    vm_compute; split; discriminate.
Defined.

(* ===================================================================== *)
(** * The options                                                         *)
(* ===================================================================== *)

Lemma fold_left_invariant {A B} (I : A → Prop) (Q : B → Prop) (f : A → B → A) l :
  (∀ a b, I a → Q b → I (f a b)) → ∀ a, I a → Forall Q l → I (fold_left f l a).
Proof.
  intros Hf. induction l as [|b l IH]; intros a Ha Hl; [assumption|].
  inversion Hl; subst. cbn. apply IH; auto.
Qed.

(** X19. [New] with any list of the options WithName, WithIntensity,
    WithBackoff, WithShutdownTimeout and WithChildren: the strategy is the
    one given, the shutdown timeout is positive whatever was passed, the
    supervisor is neither stopped nor cancelled, has no final error, an
    empty restart history and no event; and every registered record is a
    struct literal of [WithChildren], without a cancel function. *)
Theorem New_with_options strat opts :
  Forall public_option opts →
  strategy (New strat opts) = strat ∧
  0 < shutdownTimeout (New strat opts) ∧
  s_stopped (New strat opts) = false ∧ finalErr (New strat opts) = None ∧
  cancelled (New strat opts) = false ∧ done (New strat opts) = false ∧
  restartHistory (New strat opts) = [] ∧ events (New strat opts) = [] ∧
  Forall (fun p => (p < length (heap (New strat opts)))%nat ∧
                   cancel (deref (heap (New strat opts)) p) = false)
         (children (New strat opts)).
Proof.
  intros Hopts.
  pose (I := fun s =>
    strategy s = strat ∧ 0 < shutdownTimeout s ∧
    s_stopped s = false ∧ finalErr s = None ∧ cancelled s = false ∧ done s = false ∧
    restartHistory s = [] ∧ events s = [] ∧
    Forall (fun p => (p < length (heap s))%nat) (children s) ∧
    Forall (fun c => cancel c = false) (heap s)).
  assert (I (New strat opts)) as HI.
  { unfold New.
    apply (fold_left_invariant I public_option (fun s opt => opt s)); [| |assumption].
    - intros s opt Hs Hopt. destruct Hs as (? & ? & ? & ? & ? & ? & ? & ? & Hcs & Hh).
      destruct Hopt as [n|k w|b|t|specs].
      + repeat split; assumption.
      + repeat split; assumption.
      + repeat split; assumption.
      + repeat split; try assumption. cbn.
        destruct (Z.leb_spec t 0); [reflexivity|lia].
      + destruct (WithChildren_eq specs s) as (m & -> & _).
        repeat split; try assumption.
        * rewrite children_updated, heap_updated, length_app. apply Forall_app. split.
          -- eapply Forall_impl; [exact Hcs|]. intros; cbn in *; lia.
          -- apply Forall_forall. intros p Hp. apply elem_of_seq in Hp.
             rewrite length_map. lia.
        * rewrite heap_updated. apply Forall_app. split; [assumption|].
          apply Forall_forall. intros c Hc.
          apply list_elem_of_fmap in Hc as (sp & -> & _). reflexivity.
    - repeat split; constructor. }
  destruct HI as (? & ? & ? & ? & ? & ? & ? & ? & Hcs & Hh).
  repeat split; try assumption.
  apply Forall_forall. intros p Hp. rewrite Forall_forall in Hcs.
  specialize (Hcs p Hp). split; [assumption|].
  destruct (lookup_lt_is_Some_2 _ p Hcs) as [c Hc].
  unfold deref. rewrite Hc. cbn. rewrite Forall_forall in Hh. apply Hh.
  eapply list_elem_of_lookup_2; exact Hc.
Qed.

Lemma New_with_options_witness :
  strategy (New RestForOne [WithShutdownTimeout (-1); WithChildren [worker]]) = RestForOne ∧
  0 < shutdownTimeout (New RestForOne [WithShutdownTimeout (-1); WithChildren [worker]]) ∧
  s_stopped (New RestForOne [WithShutdownTimeout (-1); WithChildren [worker]]) = false ∧
  finalErr (New RestForOne [WithShutdownTimeout (-1); WithChildren [worker]]) = None ∧
  cancelled (New RestForOne [WithShutdownTimeout (-1); WithChildren [worker]]) = false ∧
  done (New RestForOne [WithShutdownTimeout (-1); WithChildren [worker]]) = false ∧
  restartHistory (New RestForOne [WithShutdownTimeout (-1); WithChildren [worker]]) = [] ∧
  events (New RestForOne [WithShutdownTimeout (-1); WithChildren [worker]]) = [] ∧
  Forall (fun p =>
            (p < length (heap (New RestForOne
                                 [WithShutdownTimeout (-1); WithChildren [worker]])))%nat ∧
            cancel (deref (heap (New RestForOne
                                   [WithShutdownTimeout (-1); WithChildren [worker]])) p)
              = false)
         (children (New RestForOne [WithShutdownTimeout (-1); WithChildren [worker]])).
Proof.
  apply (New_with_options RestForOne [WithShutdownTimeout (-1); WithChildren [worker]]).
  repeat constructor.
Defined.

(* ===================================================================== *)
(** * Transient children                                                  *)
(* ===================================================================== *)

Section Transient.
Context {P : Platform}.

(** X20. A Transient child. Its exit without error and without panic is
    only announced: ChildExited is emitted and nothing else changes. Its
    exit with an error or by a panic is counted as a restart: whatever the
    strategy then does, the restart history of the resulting state ends
    with the time of the exit. *)
Theorem transient_child_restarts_on_failure_only now rnd exit s :
  Restart (spec (deref (heap s) (exit_child exit))) = Transient →
  (err exit = None → panic exit = false →
   handleChildExit now rnd exit s = Some (emitEvent (exit_event now s exit) s, None)) ∧
  (err exit ≠ None ∨ panic exit = true →
   ∀ s' e, handleChildExit now rnd exit s = Some (s', e) →
           last (restartHistory s') = Some now).
Proof.
  intros Hrt. split.
  - intros He Hp. apply handleChildExit_no_restart.
    unfold shouldRestart. rewrite Hrt, He, Hp. reflexivity.
  - intros Hfail s' e.
    assert (shouldRestart s exit = true) as Hr.
    { unfold shouldRestart. rewrite Hrt. cbn. apply orb_true_iff.
      destruct Hfail as [?|?]; [left; now apply bool_decide_eq_true|now right]. }
    destruct (checkRestartIntensity_keeps_newest_aux now s) as [[Hh Hstart] _].
    assert (last (restartHistory (fst (checkRestartIntensity now s))) = Some now)
      as Hlast by (rewrite Hh; apply last_snoc).
    destruct (snd (checkRestartIntensity now s)) eqn:Hok.
    + destruct (handleChildExit_restart now rnd exit s Hr Hok) as [now' ->].
      intros Hex. apply frames_executeStrategy in Hex as [Hf _].
      apply frames_control in Hf as [_ ->]. exact Hlast.
    + rewrite (handleChildExit_fatal now rnd exit s Hr Hok).
      intros [= <- _]. exact Hlast.
Qed.
End Transient.

Lemma transient_child_restarts_on_failure_only_witness :
  (err (returned 1%nat) = None → panic (returned 1%nat) = false →
   handleChildExit (P := amd64) 5 [] (returned 1%nat) two_workers
     = Some (emitEvent (exit_event 5 two_workers (returned 1%nat)) two_workers, None)) ∧
  (err (returned 1%nat) ≠ None ∨ panic (returned 1%nat) = true →
   ∀ s' e, handleChildExit (P := amd64) 5 [] (returned 1%nat) two_workers = Some (s', e) →
           last (restartHistory s') = Some 5).
Proof.
  apply (transient_child_restarts_on_failure_only (P := amd64) 5 []
           (returned 1%nat) two_workers).
  reflexivity.
Defined.

(* ===================================================================== *)
(** * The exit of a record under a name that is not registered            *)
(* ===================================================================== *)

Lemma replace_by_name_absent h nm new l :
  Forall (fun q => Name (spec (deref h q)) ≠ nm) l → replace_by_name h nm new l = l.
Proof.
  induction 1 as [|c l Hc _ IH]; [reflexivity|].
  cbn. rewrite decide_False by assumption. now rewrite IH.
Qed.

Lemma well_formed_empty s : children s = [] → childMap s = ∅ → well_formed s.
Proof.
  intros Hcs Hm. split; [|split].
  - intros nm p. rewrite Hm, Hcs, lookup_empty. split; [discriminate|].
    intros [H _]. inversion H.
  - rewrite Hcs. constructor.
  - unfold wired. rewrite Hcs. constructor.
Qed.

(** X21. An exit whose record carries a name that no registered record
    carries (the record was removed, say). Under OneForOne and
    SimpleOneForOne a replacement is allocated and announced all the same,
    and it is entered in the index but in no slot of the sequence, so that
    sequence and index no longer agree. Under RestForOne the strategy
    does nothing. *)
Theorem exit_under_unregistered_name now exit s :
  well_formed s →
  Forall (fun q => name_of s q ≠ name_of s (exit_child exit)) (children s) →
  (strategy s = OneForOne ∨ strategy s = SimpleOneForOne →
   ∃ s',
     executeStrategy now exit s = Some (s', None) ∧
     children s' = children s ∧
     childMap s' = <[name_of s (exit_child exit) := length (heap s)]> (childMap s) ∧
     heap s' = heap s ++ [bumped (deref (heap s) (exit_child exit))] ∧
     events s' = events s ++ restart_events now (name_of s (exit_child exit)) ∧
     ¬ consistent s') ∧
  (strategy s = RestForOne → executeStrategy now exit s = Some (s, None)).
Proof.
  intros (Hc & Hnd & Hw) Hnames. split.
  - intros Hst.
    assert (executeStrategy now exit s = Some (restartOne now exit s)) as ->.
    { unfold executeStrategy. destruct Hst as [-> | ->]; reflexivity. }
    rewrite restartOne_eq. rewrite replace_by_name_absent.
    + eexists. split; [reflexivity|]. do 4 (split; [reflexivity|]).
      intros Hcons.
      destruct (Hcons (name_of s (exit_child exit)) (length (heap s))) as [Hin _].
      destruct Hin as [Hin _]; [apply lookup_insert_eq|].
      rewrite children_updated in Hin.
      destruct (wired_elem s _ Hw Hin). lia.
    + apply Forall_forall. intros q Hq. rewrite Forall_forall in Hnames.
      destruct (wired_elem s q Hw Hq) as [Hlt _].
      rewrite deref_app_l by assumption. now apply Hnames.
  - intros Hst. unfold executeStrategy. rewrite Hst. cbn [decide].
    unfold restartRestForOne. now rewrite find_index_none.
Qed.

Lemma well_formed_removed_worker : well_formed removed_worker.
Proof. apply well_formed_empty; vm_compute; reflexivity. Qed.

Lemma exit_under_unregistered_name_witness :
  (strategy removed_worker = OneForOne ∨ strategy removed_worker = SimpleOneForOne →
   ∃ s',
     executeStrategy 5 (returned 0%nat) removed_worker = Some (s', None) ∧
     children s' = children removed_worker ∧
     childMap s'
       = <[name_of removed_worker (exit_child (returned 0%nat))
             := length (heap removed_worker)]> (childMap removed_worker) ∧
     heap s'
       = heap removed_worker
           ++ [bumped (deref (heap removed_worker) (exit_child (returned 0%nat)))] ∧
     events s'
       = events removed_worker
           ++ restart_events 5 (name_of removed_worker (exit_child (returned 0%nat))) ∧
     ¬ consistent s') ∧
  (strategy removed_worker = RestForOne →
   executeStrategy 5 (returned 0%nat) removed_worker = Some (removed_worker, None)).
Proof.
  apply (exit_under_unregistered_name 5 (returned 0%nat) removed_worker).
  - apply well_formed_removed_worker.
  - vm_compute. constructor.
Defined.

(* ===================================================================== *)
(** * The loop never calls a nil cancel function                          *)
(* ===================================================================== *)

Lemma sound_updated s cs m h es :
  wired_in h cs →
  map_Forall (fun _ p => (p < length h)%nat ∧ cancel (deref h p) = true) m →
  sound (updated s cs m h es).
Proof. intros Hcs Hm. split; assumption. Qed.

Lemma map_wired_app (m : gmap string nat) h news :
  map_Forall (fun _ p => (p < length h)%nat ∧ cancel (deref h p) = true) m →
  map_Forall (fun _ p => (p < length (h ++ news))%nat ∧
                         cancel (deref (h ++ news) p) = true) m.
Proof.
  intros Hm nm p Hp. destruct (Hm nm p Hp) as [Hlt Hc].
  rewrite length_app, deref_app_l by assumption. split; [lia|assumption].
Qed.

Lemma map_wired_stop (m : gmap string nat) chs h :
  map_Forall (fun _ p => (p < length h)%nat ∧ cancel (deref h p) = true) m →
  map_Forall (fun _ p => (p < length (stop_heap chs h))%nat ∧
                         cancel (deref (stop_heap chs h) p) = true) m.
Proof.
  intros Hm nm p Hp. destruct (Hm nm p Hp) as [Hlt Hc].
  rewrite stop_heap_length. now rewrite (proj2 (stop_heap_same chs h p)).
Qed.

Lemma remap_wired (R : nat → Prop) h l : ∀ base (m : gmap string nat),
  map_Forall (fun _ p => R p) m →
  (∀ i, (i < length l)%nat → R (base + i)%nat) →
  map_Forall (fun _ p => R p) (remap h l base m).
Proof.
  induction l as [|c l IH]; intros base m Hm Hnew; [assumption|].
  cbn [remap]. apply IH.
  - apply map_Forall_insert_2; [|assumption].
    replace base with (base + 0)%nat by lia. apply Hnew. cbn. lia.
  - intros i Hi. replace (S base + i)%nat with (base + S i)%nat by lia.
    apply Hnew. cbn. lia.
Qed.

Lemma remove_first_subset ch l x : x ∈ remove_first ch l → x ∈ l.
Proof.
  induction l as [|c l IH]; cbn; [auto|]. case_decide.
  - intros Hx. now apply list_elem_of_further.
  - intros Hx. apply elem_of_cons in Hx as [->|Hx];
      [apply list_elem_of_here|apply list_elem_of_further; auto].
Qed.

Lemma sound_New strat : sound (New strat []).
Proof. split; [constructor|]. apply map_Forall_empty. Qed.

Lemma doAddChild_sound now sp s : sound s → sound (fst (doAddChild now sp s)).
Proof.
  intros [Hw Hm]. unfold doAddChild.
  destruct (s_stopped s); [now split|]. case_decide; [now split|].
  unfold newChild, startChild, emitEvent. cbn [fst].
  split.
  - unfold wired. cbn. apply Forall_app. split.
    + now apply wired_in_app_l.
    + constructor; [|constructor]. rewrite length_app, deref_snoc. cbn. split; [lia|reflexivity].
  - cbn. apply map_Forall_insert_2.
    + rewrite length_app, deref_snoc. cbn. split; [lia|reflexivity].
    + now apply map_wired_app.
Qed.

Lemma handleCommand_sound now cmd s :
  sound s → (action cmd = "add" → is_Some (cmd_spec cmd)) →
  ∃ s' e, handleCommand now cmd s = Some (s', e) ∧ sound s'.
Proof.
  intros Hs Hadd. pose proof Hs as [Hw Hm]. unfold handleCommand. repeat case_decide.
  - destruct (Hadd ltac:(assumption)) as [sp ->]. cbn [mbind option_bind].
    exists (fst (doAddChild now sp s)), (snd (doAddChild now sp s)).
    split; [now destruct (doAddChild now sp s)|]. now apply doAddChild_sound.
  - unfold doRemoveChild.
    destruct (childMap s !! cmd_name cmd) as [ch|] eqn:Hch; [|eauto].
    destruct (Hm _ _ Hch) as [Hlt Hc]. rewrite stop_eq by assumption.
    cbn [mbind option_bind]. eexists. eexists. split; [reflexivity|].
    split.
    + unfold wired. cbn. apply Forall_forall. intros x Hx.
      apply remove_first_subset in Hx. destruct (wired_elem s x Hw Hx) as [? ?].
      rewrite length_insert.
      now rewrite (proj2 (deref_stopped_fields (heap s) ch x)).
    + cbn. apply map_Forall_delete.
      exact (map_wired_stop (childMap s) [ch] (heap s) Hm).
  - unfold doRestartChild.
    destruct (childMap s !! cmd_name cmd) as [ch|] eqn:Hch; [|eauto].
    destruct (Hm _ _ Hch) as [Hlt Hc]. rewrite stop_eq by assumption.
    cbn [mbind option_bind]. unfold newChild, startChild, emitEvent. cbn.
    eexists. eexists. split; [reflexivity|].
    set (h1 := <[ch := set_stopped (deref (heap s) ch)]> (heap s)).
    assert (wired_in h1 (children s)) as Hw1
      by exact (wired_in_stop_heap [ch] (heap s) (children s) Hw).
    split.
    + unfold wired. cbn. fold h1. apply Forall_forall. intros x Hx.
      apply replace_by_name_elem in Hx as [Hx| ->].
      * unfold wired_in in Hw1. rewrite Forall_forall in Hw1.
        destruct (Hw1 x Hx) as [Hx1 Hx2].
        rewrite length_app, deref_app_l by assumption. split; [lia|assumption].
      * rewrite length_app, deref_snoc. cbn. split; [lia|reflexivity].
    + cbn. fold h1. apply map_Forall_insert_2.
      * rewrite length_app, deref_snoc. cbn. split; [lia|reflexivity].
      * apply map_wired_app. exact (map_wired_stop (childMap s) [ch] (heap s) Hm).
  - eauto.
Qed.

Lemma executeStrategy_sound now exit s :
  sound s →
  ∃ s' e es, executeStrategy now exit s = Some (s', e) ∧ sound s' ∧
             events s' = events s ++ es.
Proof.
  intros [Hw Hm]. unfold executeStrategy.
  assert (∃ s' e es, Some (restartOne now exit s) = Some (s', e) ∧ sound s' ∧
                     events s' = events s ++ es) as Hone.
  { rewrite restartOne_eq. eexists. eexists. eexists. split; [reflexivity|].
    split; [|reflexivity]. apply sound_updated.
    - apply Forall_forall. intros x Hx.
      apply replace_by_name_elem in Hx as [Hx| ->].
      + pose proof (wired_in_app_l (heap s)
                      [bumped (deref (heap s) (exit_child exit))] (children s) Hw) as Hw'.
        unfold wired_in in Hw'. rewrite Forall_forall in Hw'. now apply Hw'.
      + rewrite length_app, deref_snoc. cbn. split; [lia|reflexivity].
    - apply map_Forall_insert_2.
      + rewrite length_app, deref_snoc. cbn. split; [lia|reflexivity].
      + now apply map_wired_app. }
  assert (∀ j, (j ≤ length (children s))%nat →
            sound (updated s
                     (take j (children s)
                        ++ seq (length (heap s)) (length (children s) - j))
                     (remap (stop_heap (drop j (children s)) (heap s))
                            (drop j (children s)) (length (heap s)) (childMap s))
                     (stop_heap (drop j (children s)) (heap s)
                        ++ map (fun p => bumped (deref (stop_heap (drop j (children s))
                                                                   (heap s)) p))
                               (drop j (children s)))
                     (events s ++ flat_map (fun p => restart_events now (name_of s p))
                                           (drop j (children s))))) as Hrest.
  { intros j Hj. set (h1 := stop_heap (drop j (children s)) (heap s)).
    set (news := map _ (drop j (children s))).
    assert (length news = (length (children s) - j)%nat) as Hnews
      by (subst news; now rewrite length_map, length_drop).
    assert (length h1 = length (heap s)) as Hlen by apply stop_heap_length.
    assert (wired_in (h1 ++ news) (seq (length (heap s)) (length (children s) - j)))
      as Hfresh.
    { rewrite <- Hlen, <- Hnews. apply wired_in_fresh. subst news.
      apply Forall_forall. intros c Hc.
      apply list_elem_of_fmap in Hc as (q & -> & _). reflexivity. }
    apply sound_updated.
    - apply Forall_app. split; [|exact Hfresh].
      apply wired_in_app_l, Forall_take, wired_in_stop_heap, Hw.
    - apply (remap_wired (fun p => (p < length (h1 ++ news))%nat ∧
                                   cancel (deref (h1 ++ news) p) = true)).
      + apply map_wired_app, map_wired_stop, Hm.
      + intros i Hi. rewrite length_drop in Hi.
        unfold wired_in in Hfresh. rewrite Forall_forall in Hfresh.
        apply Hfresh. apply elem_of_seq. lia. }
  repeat case_decide.
  - exact Hone.
  - rewrite restartAll_eq by assumption.
    eexists. eexists. eexists. split; [reflexivity|]. split; [|reflexivity].
    specialize (Hrest 0%nat ltac:(lia)).
    rewrite drop_0, take_0, Nat.sub_0_r in Hrest. cbn [app] in Hrest.
    assert (map (fun p => bumped (deref (stop_heap (children s) (heap s)) p))
                (children s)
            = map (fun p => bumped (deref (heap s) p)) (children s)) as Hmap.
    { apply map_ext_Forall. apply Forall_forall. intros q _. unfold bumped.
      destruct (stop_heap_fields (children s) (heap s) q) as (-> & _ & _ & ->).
      reflexivity. }
    rewrite Hmap in Hrest. exact Hrest.
  - destruct (find_index (heap s) (Name (spec (deref (heap s) (exit_child exit))))
                (children s) 0) as [i|] eqn:Hfi.
    + rewrite (restartRestForOne_eq now exit s i) by assumption.
      eexists. eexists. eexists. split; [reflexivity|]. split; [|reflexivity].
      apply Hrest. apply find_index_lt in Hfi. lia.
    + unfold restartRestForOne. rewrite Hfi. exists s, None, [].
      rewrite app_nil_r. split; [reflexivity|]. split; [now split|reflexivity].
  - exact Hone.
  - exists s, (Some (ErrUnknownStrategy (strategy s))), [].
    rewrite app_nil_r. split; [reflexivity|]. split; [now split|reflexivity].
Qed.

Section NeverPanics.
Context {P : Platform}.

Lemma sound_run_return s : sound s → ∃ s', run_return s = Some s' ∧ sound s'.
Proof.
  intros [Hw Hm]. rewrite run_return_eq by assumption. eexists. split; [reflexivity|].
  split.
  - exact (wired_in_stop_heap (children s) (heap s) (children s) Hw).
  - exact (map_wired_stop (childMap s) (children s) (heap s) Hm).
Qed.


Lemma run_step_sound now rnd i s :
  sound s → carries_spec (now, rnd, i) →
  ∃ s' r, run_step now rnd i s = Some (s', r) ∧ sound s'.
Proof.
  intros Hs Hadm. unfold run_step. destruct (done s); [eauto|].
  destruct i as [|cmd|exit]; cbn [carries_spec] in Hadm.
  - destruct (cancelled s); [|eauto].
    match goal with
    | |- context [run_return ?s0] =>
        destruct (sound_run_return s0) as (s' & -> & Hs')
    end; [exact Hs|]. eauto.
  - destruct (handleCommand_sound now cmd s Hs Hadm) as (s' & e & -> & Hs'). eauto.
  - assert (∃ s' e, handleChildExit now rnd exit s = Some (s', e) ∧ sound s')
      as (s' & e & -> & Hs').
    { unfold handleChildExit.
      destruct (shouldRestart _ exit); cbn [negb]; [|eexists; eexists; split;
        [reflexivity|exact Hs]].
      destruct (checkRestartIntensity now _) as [s1 ok] eqn:Hck.
      unfold checkRestartIntensity in Hck. injection Hck as <- <-.
      match goal with |- context [negb ?b] => destruct b end; cbn [negb].
      - match goal with
        | |- context [executeStrategy ?n exit ?s1] =>
            destruct (executeStrategy_sound n exit s1) as (s' & e & es & -> & Hs' & _)
        end; [exact Hs|]. eauto.
      - eexists. eexists. split; [reflexivity|exact Hs]. }
    cbn [mbind option_bind]. destruct e as [e|]; [|eauto].
    destruct (sound_run_return (with_fatal e s')) as (s2 & -> & Hs2); [exact Hs'|].
    eauto.
Qed.

(** X23. A supervisor whose records were all built by [newChild] (it was
    populated through [AddChild], not through [WithChildren]) never calls
    a nil cancel function: whatever commands and exits the loop receives,
    registered or not, every iteration returns, and the state it leaves
    again holds only records with a cancel function. *)
Theorem run_never_panics ins : ∀ s,
  sound s → Forall carries_spec ins →
  ∃ s', run ins s = Some s' ∧ sound s'.
Proof.
  induction ins as [|[[now rnd] i] ins IH]; intros s Hs Hall; [eauto|].
  inversion Hall as [|? ? Hi Hrest]; subst.
  destruct (run_step_sound now rnd i s Hs Hi) as (s1 & r & Hstep & Hs1).
  destruct (IH s1 Hs1 Hrest) as (s2 & Hrun & Hs2).
  exists s2. cbn [run]. rewrite Hstep. cbn [mbind option_bind]. auto.
Qed.
End NeverPanics.

Lemma sound_one_worker : sound one_worker.
Proof. apply doAddChild_sound, sound_New. Qed.


Lemma run_never_panics_witness :
  ∃ s',
    run (P := amd64)
      [(5, [], recvExit (failed 0%nat));
       (6, [], recvCommand {| action := "remove"; cmd_spec := None; cmd_name := "w" |});
       (7, [], recvExit (failed 1%nat))]
      one_worker = Some s' ∧
    sound s'.
Proof.
  apply (run_never_panics (P := amd64)
           [(5, [], recvExit (failed 0%nat));
            (6, [], recvCommand {| action := "remove"; cmd_spec := None;
                                   cmd_name := "w" |});
            (7, [], recvExit (failed 1%nat))]
           one_worker).
  - apply sound_one_worker.
  - repeat constructor. discriminate.
Defined.

(* ===================================================================== *)
(** * SimpleOneForOne                                                     *)
(* ===================================================================== *)

Lemma with_strategy_updated st s cs m h es :
  with_strategy st (updated s cs m h es) = updated (with_strategy st s) cs m h es.
Proof. reflexivity. Qed.

Lemma with_strategy_id s : with_strategy (strategy s) s = s.
Proof. now destruct s. Qed.

Lemma stop_with_strategy st p s :
  stop p (with_strategy st s) = with_strategy st <$> stop p s.
Proof. unfold stop. cbn [heap with_strategy]. now destruct (cancel _). Qed.

Lemma stop_each_with_strategy st chs : ∀ s,
  stop_each chs (with_strategy st s) = with_strategy st <$> stop_each chs s.
Proof.
  induction chs as [|ch chs IH]; intros s; [reflexivity|].
  cbn [stop_each]. rewrite stop_with_strategy.
  destruct (stop ch s) as [s1|]; [|reflexivity]. cbn. apply IH.
Qed.

Lemma replace_child_with_strategy st l : ∀ acc s,
  fold_left replace_child l (acc, with_strategy st s)
  = (fst (fold_left replace_child l (acc, s)),
     with_strategy st (snd (fold_left replace_child l (acc, s)))).
Proof.
  induction l as [|ch l IH]; intros acc s; [reflexivity|].
  cbn [fold_left]. unfold replace_child at 2 4 6. rewrite !newChild_bumped_eq.
  exact (IH _ (with_children (children s)
                 (<[Name (spec (deref (heap s) ch)) := length (heap s)]> (childMap s))
                 (with_heap (heap s ++ [bumped (deref (heap s) ch)]) s))).
Qed.

Lemma restart_at_with_strategy st now i s :
  restart_at now i (with_strategy st s) = with_strategy st (restart_at now i s).
Proof. unfold restart_at. rewrite !newChild_bumped_eq. reflexivity. Qed.

Lemma restart_loop_with_strategy st now l : ∀ s,
  fold_left (fun s i => restart_at now i s) l (with_strategy st s)
  = with_strategy st (fold_left (fun s i => restart_at now i s) l s).
Proof.
  induction l as [|i l IH]; intros s; [reflexivity|].
  cbn [fold_left]. rewrite restart_at_with_strategy. apply IH.
Qed.

(** A strategy's result, carried over to the other strategy field. *)
Lemma restartAll_with_strategy st now s :
  restartAll now (with_strategy st s)
  = (fun x => (with_strategy st (fst x), snd x)) <$> restartAll now s.
Proof.
  unfold restartAll. cbn [children with_strategy].
  rewrite stop_each_with_strategy.
  destruct (stop_each (children s) s) as [s1|]; [|reflexivity].
  cbn [fmap option_fmap option_map mbind option_bind children with_strategy].
  rewrite replace_child_with_strategy.
  destruct (fold_left replace_child (children s1) ([], s1)) as [news s2].
  cbn [fst snd]. rewrite !restartAll_start_eq. reflexivity.
Qed.

Lemma restartRestForOne_with_strategy st now exit s :
  restartRestForOne now exit (with_strategy st s)
  = (fun x => (with_strategy st (fst x), snd x)) <$> restartRestForOne now exit s.
Proof.
  unfold restartRestForOne. cbn [children heap with_strategy].
  destruct (find_index _ _ _ _) as [i|]; [|reflexivity].
  rewrite stop_each_with_strategy.
  destruct (stop_each _ s) as [s1|]; [|reflexivity].
  cbn [fmap option_fmap option_map mbind option_bind children with_strategy fst snd].
  now rewrite restart_loop_with_strategy.
Qed.

Lemma handleCommand_with_strategy st now cmd s :
  handleCommand now cmd (with_strategy st s)
  = (fun x => (with_strategy st (fst x), snd x)) <$> handleCommand now cmd s.
Proof.
  unfold handleCommand. repeat case_decide.
  - destruct (cmd_spec cmd) as [sp|]; [|reflexivity]. cbn [mbind option_bind].
    unfold doAddChild. cbn [s_stopped childMap with_strategy].
    destruct (s_stopped s); [reflexivity|]. case_decide; reflexivity.
  - unfold doRemoveChild. cbn [childMap with_strategy].
    destruct (childMap s !! cmd_name cmd) as [ch|]; [|reflexivity].
    rewrite stop_with_strategy. now destruct (stop ch s).
  - unfold doRestartChild. cbn [childMap with_strategy].
    destruct (childMap s !! cmd_name cmd) as [ch|]; [|reflexivity].
    rewrite stop_with_strategy. now destruct (stop ch s).
  - reflexivity.
Qed.

Section Simple.
Context {P : Platform}.

Lemma run_return_with_strategy st s :
  run_return (with_strategy st s) = with_strategy st <$> run_return s.
Proof.
  unfold run_return, shutdownChildren. cbn [children with_strategy].
  rewrite stop_each_with_strategy. now destruct (stop_each (children s) s).
Qed.

Lemma handleChildExit_simple now rnd exit s :
  strategy s = OneForOne →
  handleChildExit now rnd exit (with_strategy SimpleOneForOne s)
  = (fun x => (with_strategy SimpleOneForOne (fst x), snd x))
      <$> handleChildExit now rnd exit s.
Proof.
  intros Hst. unfold handleChildExit.
  change (shouldRestart (emitEvent (exit_event now (with_strategy SimpleOneForOne s) exit)
                           (with_strategy SimpleOneForOne s)) exit)
    with (shouldRestart (emitEvent (exit_event now s exit) s) exit).
  destruct (shouldRestart _ exit); cbn [negb]; [|reflexivity].
  unfold checkRestartIntensity.
  cbn [restartHistory restartWindow maxRestarts emitEvent with_events with_strategy].
  match goal with |- context [negb ?b] => destruct b end; cbn [negb]; [|reflexivity].
  unfold executeStrategy.
  cbn [strategy with_restartHistory with_strategy emitEvent with_events].
  rewrite Hst.
  rewrite (decide_True (P := OneForOne = OneForOne)) by reflexivity.
  rewrite (decide_False (P := SimpleOneForOne = OneForOne)) by discriminate.
  rewrite (decide_False (P := SimpleOneForOne = OneForAll)) by discriminate.
  rewrite (decide_False (P := SimpleOneForOne = RestForOne)) by discriminate.
  rewrite (decide_True (P := SimpleOneForOne = SimpleOneForOne)) by reflexivity.
  rewrite !restartOne_eq. reflexivity.
Qed.

Lemma run_step_simple now rnd i s :
  strategy s = OneForOne →
  run_step now rnd i (with_strategy SimpleOneForOne s)
  = (fun x => (with_strategy SimpleOneForOne (fst x), snd x)) <$> run_step now rnd i s.
Proof.
  intros Hst. unfold run_step. cbn [done with_strategy].
  destruct (done s); [reflexivity|]. destruct i as [|cmd|exit].
  - cbn [cancelled with_strategy]. destruct (cancelled s); [|reflexivity].
    change (emitEvent ?e (with_strategy ?st s)) with (with_strategy st (emitEvent e s)).
    rewrite run_return_with_strategy. now destruct (run_return _).
  - rewrite handleCommand_with_strategy.
    now destruct (handleCommand now cmd s) as [[? ?]|].
  - rewrite handleChildExit_simple by assumption.
    destruct (handleChildExit now rnd exit s) as [[s1 [e|]]|]; [|reflexivity|reflexivity].
    cbn [fmap option_fmap option_map mbind option_bind fst snd].
    change (with_fatal e (with_strategy ?st s1)) with (with_strategy st (with_fatal e s1)).
    rewrite run_return_with_strategy. now destruct (run_return _).
Qed.

Lemma run_simple ins : ∀ s,
  strategy s = OneForOne →
  run ins (with_strategy SimpleOneForOne s)
  = with_strategy SimpleOneForOne <$> run ins s.
Proof.
  induction ins as [|[[now rnd] i] ins IH]; intros s Hst; [reflexivity|].
  cbn [run]. rewrite run_step_simple by assumption.
  destruct (run_step now rnd i s) as [[s1 r]|] eqn:Hs; [|reflexivity].
  cbn [fmap option_fmap option_map mbind option_bind fst snd].
  apply IH. apply run_step_control in Hs as [(_ & Hstrat & _) _]. congruence.
Qed.

Lemma WithChildren_with_strategy st specs : ∀ s,
  WithChildren specs (with_strategy st s) = with_strategy st (WithChildren specs s).
Proof.
  induction specs as [|sp specs IH]; intros s; [reflexivity|].
  rewrite !WithChildren_cons, <- IH. reflexivity.
Qed.

Lemma New_with_strategy st opts :
  Forall public_option opts →
  New st opts = with_strategy st (New OneForOne opts) ∧
  strategy (New OneForOne opts) = OneForOne.
Proof.
  intros Hopts. unfold New.
  match goal with
  | |- fold_left ?f opts ?a = with_strategy st (fold_left ?f opts ?b) ∧ _ =>
      assert (a = with_strategy st b) as -> by reflexivity;
      assert (strategy b = OneForOne) as Hb by reflexivity;
      revert Hb; generalize b
  end.
  induction Hopts as [|opt opts Hopt _ IH]; intros s Hs; [auto|].
  cbn [fold_left].
  assert (opt (with_strategy st s) = with_strategy st (opt s) ∧
          strategy (opt s) = OneForOne) as [-> Hs'].
  { destruct Hopt as [n|k w|b|t|specs]; try (split; [reflexivity|exact Hs]).
    split; [apply WithChildren_with_strategy|].
    destruct (WithChildren_eq specs s) as (m & -> & _). exact Hs. }
  now apply IH.
Qed.

(** X24. SimpleOneForOne is OneForOne under another name: built from the
    same options and fed with the same receptions, a SimpleOneForOne
    supervisor goes through the same states as the OneForOne supervisor,
    up to the strategy field, and panics exactly when that one does. *)
Theorem SimpleOneForOne_is_OneForOne opts ins :
  Forall public_option opts →
  run ins (New SimpleOneForOne opts)
  = with_strategy SimpleOneForOne <$> run ins (New OneForOne opts).
Proof.
  intros Hopts.
  destruct (New_with_strategy SimpleOneForOne opts Hopts) as [-> Hst].
  now apply run_simple.
Qed.
End Simple.

Lemma SimpleOneForOne_is_OneForOne_witness :
  run (P := amd64)
    [(1, [], recvCommand {| action := "add"; cmd_spec := Some worker; cmd_name := "" |});
     (5, [], recvExit (failed 0%nat))]
    (New SimpleOneForOne [WithIntensity 3 Minute])
  = with_strategy SimpleOneForOne
      <$> run (P := amd64)
            [(1, [], recvCommand {| action := "add"; cmd_spec := Some worker;
                                    cmd_name := "" |});
             (5, [], recvExit (failed 0%nat))]
            (New OneForOne [WithIntensity 3 Minute]).
Proof.
  apply (SimpleOneForOne_is_OneForOne (P := amd64) [WithIntensity 3 Minute]
           [(1, [], recvCommand {| action := "add"; cmd_spec := Some worker;
                                   cmd_name := "" |});
            (5, [], recvExit (failed 0%nat))]).
  repeat constructor.
Defined.

(* ===================================================================== *)
(** * child.go: stop                                                      *)
(* ===================================================================== *)

(** X25. [child.stop] on a record that has a cancel function: the record
    is then reported stopped by [isStopped]; spec, cancel function, exit
    channel and restart count of the record are as before; no other record
    and nothing else in the supervisor is written; and stopping again
    changes nothing. A record without a cancel function (or a dangling
    pointer) makes [stop] panic. *)
Theorem stop_sets_only_the_flag p s :
  (cancel (deref (heap s) p) = false → stop p s = None) ∧
  (cancel (deref (heap s) p) = true →
   ∃ s',
     stop p s = Some s' ∧
     isStopped p s' = true ∧
     deref (heap s') p = set_stopped (deref (heap s) p) ∧
     (∀ q, q ≠ p → deref (heap s') q = deref (heap s) q) ∧
     children s' = children s ∧ childMap s' = childMap s ∧ events s' = events s ∧
     stop p s' = Some s').
Proof.
  split; intros Hc; unfold stop at 1; rewrite Hc; [reflexivity|].
  assert (p < length (heap s))%nat as Hlt.
  { destruct (decide (p < length (heap s))%nat) as [?|Hge]; [assumption|].
    unfold deref in Hc. rewrite lookup_ge_None_2 in Hc by lia. discriminate. }
  eexists. split; [reflexivity|].
  cbn [heap with_heap children childMap events]. unfold isStopped.
  cbn [heap with_heap]. rewrite deref_insert_eq by assumption.
  split; [reflexivity|]. split; [reflexivity|].
  split; [intros q Hq; now apply deref_insert_ne|].
  do 3 (split; [reflexivity|]).
  unfold stop. cbn [heap with_heap]. rewrite deref_insert_eq by assumption.
  cbn [cancel set_stopped]. rewrite Hc. f_equal.
  unfold with_heap. cbn. f_equal.
  now rewrite list_insert_insert_eq.
Qed.

(* ===================================================================== *)
(** * backoff.go: the exponential policy where the product is exact       *)
(* ===================================================================== *)

Section ExactBinary64.

Lemma digits2_pos_lower p : 2 ^ (Z.pos (digits2_pos p) - 1) <= Z.pos p.
Proof.
  induction p as [p IH|p IH|]; cbn [digits2_pos].
  - rewrite Pos2Z.inj_succ. replace (Z.succ (Z.pos (digits2_pos p)) - 1)
      with (Z.succ (Z.pos (digits2_pos p) - 1)) by lia.
    rewrite Z.pow_succ_r by lia. lia.
  - rewrite Pos2Z.inj_succ. replace (Z.succ (Z.pos (digits2_pos p)) - 1)
      with (Z.succ (Z.pos (digits2_pos p) - 1)) by lia.
    rewrite Z.pow_succ_r by lia. lia.
  - reflexivity.
Qed.

Lemma Zdigits2_unique z k : 2 ^ (k - 1) <= z < 2 ^ k → 0 < k → Zdigits2 z = k.
Proof.
  intros [Hlo Hhi] Hk.
  assert (0 < z) as Hz by (pose proof (Z.pow_pos_nonneg 2 (k - 1)); lia).
  destruct z as [|p|p]; try lia. cbn [Zdigits2].
  pose proof (digits2_pos_lower p) as Hl. pose proof (digits2_pos_bound p) as Hu.
  destruct (Z.lt_trichotomy (Z.pos (digits2_pos p)) k) as [Hlt|[Heq|Hgt]];
    [exfalso|assumption|exfalso].
  - assert (2 ^ Z.pos (digits2_pos p) <= 2 ^ (k - 1))
      by (apply Z.pow_le_mono_r; lia). lia.
  - assert (2 ^ k <= 2 ^ (Z.pos (digits2_pos p) - 1))
      by (apply Z.pow_le_mono_r; lia). lia.
Qed.

Lemma Zdigits2_mul_pow2 z k : 0 < z → 0 <= k → Zdigits2 (z * 2 ^ k) = Zdigits2 z + k.
Proof.
  intros Hz Hk. destruct z as [|p|p]; try lia. cbn [Zdigits2].
  pose proof (digits2_pos_lower p) as Hl. pose proof (digits2_pos_bound p) as Hu.
  assert (0 < 2 ^ k) by (apply Z.pow_pos_nonneg; lia).
  apply Zdigits2_unique; [|lia]. split.
  - replace (Z.pos (digits2_pos p) + k - 1) with (Z.pos (digits2_pos p) - 1 + k) by lia.
    rewrite Z.pow_add_r by lia. apply Z.mul_le_mono_nonneg_r; lia.
  - rewrite Z.pow_add_r by lia. apply Z.mul_lt_mono_pos_r; lia.
Qed.

(** Shifting out zero bits leaves no remainder. *)
Lemma shr_1_exact mrs :
  0 <= shr_m mrs → (2 | shr_m mrs) → shr_r mrs = false → shr_s mrs = false →
  shr_r (shr_1 mrs) = false ∧ shr_s (shr_1 mrs) = false.
Proof.
  destruct mrs as [m r s]. cbn [shr_m shr_r shr_s]. intros Hm [q Hq] -> ->.
  destruct m as [|[p|p|]|p]; cbn; auto; lia.
Qed.

Lemma divide_pow2_split a b m :
  0 <= a → 0 <= b → (2 ^ (a + b) | m) → (2 ^ a | m) ∧ (2 ^ b | m / 2 ^ a).
Proof.
  intros Ha Hb [q Hq]. rewrite Z.pow_add_r in Hq by assumption.
  assert (0 < 2 ^ a) by (apply Z.pow_pos_nonneg; lia).
  split.
  - exists (q * 2 ^ b). lia.
  - exists q. subst m. rewrite Z.mul_assoc, Z.mul_comm with (m := 2 ^ b), Z.mul_assoc.
    rewrite Z.div_mul by lia. lia.
Qed.

Lemma iter_pos_shr_exact p : ∀ mrs,
  0 <= shr_m mrs → (2 ^ Z.pos p | shr_m mrs) →
  shr_r mrs = false → shr_s mrs = false →
  shr_r (SpecFloat.iter_pos shr_1 p mrs) = false ∧
  shr_s (SpecFloat.iter_pos shr_1 p mrs) = false.
Proof.
  induction p as [p IH|p IH|]; intros mrs Hm Hdiv Hr Hs; cbn [SpecFloat.iter_pos].
  - replace (Z.pos p~1) with (1 + (Z.pos p + Z.pos p)) in Hdiv by lia.
    apply divide_pow2_split in Hdiv as [H1 H2]; [|lia|lia].
    rewrite Z.pow_1_r in H1, H2.
    apply divide_pow2_split in H2 as [H2 H3]; [|lia|lia].
    destruct (shr_1_exact mrs Hm H1 Hr Hs) as [Hr1 Hs1].
    pose proof (shr_1_m mrs Hm) as E1.
    assert (0 <= shr_m (shr_1 mrs)) as Hm1
      by (rewrite E1; apply Z.div_pos; lia).
    rewrite <- E1 in H2, H3.
    destruct (IH _ Hm1 H2 Hr1 Hs1) as [Hr2 Hs2].
    destruct (iter_pos_shr_m p _ Hm1) as [Hm2 E2].
    rewrite <- E2 in H3. exact (IH _ Hm2 H3 Hr2 Hs2).
  - replace (Z.pos p~0) with (Z.pos p + Z.pos p) in Hdiv by lia.
    apply divide_pow2_split in Hdiv as [H2 H3]; [|lia|lia].
    destruct (IH _ Hm H2 Hr Hs) as [Hr2 Hs2].
    destruct (iter_pos_shr_m p _ Hm) as [Hm2 E2].
    rewrite <- E2 in H3. exact (IH _ Hm2 H3 Hr2 Hs2).
  - rewrite Z.pow_1_r in Hdiv. now apply shr_1_exact.
Qed.

Lemma shr_record_eq mrs m :
  shr_m mrs = m → shr_r mrs = false → shr_s mrs = false →
  mrs = {| shr_m := m; shr_r := false; shr_s := false |}.
Proof. destruct mrs; cbn; congruence. Qed.

Lemma shr_fexp_exact m e :
  0 <= m → (2 ^ Z.max 0 (fexp 53 1024 (Zdigits2 m + e) - e) | m) →
  shr_fexp 53 1024 m e loc_Exact
  = ({| shr_m := m / 2 ^ Z.max 0 (fexp 53 1024 (Zdigits2 m + e) - e);
        shr_r := false; shr_s := false |},
     e + Z.max 0 (fexp 53 1024 (Zdigits2 m + e) - e)).
Proof.
  intros Hm Hdiv. destruct (shr_fexp_spec m e loc_Exact Hm) as [E1 E2].
  rewrite (surjective_pairing (shr_fexp 53 1024 m e loc_Exact)), E2. f_equal.
  apply shr_record_eq; [exact E1| |]; unfold shr_fexp, shr;
    cbn [shr_record_of_loc];
    destruct (fexp 53 1024 (Zdigits2 m + e) - e) as [|p|p] eqn:En;
    cbn [fst shr_r shr_s]; try reflexivity;
    rewrite Z.max_r in Hdiv by lia;
    now apply iter_pos_shr_exact.
Qed.

(** Rounding a positive mantissa whose discarded bits are all zero. *)
Lemma binary_round_aux_exact s mx ex :
  0 < mx →
  (2 ^ Z.max 0 (fexp 53 1024 (Zdigits2 mx + ex) - ex) | mx) →
  ex + Z.max 0 (fexp 53 1024 (Zdigits2 mx + ex) - ex) <= 971 →
  ∃ m, binary_round_aux 53 1024 s mx ex loc_Exact
       = S754_finite s m (ex + Z.max 0 (fexp 53 1024 (Zdigits2 mx + ex) - ex)) ∧
       Z.pos m = mx / 2 ^ Z.max 0 (fexp 53 1024 (Zdigits2 mx + ex) - ex).
Proof.
  intros Hmx Hdiv Hex. set (n := Z.max 0 _) in *.
  assert (0 <= n) as Hn by (subst n; lia).
  assert (0 < 2 ^ n) as Hpow by (apply Z.pow_pos_nonneg; lia).
  destruct Hdiv as [q Hq].
  assert (mx / 2 ^ n = q) as Eq1 by (rewrite Hq; apply Z.div_mul; lia).
  assert (0 < q) as Hq0 by nia.
  assert (Zdigits2 mx = Zdigits2 q + n) as Hd
    by (rewrite Hq; now apply Zdigits2_mul_pow2).
  unfold binary_round_aux.
  rewrite (shr_fexp_exact mx ex) by (try lia; fold n; now exists q).
  fold n. cbn [shr_m loc_of_shr_record round_nearest_even]. rewrite Eq1.
  assert (Z.max 0 (fexp 53 1024 (Zdigits2 q + (ex + n)) - (ex + n)) = 0) as En2.
  { replace (Zdigits2 q + (ex + n)) with (Zdigits2 mx + ex) by lia. subst n. lia. }
  rewrite (shr_fexp_exact q (ex + n))
    by (try lia; rewrite En2; exists q; rewrite Z.pow_0_r; lia).
  rewrite En2, Z.pow_0_r, Z.div_1_r, Z.add_0_r. cbn [shr_m].
  destruct q as [|m|m]; try lia.
  exists m. split; [|reflexivity].
  rewrite (proj2 (Z.leb_le (ex + n) (1024 - 53))) by lia.
  reflexivity.
Qed.

(** A positive mantissa of at most 53 bits, in the normal range, is only
    aligned. *)
Lemma binary_round_exact s mx ex :
  Z.pos (digits2_pos mx) <= 53 →
  -1074 <= Z.pos (digits2_pos mx) + ex - 53 → Z.pos (digits2_pos mx) + ex <= 1024 →
  ∃ m, binary_round 53 1024 s mx ex
       = S754_finite s m (Z.pos (digits2_pos mx) + ex - 53) ∧
       Z.pos m = Z.pos mx * 2 ^ (53 - Z.pos (digits2_pos mx)).
Proof.
  intros Hd Hlo Hhi. unfold binary_round.
  assert (fexp 53 1024 (Z.pos (digits2_pos mx) + ex) = Z.pos (digits2_pos mx) + ex - 53)
    as -> by (unfold fexp, emin; lia).
  destruct (shl_align_spec mx ex (Z.pos (digits2_pos mx) + ex - 53))
    as (_ & Hval & Hsnd).
  destruct (shl_align mx ex _) as [mz ez]. cbn [fst snd] in Hval, Hsnd.
  rewrite Hsnd in * by lia. clear Hsnd.
  replace (ex - (Z.pos (digits2_pos mx) + ex - 53)) with (53 - Z.pos (digits2_pos mx))
    in Hval by lia.
  assert (Zdigits2 (Z.pos mz) = 53) as Hdz.
  { rewrite Hval, Zdigits2_mul_pow2 by lia. cbn [Zdigits2]. lia. }
  destruct (binary_round_aux_exact s (Z.pos mz) (Z.pos (digits2_pos mx) + ex - 53))
    as (m & Hm & Hv).
  - lia.
  - rewrite Hdz. unfold fexp, emin.
    replace (Z.max 0 _) with 0 by lia. rewrite Z.pow_0_r. apply Z.divide_1_l.
  - rewrite Hdz. unfold fexp, emin. lia.
  - rewrite Hdz in Hm, Hv. unfold fexp, emin in Hm, Hv.
    replace (Z.max 0 _) with 0 in Hm, Hv by lia.
    rewrite Z.add_0_r in Hm. rewrite Z.pow_0_r, Z.div_1_r in Hv.
    exists m. split; [exact Hm|]. congruence.
Qed.

Lemma float64_of_int_exact z :
  0 < z < 2 ^ 53 →
  ∃ m, float64_of_int z = S754_finite false m (Zdigits2 z - 53) ∧
       Z.pos m = z * 2 ^ (53 - Zdigits2 z).
Proof.
  intros [Hz Hlt]. destruct z as [|p|p]; try lia.
  unfold float64_of_int. cbn [binary_normalize Zdigits2].
  assert (Z.pos (digits2_pos p) <= 53) as Hd by (apply digits2_pos_le; lia).
  destruct (binary_round_exact false p 0) as (m & Hm & Hv); try lia.
  exists m. rewrite Hm. split; [f_equal; lia|exact Hv].
Qed.

Lemma math_Pow2_exact r :
  0 <= r <= 1023 →
  ∃ m, math_Pow2 r = S754_finite false m (r - 52) ∧ Z.pos m = 2 ^ 52.
Proof.
  intros Hr. unfold math_Pow2. cbn [binary_normalize].
  destruct (binary_round_exact false 1 r) as (m & Hm & Hv);
    cbn [digits2_pos]; try lia.
  cbn [digits2_pos] in Hm, Hv.
  exists m. rewrite Hm. split; [f_equal; lia|]. rewrite Hv. f_equal.
Qed.

(** The product of an integer below 2^53 and a power of two is exact. *)
Lemma f64mul_pow2_exact z r :
  0 < z < 2 ^ 53 → 0 <= r → Zdigits2 z + r <= 1024 →
  ∃ m, f64mul (float64_of_int z) (math_Pow2 r)
       = S754_finite false m (Zdigits2 z + r - 53) ∧
       Z.pos m = z * 2 ^ (53 - Zdigits2 z).
Proof.
  intros Hz Hr Hsum.
  assert (1 <= Zdigits2 z <= 53) as Hd.
  { split.
    - destruct z as [|p|p]; try lia. cbn. lia.
    - apply Zdigits2_le; lia. }
  destruct (float64_of_int_exact z Hz) as (m1 & -> & Hv1).
  destruct (math_Pow2_exact r) as (m2 & -> & Hv2); [lia|].
  unfold f64mul. cbn [SFmul xorb].
  assert (0 < 2 ^ (53 - Zdigits2 z)) by (apply Z.pow_pos_nonneg; lia).
  assert (0 < 2 ^ 52) by (apply Z.pow_pos_nonneg; lia).
  assert (Zdigits2 (Z.pos (m1 * m2)) = 105) as Hdp.
  { rewrite Pos2Z.inj_mul, Hv2, Zdigits2_mul_pow2 by lia.
    rewrite Hv1, Zdigits2_mul_pow2 by lia. lia. }
  destruct (binary_round_aux_exact false (Z.pos (m1 * m2))
              (Zdigits2 z - 53 + (r - 52))) as (m & Hm & Hv).
  - lia.
  - rewrite Hdp. unfold fexp, emin. replace (Z.max 0 _) with 52 by lia.
    exists (Z.pos m1). rewrite Pos2Z.inj_mul, Hv2. reflexivity.
  - rewrite Hdp. unfold fexp, emin. lia.
  - rewrite Hdp in Hm, Hv. unfold fexp, emin in Hm, Hv.
    replace (Z.max 0 _) with 52 in Hm, Hv by lia.
    exists m. split.
    + rewrite Hm. f_equal. lia.
    + rewrite Hv, Pos2Z.inj_mul, Hv2, Z.div_mul by lia. exact Hv1.
Qed.

Lemma f64_trunc_exact z r m :
  0 < z → 0 <= r → 1 <= Zdigits2 z <= 53 →
  Z.pos m = z * 2 ^ (53 - Zdigits2 z) →
  f64_trunc (S754_finite false m (Zdigits2 z + r - 53)) = Some (z * 2 ^ r).
Proof.
  intros Hz Hr Hd Hv. unfold f64_trunc. cbn [cond_Zopp]. f_equal. rewrite Hv.
  destruct (Z.leb_spec 0 (Zdigits2 z + r - 53)).
  - rewrite <- Z.mul_assoc, <- Z.pow_add_r by lia. do 2 f_equal. lia.
  - replace (53 - Zdigits2 z) with (r + (- (Zdigits2 z + r - 53))) by lia.
    rewrite Z.pow_add_r, Z.mul_assoc by lia.
    apply Z.div_mul. apply Z.pow_nonzero; lia.
Qed.
End ExactBinary64.

Section Exponential.
Context {P : Platform}.

(** X26. [ExponentialBackoff] where the arithmetic is exact: for a
    positive initial delay below 2^53 ns and a restart count for which
    initial * 2^restarts fits in an int64, the float64 product is exact and
    the delay is min(initial * 2^restarts, max), on every platform; no
    random sample is consumed. *)
Theorem exponential_backoff_exact initial max restarts rnd :
  0 < initial < 2 ^ 53 → 0 <= restarts → initial * 2 ^ restarts <= max_int64 →
  ComputeDelay (ExponentialBackoff initial max) restarts rnd
    = (Z.min (initial * 2 ^ restarts) max, rnd).
Proof.
  intros [Hi0 Hi] Hr Hfit. unfold ExponentialBackoff. cbn [ComputeDelay].
  assert (0 < 2 ^ restarts) as Hpow by (apply Z.pow_pos_nonneg; lia).
  assert (1 <= Zdigits2 initial <= 53) as Hd.
  { split.
    - destruct initial as [|p|p]; try lia. cbn. lia.
    - apply Zdigits2_le; lia. }
  assert (Zdigits2 initial + restarts <= 64) as Hsum.
  { assert (Zdigits2 (initial * 2 ^ restarts) <= 64) as H64.
    { apply Zdigits2_le; [lia|lia|]. unfold max_int64 in Hfit. lia. }
    rewrite Zdigits2_mul_pow2 in H64 by lia. exact H64. }
  destruct (f64mul_pow2_exact initial restarts) as (m & -> & Hv); [lia|lia|lia|].
  unfold int64_of_float.
  rewrite (f64_trunc_exact initial restarts m) by (try lia; exact Hv).
  assert ((min_int64 <=? initial * 2 ^ restarts)
          && (initial * 2 ^ restarts <=? max_int64) = true) as ->.
  { apply andb_true_iff. split; apply Z.leb_le; [|exact Hfit].
    unfold min_int64. lia. }
  f_equal. destruct (Z.ltb_spec max (initial * 2 ^ restarts)); lia.
Qed.
End Exponential.

Lemma exponential_backoff_exact_witness :
  ComputeDelay (P := arm64) (ExponentialBackoff (100 * Millisecond) (5 * Second)) 3 []
    = (Z.min (100 * Millisecond * 2 ^ 3) (5 * Second), []).
Proof.
  apply (exponential_backoff_exact (P := arm64) (100 * Millisecond) (5 * Second) 3 []).
  - vm_compute. split; reflexivity.
  - discriminate.
  - vm_compute. discriminate.
Defined.

(* ===================================================================== *)
(** * WithChildren and duplicate names                                    *)
(* ===================================================================== *)

Lemma consistent_append s c es :
  consistent s → allocated s → childMap s !! Name (spec c) = None →
  consistent (updated s (children s ++ [length (heap s)])
                (<[Name (spec c) := length (heap s)]> (childMap s))
                (heap s ++ [c]) es) ∧
  allocated (updated s (children s ++ [length (heap s)])
               (<[Name (spec c) := length (heap s)]> (childMap s))
               (heap s ++ [c]) es).
Proof.
  intros Hc Ha Hm.
  assert (∀ p, p ∈ children s → (p < length (heap s))%nat) as Hlt
    by (intros p Hp; unfold allocated in Ha; rewrite Forall_forall in Ha; auto).
  split.
  - intros nm p. unfold name_of.
    rewrite childMap_updated, children_updated, heap_updated.
    destruct (decide (nm = Name (spec c))) as [->|Hne].
    + rewrite lookup_insert_eq. split.
      * intros [= <-]. rewrite deref_snoc. split; [|reflexivity].
        apply elem_of_app. right. apply list_elem_of_here.
      * intros [Hin Hnm]. apply elem_of_app in Hin as [Hin|Hin].
        -- rewrite deref_app_l in Hnm by auto.
           assert (childMap s !! Name (spec c) = Some p) as Hp by (apply Hc; auto).
           congruence.
        -- apply list_elem_of_singleton in Hin. now subst.
    + rewrite lookup_insert_ne by congruence. rewrite (Hc nm p). split.
      * intros [Hin Hnm]. rewrite deref_app_l by auto. split; [|assumption].
        apply elem_of_app. now left.
      * intros [Hin Hnm]. apply elem_of_app in Hin as [Hin|Hin].
        -- rewrite deref_app_l in Hnm by auto. auto.
        -- apply list_elem_of_singleton in Hin. subst p.
           rewrite deref_snoc in Hnm. congruence.
  - unfold allocated. rewrite children_updated, heap_updated, length_app.
    apply Forall_app. split.
    + apply Forall_forall. intros p Hp. specialize (Hlt p Hp). lia.
    + constructor; [cbn; lia|constructor].
Qed.

Lemma WithChildren_consistent specs : ∀ s,
  consistent s → allocated s → NoDup (map Name specs) →
  (∀ sp, sp ∈ specs → childMap s !! Name sp = None) →
  consistent (WithChildren specs s).
Proof.
  induction specs as [|sp specs IH]; intros s Hc Ha Hnd Hfresh; [exact Hc|].
  rewrite WithChildren_cons. cbn [map] in Hnd. apply NoDup_cons in Hnd as [Hsp Hnd].
  destruct (consistent_append s (literal_child sp) (events s) Hc Ha) as [Hc1 Ha1].
  { apply Hfresh. apply list_elem_of_here. }
  apply IH; try assumption.
  intros sp' Hsp'. rewrite childMap_updated, lookup_insert_ne.
  - apply Hfresh. now apply list_elem_of_further.
  - cbn. intros Heq. apply Hsp. rewrite Heq. apply list_elem_of_fmap. eauto.
Qed.

(** X27. [WithChildren] registers every spec it is given, also two specs
    of the same name: the sequence then holds both records and the index
    only the last one. So sequence and index of the new supervisor agree
    exactly when the names of the specs are pairwise different. *)
Theorem WithChildren_duplicate_names strat specs :
  consistent (New strat [WithChildren specs]) ↔ NoDup (map Name specs).
Proof.
  split.
  - unfold New. cbn [fold_left].
    match goal with |- context [WithChildren specs ?s0] =>
      destruct (WithChildren_eq specs s0) as (m & -> & _) end.
    cbn [children heap app length]. intros Hc.
    apply NoDup_alt. intros i j nm Hi Hj.
    rewrite list_lookup_fmap in Hi, Hj.
    destruct (specs !! i) as [spi|] eqn:Ei; [|discriminate].
    destruct (specs !! j) as [spj|] eqn:Ej; [|discriminate].
    cbn in Hi, Hj. injection Hi as Hi. injection Hj as Hj.
    pose proof (lookup_lt_Some _ _ _ Ei) as Hil.
    pose proof (lookup_lt_Some _ _ _ Ej) as Hjl.
    assert (m !! nm = Some i) as Hmi.
    { apply (Hc nm i). rewrite children_updated. unfold name_of.
      rewrite heap_updated. split; [apply elem_of_seq; lia|].
      unfold deref. now rewrite list_lookup_fmap, Ei. }
    assert (m !! nm = Some j) as Hmj.
    { apply (Hc nm j). rewrite children_updated. unfold name_of.
      rewrite heap_updated. split; [apply elem_of_seq; lia|].
      unfold deref. now rewrite list_lookup_fmap, Ej. }
    congruence.
  - intros Hnd. unfold New. cbn [fold_left].
    apply WithChildren_consistent; [| |assumption|].
    + intros nm p. cbn. rewrite lookup_empty. split; [discriminate|].
      intros [H _]. inversion H.
    + constructor.
    + intros sp _. apply lookup_empty.
Qed.

(* ===================================================================== *)
(** * binary64 products bounded by an integer                             *)
(* ===================================================================== *)

Section Scaled.

Lemma two_power_pos e : (0 < Qpower 2 e)%Q.
Proof. apply Qpower_0_lt. reflexivity. Qed.









End Scaled.

Section BoundedBinary64.



End BoundedBinary64.

Section Magnitudes.



Lemma f64_abs_zero x :
  is_finite x = true → (f64_abs x <= 0)%Q → ∃ s, x = S754_zero s.
Proof.
  destruct x as [s|s| |s m e]; cbn [is_finite f64_abs]; try discriminate; eauto.
  intros _ Hle. exfalso.
  assert (0 < inject_Z (Z.pos m) * Qpower 2 e)%Q as Hpos.
  { apply Qmult_lt_0_compat; [reflexivity|apply two_power_pos]. }
  exact (Qlt_irrefl _ (Qlt_le_trans _ _ _ Hpos Hle)).
Qed.





End Magnitudes.

Section Conversion.
Context {P : Platform}.

End Conversion.

Section UnitInterval.







End UnitInterval.

Section SymmetricSample.



End SymmetricSample.

(* ===================================================================== *)
(** * backoff.go: the jitter policy within its interval                   *)
(* ===================================================================== *)

Section RoundedEnds.




End RoundedEnds.

Section JitterPolicy.
Context {P : Platform}.




End JitterPolicy.

